(** * anon-kode API logging: [src/utils/apiLogger.ts] and [src/commands/apilogs.ts]

    A shallow embedding of the API-call logger and of the [/apilogs] command,
    with the properties of the specification stated over it.

    The JavaScript store is explicit: objects and arrays live in a heap and
    are passed around by reference, so that in-place mutation, aliasing and
    cyclic structures are expressible.  Exceptions are explicit as well: a
    computation either returns, throws a JavaScript value, or (for the
    fuel-bounded traversals of the heap) runs out of fuel; the theorems show
    that the traversals started by the program never run out of fuel. *)

From Stdlib Require Import ZArith String Ascii List Lia Bool Sorting.Sorted.
From Stdlib Require Import Numbers.DecimalString.
From stdpp Require Import base list strings.


(** ** Strings

    A JavaScript string is represented by the bytes of its UTF-8 encoding:
    a character of the ASCII range is one byte, any other character a
    sequence of two to four bytes, none of which is an ASCII byte.  The
    operations that look for ASCII characters or strings ([split],
    [includes], [startsWith], [endsWith], [replace]) are therefore the
    same on the bytes; those that depend on the class of a character
    ([trim], [toUpperCase]) read the sequences they are concerned with. *)

Module Str.

(** The byte numbered [n] *)
Definition byte (n : nat) : ascii := ascii_of_nat n.

Definition is_byte (n : nat) (c : ascii) : bool := Ascii.eqb c (byte n).

(** The white space and line terminators of the ASCII range: TAB, LF, VT,
    FF, CR and the space *)
Definition is_space (c : ascii) : bool :=
  let n := nat_of_ascii c in (n =? 32) || ((9 <=? n) && (n <=? 13)).

(** The other white space and line terminators: U+00A0, in two bytes, and
    U+1680, U+2000 to U+200A, U+2028, U+2029, U+202F, U+205F, U+3000 and
    U+FEFF, in three *)
Definition blank2 (a b : ascii) : bool := is_byte 194 a && is_byte 160 b.

Definition blank3 (a b c : ascii) : bool :=
  (is_byte 225 a && is_byte 154 b && is_byte 128 c) ||
  (is_byte 226 a && is_byte 128 b &&
   (let n := nat_of_ascii c in
    ((128 <=? n) && (n <=? 138)) || (n =? 168) || (n =? 169) || (n =? 175))) ||
  (is_byte 226 a && is_byte 129 b && is_byte 159 c) ||
  (is_byte 227 a && is_byte 128 b && is_byte 128 c) ||
  (is_byte 239 a && is_byte 187 b && is_byte 191 c).

Definition lower (c : ascii) : ascii :=
  let n := nat_of_ascii c in
  if (65 <=? n) && (n <=? 90) then ascii_of_nat (n + 32) else c.

Definition upper (c : ascii) : ascii :=
  let n := nat_of_ascii c in
  if (97 <=? n) && (n <=? 122) then ascii_of_nat (n - 32) else c.

Fixpoint map (f : ascii -> ascii) (s : string) : string :=
  match s with
  | EmptyString => EmptyString
  | String c s => String (f c) (map f s)
  end.

(** [s.toLowerCase()] (on the ASCII letters) *)
Definition toLowerCase : string -> string := map lower.

(** The characters outside the ASCII range whose upper-case form is made of
    ASCII letters: U+00DF (SS), U+0131 (I) and U+017F (S), in two bytes, and
    the ligatures U+FB00 to U+FB06 (FF, FI, FL, FFI, FFL, ST, ST), in
    three *)
Definition upper2 (a b : ascii) : option string :=
  if is_byte 195 a && is_byte 159 b then Some "SS"
  else if is_byte 196 a && is_byte 177 b then Some "I"
  else if is_byte 197 a && is_byte 191 b then Some "S"
  else None.

Definition upper3 (a b c : ascii) : option string :=
  if is_byte 239 a && is_byte 172 b then
    if is_byte 128 c then Some "FF"
    else if is_byte 129 c then Some "FI"
    else if is_byte 130 c then Some "FL"
    else if is_byte 131 c then Some "FFI"
    else if is_byte 132 c then Some "FFL"
    else if is_byte 133 c then Some "ST"
    else if is_byte 134 c then Some "ST"
    else None
  else None.

(** [s.toUpperCase()], as far as a comparison with a string of ASCII
    letters can tell: the ASCII letters and the characters above are put in
    upper case; every other character has an upper-case form that is not
    ASCII, and is left as it is. *)
Fixpoint toUpperCase (s : string) : string :=
  match s with
  | EmptyString => EmptyString
  | String a s1 =>
      match s1 with
      | String b s2 =>
          match upper2 a b with
          | Some u => u +:+ toUpperCase s2
          | None =>
              match s2 with
              | String c s3 =>
                  match upper3 a b c with
                  | Some u => u +:+ toUpperCase s3
                  | None => String (upper a) (toUpperCase s1)
                  end
              | EmptyString => String (upper a) (toUpperCase s1)
              end
          end
      | EmptyString => String (upper a) EmptyString
      end
  end.

(** [s.startsWith(p)] *)
Definition startsWith (s p : string) : bool := String.prefix p s.

(** [s.includes(x)] *)
Fixpoint includes (s x : string) : bool :=
  String.prefix x s ||
  match s with
  | EmptyString => false
  | String _ s' => includes s' x
  end.

(** [s.endsWith(x)] *)
Definition endsWith (s x : string) : bool :=
  (String.length x <=? String.length s) &&
  String.eqb (substring (String.length s - String.length x) (String.length x) s) x.

(** [s.split(c)] for a one-character separator *)
Fixpoint split (c : ascii) (s : string) : list string :=
  match s with
  | EmptyString => [EmptyString]
  | String a s' =>
      if Ascii.eqb a c then EmptyString :: split c s'
      else match split c s' with
           | x :: xs => String a x :: xs
           | [] => [String a EmptyString]
           end
  end.

(** [xs.join(sep)] *)
Fixpoint join (sep : string) (xs : list string) : string :=
  match xs with
  | [] => EmptyString
  | [x] => x
  | x :: xs => x +:+ sep +:+ join sep xs
  end.

(** The test of [.filter(Boolean)] on a string *)
Definition nonempty (s : string) : bool := negb (String.eqb s "").

(** [s.trimStart()]: without the white space and line terminators it
    begins with *)
Fixpoint trimStart (s : string) : string :=
  match s with
  | EmptyString => EmptyString
  | String a s1 =>
      if is_space a then trimStart s1
      else
        match s1 with
        | String b s2 =>
            if blank2 a b then trimStart s2
            else
              match s2 with
              | String c s3 => if blank3 a b c then trimStart s3 else s
              | EmptyString => s
              end
        | EmptyString => s
        end
  end.

(** [s.trimEnd()]: cut where what is left is white space only *)
Fixpoint trimEnd (s : string) : string :=
  match s with
  | EmptyString => EmptyString
  | String a s1 =>
      if String.eqb (trimStart s) EmptyString then EmptyString
      else String a (trimEnd s1)
  end.

(** [s.trim()] *)
Definition trim (s : string) : string := trimEnd (trimStart s).

(** [s.replace(/c/g, by)] for a one-character pattern *)
Fixpoint replaceAll (c : ascii) (by_ : string) (s : string) : string :=
  match s with
  | EmptyString => EmptyString
  | String a s' => (if Ascii.eqb a c then by_ else String a EmptyString) +:+ replaceAll c by_ s'
  end.

(** [s.padStart(n, "0")] *)
Definition padStart0 (n : nat) (s : string) : string :=
  String.concat "" (replicate (n - String.length s) "0") +:+ s.

(** Decimal notation of an integer *)
Definition of_Z (z : Z) : string := NilZero.string_of_int (Z.to_int z).

Definition nl : ascii := ascii_of_nat 10.

(** [s.replace(pattern, by)] for a string pattern: the first occurrence
    only *)
Fixpoint replace (s pattern by_ : string) : string :=
  if String.prefix pattern s
  then by_ +:+ substring (String.length pattern) (String.length s - String.length pattern) s
  else match s with
       | EmptyString => EmptyString
       | String c s' => String c (replace s' pattern by_)
       end.

End Str.

(** ** JavaScript values and the heap *)

Module JS.

Abbreviation loc := nat (only parsing).

(** Numbers: the integer-valued doubles and [NaN].  Fractions and the
    infinities play no role in the code modelled here. *)
Inductive number :=
| NInt (z : Z)
| NaN.

Inductive value :=
| VUndefined
| VNull
| VBool (b : bool)
| VNum (n : number)
| VStr (s : string)
| VBigInt (z : Z)
| VFunction (id : nat)
| VError (message stack : string)   (* an instance of Error *)
| VRef (l : loc).                   (* any other object, by reference *)

(** A body is absent ([null]), or a stream whose text can be read or not. *)
Inductive body :=
| NoBody
| Readable (text : string)
| Unreadable.

Record request := {
  rq_url : string;
  rq_method : string;
  rq_headers : list (string * string);
  rq_body : body
}.

Record response := {
  rs_status : Z;
  rs_headers : list (string * string);
  rs_body : body
}.

(** Heap objects.  A plain object is its list of own enumerable properties in
    insertion order; the first binding of a name is the live one.  Streams,
    requests and responses have no own enumerable property. *)
Inductive obj :=
| OObj (props : list (string * value))
| OArr (elems : list value)
| OStream (b : body)
| ORequest (r : request)
| OResponse (r : response).

Abbreviation heap := (list obj) (only parsing).

#[global] Instance number_eq_dec : EqDecision number.
Proof. solve_decision. Defined.
#[global] Instance value_eq_dec : EqDecision value.
Proof. solve_decision. Defined.

(** [!v] is [negb (truthy v)]. *)
Definition truthy (v : value) : bool :=
  match v with
  | VUndefined | VNull => false
  | VBool b => b
  | VNum (NInt z) => negb (z =? 0)%Z
  | VNum NaN => false
  | VStr s => negb (String.eqb s "")
  | VBigInt z => negb (z =? 0)%Z
  | VFunction _ | VError _ _ | VRef _ => true
  end.

Inductive jstype := TUndefined | TObject | TBoolean | TNumber | TString | TBigint | TFunction.

Definition typeof (v : value) : jstype :=
  match v with
  | VUndefined => TUndefined
  | VNull | VError _ _ | VRef _ => TObject
  | VBool _ => TBoolean
  | VNum _ => TNumber
  | VStr _ => TString
  | VBigInt _ => TBigint
  | VFunction _ => TFunction
  end.

Definition is_object (v : value) : bool :=
  match typeof v with TObject => true | _ => false end.

(** [a || b] *)
Definition js_or (a b : value) : value := if truthy a then a else b.

(** *** Outcomes of computations *)

Inductive outcome (S A : Type) :=
| Ret (a : A) (s : S)
| Throw (e : value) (s : S)
| OutOfFuel.
Arguments Ret {S A} a s.
Arguments Throw {S A} e s.
Arguments OutOfFuel {S A}.

Definition M (S A : Type) : Type := S -> outcome S A.

Definition ret {S A} (a : A) : M S A := fun s => Ret a s.
Definition throw {S A} (e : value) : M S A := fun s => Throw e s.
Definition bind {S A B} (m : M S A) (k : A -> M S B) : M S B :=
  fun s => match m s with
           | Ret a s' => k a s'
           | Throw e s' => Throw e s'
           | OutOfFuel => OutOfFuel
           end.

(** [try { m } catch (e) { handler e }] *)
Definition try_catch {S A} (m : M S A) (handler : value -> M S A) : M S A :=
  fun s => match m s with
           | Throw e s' => handler e s'
           | r => r
           end.

(** [try { m } finally { fin }]: the cleanup runs on both paths; if it throws
    itself, its exception replaces the pending result. *)
Definition try_finally {S A} (m : M S A) (fin : M S unit) : M S A :=
  fun s => match m s with
           | Ret a s' => match fin s' with
                         | Ret _ s'' => Ret a s''
                         | Throw e s'' => Throw e s''
                         | OutOfFuel => OutOfFuel
                         end
           | Throw e s' => match fin s' with
                           | Ret _ s'' => Throw e s''
                           | Throw e' s'' => Throw e' s''
                           | OutOfFuel => OutOfFuel
                           end
           | OutOfFuel => OutOfFuel
           end.

Definition get_state {S} : M S S := fun s => Ret s s.

Declare Scope js_scope.
Delimit Scope js_scope with js.
Notation "x <- m ;; k" := (bind m (fun x => k))
  (at level 100, m at next level, right associativity) : js_scope.
Notation "m ;;; k" := (bind m (fun _ => k))
  (at level 100, right associativity) : js_scope.

(** Results of pure computations that may throw or exhaust their fuel. *)
Inductive res (A : Type) :=
| Ok (a : A)
| Err (e : value)
| Fuel.
Arguments Ok {A} a.
Arguments Err {A} e.
Arguments Fuel {A}.

Definition rbind {A B} (r : res A) (k : A -> res B) : res B :=
  match r with
  | Ok a => k a
  | Err e => Err e
  | Fuel => Fuel
  end.

Definition lift_res {S A} (r : res A) : M S A :=
  fun s => match r with
           | Ok a => Ret a s
           | Err e => Throw e s
           | Fuel => OutOfFuel
           end.

(** *** Property access *)

Fixpoint props_get {A} (k : string) (ps : list (string * A)) : option A :=
  match ps with
  | [] => None
  | (k', v) :: ps => if String.eqb k k' then Some v else props_get k ps
  end.

(** Assignment to a property: overwrite the live binding, or add one at the
    end. *)
Fixpoint props_set {A} (k : string) (v : A) (ps : list (string * A)) : list (string * A) :=
  match ps with
  | [] => [(k, v)]
  | (k', v') :: ps => if String.eqb k k' then (k', v) :: ps else (k', v') :: props_set k v ps
  end.

(** The plain object with the given string members (header names are
    distinct). *)
Definition obj_of_headers (hs : list (string * string)) : list (string * value) :=
  foldl (fun ps kv => props_set kv.1 (VStr kv.2) ps) [] hs.

(** Property keys: a name, or an array index (standing for its canonical
    decimal string). *)
Inductive pkey :=
| KStr (s : string)
| KIdx (i : nat).

(** [Object.keys(o)] *)
Definition keys_of (o : obj) : list pkey :=
  match o with
  | OObj ps => KStr <$> remove_dups (ps.*1)
  | OArr vs => KIdx <$> seq 0 (length vs)
  | _ => []
  end.

(** [o[k]] *)
Definition obj_get (o : obj) (k : pkey) : value :=
  match o, k with
  | OObj ps, KStr s => default VUndefined (props_get s ps)
  | OArr vs, KIdx i => default VUndefined (vs !! i)
  | _, _ => VUndefined
  end.

(** [o[k] = v] for an existing index or any property name of a plain
    object. *)
Definition obj_set (o : obj) (k : pkey) (v : value) : obj :=
  match o, k with
  | OObj ps, KStr s => OObj (props_set s v ps)
  | OArr vs, KIdx i => OArr (<[i:=v]> vs)
  | _, _ => o
  end.

Definition heap_get (h : heap) (l : loc) (k : pkey) : value :=
  match h !! l with
  | Some o => obj_get o k
  | None => VUndefined
  end.

Definition heap_set (h : heap) (l : loc) (k : pkey) (v : value) : heap :=
  match h !! l with
  | Some o => <[l:=obj_set o k v]> h
  | None => h
  end.

Definition alloc (o : obj) : M heap value :=
  fun h => Ret (VRef (length h)) (h ++ [o]).

Definition TypeError (message : string) : value := VError message "".
Definition SyntaxError (message : string) : value := VError message "".

(** The value of the body member of a request or response: [null], or its
    stream. *)
Definition body_value (b : body) : M heap value :=
  match b with
  | NoBody => ret VNull
  | _ => alloc (OStream b)
  end.

(** [o.name] for a name that is not an array index.  The [headers] of a
    request or response are read through [Object.fromEntries] only (see
    [headers_object]), and the body through [body_value]. *)
Definition obj_member (o : obj) (name : string) : value :=
  match o with
  | OObj ps => default VUndefined (props_get name ps)
  | ORequest r =>
      if String.eqb name "url" then VStr (rq_url r)
      else if String.eqb name "method" then VStr (rq_method r)
      else VUndefined
  | OResponse r =>
      if String.eqb name "status" then VNum (NInt (rs_status r))
      else VUndefined
  | _ => VUndefined
  end.

(** [v.name]: reading a member of [undefined] or [null] throws. *)
Definition member (v : value) (name : string) : M heap value :=
  fun h =>
    match v with
    | VUndefined | VNull =>
        Throw (TypeError ("Cannot read properties of undefined or null, reading " +:+ name)) h
    | VError message stack =>
        Ret (if String.eqb name "message" then VStr message
             else if String.eqb name "stack" then VStr stack
             else VUndefined) h
    | VRef l =>
        match h !! l with
        | Some (ORequest r) =>
            if String.eqb name "body" then body_value (rq_body r) h
            else Ret (obj_member (ORequest r) name) h
        | Some (OResponse r) =>
            if String.eqb name "body" then body_value (rs_body r) h
            else Ret (obj_member (OResponse r) name) h
        | Some o => Ret (obj_member o name) h
        | None => Ret VUndefined h
        end
    | _ => Ret VUndefined h
    end.

(** [Object.fromEntries(headers.entries())] *)
Definition headers_object (hs : list (string * string)) : M heap value :=
  alloc (OObj (obj_of_headers hs)).

(** *** JSON

    A JSON text is represented by its document tree. *)

#[local] Unset Elimination Schemes.
Inductive json :=
| JNull
| JBool (b : bool)
| JNum (z : Z)
| JStr (s : string)
| JArr (items : list json)
| JObj (members : list (string * json)).
#[local] Set Elimination Schemes.

(** Elements of an array: [undefined] and functions are written as [null]. *)
Fixpoint ser_elems (f : value -> res (option json)) (vs : list value) : res (list json) :=
  match vs with
  | [] => Ok []
  | v :: vs =>
      rbind (f v) (fun j =>
      rbind (ser_elems f vs) (fun js =>
      Ok (default JNull j :: js)))
  end.

(** Members of an object: those whose value is [undefined] or a function are
    left out. *)
Fixpoint ser_members (f : value -> res (option json)) (get : string -> value)
    (ks : list string) : res (list (string * json)) :=
  match ks with
  | [] => Ok []
  | k :: ks =>
      rbind (f (get k)) (fun j =>
      rbind (ser_members f get ks) (fun js =>
      Ok (match j with Some j => (k, j) :: js | None => js end)))
  end.

(** [JSON.stringify], with the stack of the objects being serialised: meeting
    one of them again is a cycle and throws a [TypeError].  [Ok None] stands
    for the result [undefined].  [fuel] bounds the nesting; a location outside
    the heap has no counterpart in the language (references come from [alloc])
    and is made an error. *)
Fixpoint serialize (fuel : nat) (h : heap) (stack : list loc) (v : value) : res (option json) :=
  match v with
  | VUndefined | VFunction _ => Ok None
  | VNull => Ok (Some JNull)
  | VBool b => Ok (Some (JBool b))
  | VNum (NInt z) => Ok (Some (JNum z))
  | VNum NaN => Ok (Some JNull)
  | VStr s => Ok (Some (JStr s))
  | VBigInt _ => Err (TypeError "Do not know how to serialize a BigInt")
  | VError _ _ => Ok (Some (JObj []))
  | VRef l =>
      match fuel with
      | 0 => Fuel
      | S fuel' =>
          if bool_decide (l ∈ stack)
          then Err (TypeError "Converting circular structure to JSON")
          else
            match h !! l with
            | Some (OArr vs) =>
                rbind (ser_elems (serialize fuel' h (l :: stack)) vs) (fun js =>
                Ok (Some (JArr js)))
            | Some (OObj ps) =>
                rbind (ser_members (serialize fuel' h (l :: stack))
                         (fun k => default VUndefined (props_get k ps))
                         (remove_dups (ps.*1))) (fun ms =>
                Ok (Some (JObj ms)))
            | Some _ => Ok (Some (JObj []))
            | None => Err (TypeError "dangling reference")
            end
      end
  end.

(** The nesting of an acyclic structure is bounded by the number of objects
    in the heap. *)
Definition JSON_stringify (h : heap) (v : value) : res (option json) :=
  serialize (S (length h)) h [] v.

(** The object built from the members of a JSON object, in text order. *)
Definition obj_of_members (kvs : list (string * value)) : list (string * value) :=
  foldl (fun ps kv => props_set kv.1 kv.2 ps) [] kvs.

Fixpoint parse_items (f : json -> heap -> heap * value) (js : list json) (h : heap)
    : heap * list value :=
  match js with
  | [] => (h, [])
  | j :: js =>
      let '(h1, v) := f j h in
      let '(h2, vs) := parse_items f js h1 in
      (h2, v :: vs)
  end.

Fixpoint parse_members (f : json -> heap -> heap * value) (ms : list (string * json)) (h : heap)
    : heap * list (string * value) :=
  match ms with
  | [] => (h, [])
  | (k, j) :: ms =>
      let '(h1, v) := f j h in
      let '(h2, kvs) := parse_members f ms h1 in
      (h2, (k, v) :: kvs)
  end.

(** [JSON.parse] of a document: every array and object is a new object of the
    heap, allocated once its parts are. *)
Fixpoint JSON_parse (j : json) (h : heap) : heap * value :=
  match j with
  | JNull => (h, VNull)
  | JBool b => (h, VBool b)
  | JNum z => (h, VNum (NInt z))
  | JStr s => (h, VStr s)
  | JArr js =>
      let '(h', vs) := parse_items JSON_parse js h in
      (h' ++ [OArr vs], VRef (length h'))
  | JObj ms =>
      let '(h', kvs) := parse_members JSON_parse ms h in
      (h' ++ [OObj (obj_of_members kvs)], VRef (length h'))
  end.

(** [JSON.parse(JSON.stringify(v))]: [JSON.parse(undefined)] throws a
    [SyntaxError]. *)
Definition JSON_parse_text (text : option json) : M heap value :=
  fun h => match text with
           | Some j => let '(h', v) := JSON_parse j h in Ret v h'
           | None => Throw (SyntaxError "undefined is not valid JSON") h
           end.

End JS.

(** ** The platform: URLs, paths, the file system, the world *)

Module Platform.
Import JS.

(** *** [new URL(s)]

    The parts of a parsed URL that the program reads.  The parser itself is
    the platform's, and is a member of the environment below. *)

Record url := {
  u_protocol : string;
  u_hostname : string;
  u_pathname : string;
  u_search : string
}.

(** *** Classes of ASCII characters *)

Definition is_alpha (c : ascii) : bool :=
  let n := nat_of_ascii c in
  ((65 <=? n) && (n <=? 90)) || ((97 <=? n) && (n <=? 122)).

Definition is_digit (c : ascii) : bool :=
  let n := nat_of_ascii c in (48 <=? n) && (n <=? 57).

Fixpoint all_chars (p : ascii -> bool) (s : string) : bool :=
  match s with
  | EmptyString => true
  | String c s' => p c && all_chars p s'
  end.

(** *** [path] (POSIX; no normalisation of [.] and [..]) *)

Definition path_sep : string := "/".

Definition path_join (dir name : string) : string := dir +:+ "/" +:+ name.

Definition path_basename (p : string) : string :=
  List.last (Str.split "/" p) EmptyString.

Definition path_dirname (p : string) : string :=
  Str.join "/" (removelast (Str.split "/" p)).

(** [path.extname]: from the last dot of the base name, unless there is none
    or it is the first character. *)
Definition path_extname (p : string) : string :=
  let parts := Str.split "." (path_basename p) in
  match parts with
  | [] | [_] => ""
  | _ :: _ =>
      if String.eqb (Str.join "." (removelast parts)) "" then ""
      else "." +:+ List.last parts EmptyString
  end.

(** *** The file system

    A file is known by its full path; [fs_readonly] lists the paths that
    cannot be created, written or removed (such operations fail on them).
    The directories considered hold files only. *)

Record file := {
  f_content : string;
  f_birthtime : Z
}.

Record fs := {
  fs_dirs : list string;
  fs_files : list (string * file);
  fs_readonly : list string
}.

Definition fs_error (code path : string) : value :=
  VError (code +:+ ": " +:+ path) "".

Definition is_readonly (f : fs) (p : string) : bool := bool_decide (p ∈ fs_readonly f).

Definition existsSync (f : fs) (p : string) : bool :=
  bool_decide (p ∈ fs_dirs f) || bool_decide (p ∈ (fs_files f).*1).

Definition mkdirSync (p : string) : M fs unit :=
  fun f =>
    if is_readonly f p then Throw (fs_error "EACCES" p) f
    else if bool_decide (p ∈ fs_dirs f) then Ret tt f
    else Ret tt {| fs_dirs := fs_dirs f ++ [p]; fs_files := fs_files f;
                   fs_readonly := fs_readonly f |}.

Definition appendFileSync (now : Z) (p data : string) : M fs unit :=
  fun f =>
    if is_readonly f p then Throw (fs_error "EACCES" p) f
    else if negb (bool_decide (path_dirname p ∈ fs_dirs f)) then Throw (fs_error "ENOENT" p) f
    else
      let old := from_option id {| f_content := ""; f_birthtime := now |} (props_get p (fs_files f)) in
      Ret tt {| fs_dirs := fs_dirs f;
                fs_files := props_set p {| f_content := f_content old +:+ data;
                                           f_birthtime := f_birthtime old |} (fs_files f);
                fs_readonly := fs_readonly f |}.

Definition readdirSync (dir : string) : M fs (list string) :=
  fun f =>
    if bool_decide (dir ∈ fs_dirs f)
    then Ret (path_basename <$>
                filter (fun p => path_dirname p = dir) ((fs_files f).*1)) f
    else Throw (fs_error "ENOENT" dir) f.

Definition statSync (p : string) : M fs file :=
  fun f =>
    match props_get p (fs_files f) with
    | Some x => Ret x f
    | None => Throw (fs_error "ENOENT" p) f
    end.

Definition readFileSync (p : string) : M fs string :=
  fun f =>
    match props_get p (fs_files f) with
    | Some x => Ret (f_content x) f
    | None => Throw (fs_error "ENOENT" p) f
    end.

Definition unlinkSync (p : string) : M fs unit :=
  fun f =>
    if is_readonly f p then Throw (fs_error "EACCES" p) f
    else if bool_decide (p ∈ (fs_files f).*1)
    then Ret tt {| fs_dirs := fs_dirs f;
                   fs_files := filter (fun x => x.1 <> p) (fs_files f);
                   fs_readonly := fs_readonly f |}
    else Throw (fs_error "ENOENT" p) f.

(** *** The world a call runs in *)

Record world := {
  w_heap : heap;
  w_fs : fs;
  w_stdout : list string;              (* what was printed, oldest first *)
  w_stderr : list (string * value);    (* [console.error(msg, e)], oldest first *)
  w_now : Z;                           (* the clock, in milliseconds *)
  w_uuids : nat                        (* the number of UUIDs drawn so far *)
}.

Definition with_heap (w : world) (h : heap) : world :=
  {| w_heap := h; w_fs := w_fs w; w_stdout := w_stdout w; w_stderr := w_stderr w;
     w_now := w_now w; w_uuids := w_uuids w |}.

Definition with_fs (w : world) (f : fs) : world :=
  {| w_heap := w_heap w; w_fs := f; w_stdout := w_stdout w; w_stderr := w_stderr w;
     w_now := w_now w; w_uuids := w_uuids w |}.

Definition on_heap {A} (m : M heap A) : M world A :=
  fun w => match m (w_heap w) with
           | Ret a h => Ret a (with_heap w h)
           | Throw e h => Throw e (with_heap w h)
           | OutOfFuel => OutOfFuel
           end.

Definition on_fs {A} (m : M fs A) : M world A :=
  fun w => match m (w_fs w) with
           | Ret a f => Ret a (with_fs w f)
           | Throw e f => Throw e (with_fs w f)
           | OutOfFuel => OutOfFuel
           end.

(** [console.error(msg, e)] *)
Definition console_error (msg : string) (e : value) : M world unit :=
  fun w => Ret tt {| w_heap := w_heap w; w_fs := w_fs w; w_stdout := w_stdout w;
                     w_stderr := w_stderr w ++ [(msg, e)];
                     w_now := w_now w; w_uuids := w_uuids w |}.

(** [console.log(msg)], and the prompt of [readline] *)
Definition print (msg : string) : M world unit :=
  fun w => Ret tt {| w_heap := w_heap w; w_fs := w_fs w; w_stdout := w_stdout w ++ [msg];
                     w_stderr := w_stderr w;
                     w_now := w_now w; w_uuids := w_uuids w |}.

(** [Date.now()] *)
Definition Date_now : M world Z := fun w => Ret (w_now w) w.

(** What the program takes from its environment. *)
Record env := {
  cache_dir : string;                     (* [envPaths('claude-cli').cache] *)
  cwd : string;                           (* [process.cwd()] *)
  toISOString : Z -> string;              (* [new Date(t).toISOString()] *)
  local_date : Z -> Z * Z * Z;            (* [getFullYear()], [getMonth()], [getDate()] *)
  uuid_of : nat -> string;                (* the UUIDs [randomUUID()] draws *)
  json_text : json -> string;             (* the characters of a JSON text *)
  json_of_text : string -> option json;   (* [JSON.parse], [None]: [SyntaxError] *)
  json_pretty : json -> string;           (* [JSON.stringify(x, null, 2)] *)
  URL_parse : string -> option url;       (* [new URL(s)], [None]: [TypeError] *)
  date_toLocaleString : Z -> string;      (* [date.toLocaleString()] *)
  timestamp_toLocaleString : option json -> string;  (* [new Date(x).toLocaleString()] *)
  string_to_number : string -> number;    (* [Number(s)] *)
  kb_toFixed2 : nat -> string;            (* [(size / 1024).toFixed(2)] *)
  chalk_yellow : string -> string;
  chalk_green : string -> string;
  chalk_red : string -> string;
  chalk_blue : string -> string;
  chalk_magenta : string -> string;
  chalk_white : string -> string;
  chalk_cyan : string -> string;
  chalk_gray : string -> string;
  chalk_bold : string -> string;
  chalk_bold_blue : string -> string
}.

End Platform.

(** ** [src/utils/apiLogger.ts] *)

Module ApiLogger.
Import JS Platform.
#[local] Open Scope js_scope.

(** [for (const x of xs) body(x)] *)
Fixpoint for_each {S A} (xs : list A) (body : A -> M S unit) : M S unit :=
  match xs with
  | [] => ret tt
  | x :: xs => body x ;;; for_each xs body
  end.

Definition REDACTED : string := "***REDACTED***".

(** The test on [key] in [sanitizeObject].  The index of an array element is
    a decimal string and equals none of the names. *)
Definition is_sensitive (key : pkey) : bool :=
  match key with
  | KStr key =>
      String.eqb key "api_key" ||
      String.eqb key "apiKey" ||
      String.eqb key "authorization" ||
      String.eqb key "Authorization" ||
      String.eqb key "token" ||
      String.eqb key "password" ||
      String.eqb key "key"
  | KIdx _ => false
  end.

(** The inner function [sanitizeObject] of [sanitizeData]: it works in place
    on [obj].  [fuel] bounds the depth of the recursion, which the source
    leaves to the shape of [obj]. *)
Fixpoint sanitizeObject (fuel : nat) (obj : value) : M heap unit :=
  match fuel with
  | 0 => fun _ => OutOfFuel
  | S fuel' =>
      if negb (truthy obj) || negb (is_object obj) then ret tt
      else
        match obj with
        | VRef l =>
            h0 <- get_state ;;
            for_each (from_option keys_of [] (h0 !! l)) (fun key =>
              if is_sensitive key then
                fun h => Ret tt (heap_set h l key (VStr REDACTED))
              else
                h <- get_state ;;
                let v := heap_get h l key in
                if is_object v && negb (bool_decide (v = VNull))
                then sanitizeObject fuel' v
                else ret tt)
        | _ => ret tt   (* an Error instance: no enumerable key *)
        end
  end.

Definition could_not_sanitize : obj :=
  OObj [("sanitized", VStr "[Object could not be safely sanitized]")].

Definition sanitizeData (data : value) : M heap value :=
  if negb (truthy data) then ret data
  else
    try_catch
      (text <- (fun h => lift_res (JSON_stringify h data) h) ;;
       sanitized <- JSON_parse_text text ;;
       (fun h => sanitizeObject (S (length h)) sanitized h) ;;;
       ret sanitized)
      (fun e =>
         if is_object data then alloc could_not_sanitize else ret data).

Section WithEnv.
Context (E : env).

(** [cwd.replace(/[^a-zA-Z0-9]/g, '-')]: the expression meets the UTF-16
    code units of the string one by one.  A letter or a digit is kept, and
    any other ASCII character gives a dash; a character of two or three
    bytes is one code unit, and gives one dash at its first byte; a
    character of four bytes is two code units, and gives two. *)
Definition dashed (c : ascii) : string :=
  let n := nat_of_ascii c in
  if is_alpha c || is_digit c then String c EmptyString
  else if n <? 128 then "-"
  else if n <? 192 then ""
  else if n <? 240 then "-"
  else "--".

Fixpoint getProjectDir (cwd : string) : string :=
  match cwd with
  | EmptyString => EmptyString
  | String c rest => dashed c +:+ getProjectDir rest
  end.

Definition API_LOGS_PATH : string :=
  path_join (path_join (cache_dir E) (getProjectDir (cwd E))) "api-logs".

Definition ensureApiLogsDirectoryExists : M world unit :=
  f <- on_fs get_state ;;
  if negb (existsSync f API_LOGS_PATH) then on_fs (mkdirSync API_LOGS_PATH)
  else ret tt.

Definition getCurrentDate : M world string :=
  now <- Date_now ;;
  let '(year, month, day) := local_date E now in
  ret (Str.of_Z year +:+ "-" +:+ Str.padStart0 2 (Str.of_Z (month + 1)) +:+ "-" +:+
       Str.padStart0 2 (Str.of_Z day)).

Definition getApiLogFilePath : M world string :=
  ensureApiLogsDirectoryExists ;;;
  date <- getCurrentDate ;;
  ret (path_join API_LOGS_PATH ("api-log-" +:+ date +:+ ".jsonl")).

(** [randomUUID()] *)
Definition randomUUID : M world string :=
  fun w => Ret (uuid_of E (w_uuids w))
               {| w_heap := w_heap w; w_fs := w_fs w; w_stdout := w_stdout w;
                  w_stderr := w_stderr w; w_now := w_now w; w_uuids := S (w_uuids w) |}.

(** The argument of [logApiCall]; a member left out is [undefined]. *)
Record api_call := {
  c_url : value;
  c_method : value;
  c_headers : value;
  c_body : value;
  c_response : value;
  c_responseBody : value;
  c_statusCode : value;
  c_error : value;
  c_durationMs : value;
  c_service : value
}.

(** [response.headers.entries()] and [response.status] need a response. *)
Definition response_of (v : value) : M heap response :=
  fun h =>
    match v with
    | VRef l =>
        match h !! l with
        | Some (OResponse r) => Ret r h
        | _ => Throw (TypeError "response.headers is undefined") h
        end
    | _ => Throw (TypeError "response.headers is undefined") h
    end.

(** [JSON.stringify(v)] as a string *)
Definition stringify_text (v : value) : M heap string :=
  text <- (fun h => lift_res (JSON_stringify h v) h) ;;
  ret (match text with
       | Some j => json_text E j
       | None => "undefined"
       end).

(** The object literal [logEntry] of [logApiCall], its members evaluated in
    order. *)
Definition make_logEntry (c : api_call) : M world value :=
  let service :=
    match c_service c with VUndefined => VStr "unknown" | v => v end in
  now <- Date_now ;;
  id <- randomUUID ;;
  headers <- on_heap (sanitizeData (c_headers c)) ;;
  body <- on_heap (sanitizeData (c_body c)) ;;
  responseHeaders <-
    (if truthy (c_response c)
     then on_heap (r <- response_of (c_response c) ;; headers_object (rs_headers r))
     else ret VUndefined) ;;
  responseBody <-
    (if truthy (c_responseBody c)
     then on_heap (sanitizeData (c_responseBody c))
     else ret VUndefined) ;;
  statusCode <-
    (if truthy (c_statusCode c) then ret (c_statusCode c)
     else if truthy (c_response c)
          then on_heap (member (c_response c) "status")
          else ret VUndefined) ;;
  error <-
    (if truthy (c_error c) then
       match c_error c with
       | VError message stack =>
           on_heap (alloc (OObj [("message", VStr message); ("stack", VStr stack)]))
       | e => ret e
       end
     else ret VUndefined) ;;
  on_heap (alloc (OObj [
    ("timestamp", VStr (toISOString E now));
    ("id", VStr id);
    ("service", service);
    ("url", c_url c);
    ("method", c_method c);
    ("headers", headers);
    ("body", body);
    ("responseHeaders", responseHeaders);
    ("responseBody", responseBody);
    ("statusCode", statusCode);
    ("error", error);
    ("durationMs", c_durationMs c)])).

(** Log an API request and response *)
Definition logApiCall (c : api_call) : M world unit :=
  try_catch
    (logEntry <- make_logEntry c ;;
     logPath <- getApiLogFilePath ;;
     line <- on_heap (stringify_text logEntry) ;;
     now <- Date_now ;;
     on_fs (appendFileSync now logPath (line +:+ String Str.nl "")))
    (fun e => console_error "Error writing API log:" e).

(** Helper to determine the service based on the URL *)
Definition service_of_hostname (hostname : string) : string :=
  if Str.includes hostname "anthropic.com" || Str.includes hostname "claude" then
    "anthropic"
  else if Str.includes hostname "openai.com" || Str.includes hostname "oai" then
    "openai"
  else if Str.includes hostname "anthropic-bedrock" then
    "anthropic-bedrock"
  else if Str.includes hostname "vertex-ai" then
    "anthropic-vertex"
  else if Str.includes hostname "amazonaws.com" then
    "aws"
  else if Str.includes hostname "google" then
    "google"
  else
    "unknown".

Definition getServiceFromUrl {S} (url : string) : M S string :=
  match URL_parse E url with
  | Some urlObj => ret (service_of_hostname (u_hostname urlObj))
  | None => throw (TypeError "Invalid URL")
  end.

(** The text of a body, parsed when it looks like JSON; [clone().text()] of
    an absent body is the empty string. *)
Definition read_body (b : body) : M world value :=
  text <- (match b with
           | NoBody => ret ""
           | Readable text => ret text
           | Unreadable => throw (TypeError "body stream is not readable")
           end) ;;
  if Str.nonempty text && (Str.startsWith text "{" || Str.startsWith text "[") then
    match json_of_text E text with
    | Some j => on_heap (JSON_parse_text (Some j))
    | None => throw (SyntaxError "Unexpected token in JSON")
    end
  else ret (VStr text).

(** The replacement of [globalThis.fetch]; [request] is the result of
    [new Request(input, init)].  The variable [response] of the source is
    [undefined] in the [catch] block when [originalFetch] threw, and the
    response when a later statement of the [try] block threw. *)
Definition loggedFetch (originalFetch : request -> M world value) (request : request)
    : M world value :=
  let url := rq_url request in
  let method := rq_method request in
  headers <- on_heap (headers_object (rq_headers request)) ;;
  body <-
    (match rq_body request with
     | NoBody => ret VUndefined
     | b => try_catch (read_body b) (fun e => ret (VStr "[Could not read request body]"))
     end) ;;
  startTime <- Date_now ;;
  let catch_block (response error : value) : M world value :=
    endTime <- Date_now ;;
    let durationMs := (endTime - startTime)%Z in
    service <- getServiceFromUrl url ;;
    logApiCall {| c_url := VStr url; c_method := VStr method; c_headers := headers;
                  c_body := body; c_response := response; c_responseBody := VUndefined;
                  c_statusCode := VUndefined; c_error := error;
                  c_durationMs := VNum (NInt durationMs); c_service := VStr service |} ;;;
    throw error in
  fetched <- try_catch (response <- originalFetch request ;; ret (inl response))
                       (fun error => ret (inr error)) ;;
  match fetched with
  | inr error => catch_block VUndefined error
  | inl response =>
      try_catch
        (endTime <- Date_now ;;
         let durationMs := (endTime - startTime)%Z in
         clonedResponse <- on_heap (response_of response) ;;
         responseBody <-
           try_catch (read_body (rs_body clonedResponse))
                     (fun e => ret (VStr "[Could not read response body]")) ;;
         service <- getServiceFromUrl url ;;
         logApiCall {| c_url := VStr url; c_method := VStr method; c_headers := headers;
                       c_body := body; c_response := response;
                       c_responseBody := responseBody;
                       c_statusCode := VUndefined; c_error := VUndefined;
                       c_durationMs := VNum (NInt durationMs);
                       c_service := VStr service |} ;;;
         ret response)
        (catch_block response)
  end.

(** Export a function to enable API logging *)
Definition enableApiLogging : M world unit :=
  logPath <- getApiLogFilePath ;;
  print ("API logging enabled. Logs will be written to: " +:+ logPath) ;;;
  ensureApiLogsDirectoryExists.

Record request_details := {
  d_url : value;
  d_method : value;
  d_headers : value;
  d_body : value
}.

(** Helper function to extract request details from function arguments *)
Fixpoint extractRequestDetails (args : list value) : M heap (option request_details) :=
  match args with
  | [] => ret None
  | arg :: args =>
      if truthy arg && is_object arg then
        h <- get_state ;;
        match arg, (match arg with VRef l => h !! l | _ => None end) with
        | _, Some (ORequest r) =>
            (* [arg instanceof Request] *)
            headers <- headers_object (rq_headers r) ;;
            body <- member arg "body" ;;
            ret (Some {| d_url := VStr (rq_url r); d_method := VStr (rq_method r);
                         d_headers := headers; d_body := body |})
        | _, _ =>
            url <- member arg "url" ;;
            method <- member arg "method" ;;
            if truthy url && truthy method then
              headers <- member arg "headers" ;;
              body <- member arg "body" ;;
              ret (Some {| d_url := url; d_method := method;
                           d_headers := headers; d_body := body |})
            else extractRequestDetails args
        end
      else extractRequestDetails args
  end.

Record response_details := {
  r_response : value;
  r_body : value;
  r_status : value
}.

Definition is_Response (h : heap) (v : value) : bool :=
  match v with
  | VRef l => match h !! l with Some (OResponse _) => true | _ => false end
  | _ => false
  end.

(** Helper function to extract response details *)
Definition extractResponseDetails (result : value) : M heap (option response_details) :=
  if negb (truthy result) then ret None
  else
    h <- get_state ;;
    if is_Response h result then
      status <- member result "status" ;;
      ret (Some {| r_response := result; r_body := VUndefined; r_status := status |})
    else
      response <- member result "response" ;;
      if truthy response && is_Response h response then
        status <- member response "status" ;;
        body <- member result "body" ;;
        ret (Some {| r_response := response; r_body := body; r_status := status |})
      else
        status <- member result "status" ;;
        if negb (bool_decide (status = VUndefined)) then
          data <- member result "data" ;;
          body <- (if truthy data then ret data else member result "body") ;;
          ret (Some {| r_response := VUndefined; r_body := body; r_status := status |})
        else ret None.

(** [try { result = await m; return result } catch (e) { error = e; throw e }
    finally { fin(result, error) }], the two variables being [undefined]
    until assigned.  An exception of the cleanup replaces the pending
    outcome. *)
Definition try_finally_vars {S} (m : M S value) (fin : value -> value -> M S unit)
    : M S value :=
  fun s =>
    match m s with
    | Ret result s' => try_finally (ret result) (fin result VUndefined) s'
    | Throw e s' => try_finally (throw e) (fin VUndefined e) s'
    | OutOfFuel => OutOfFuel
    end.

(** Higher-order function to wrap API functions with logging *)
Definition withApiLogging (fn : list value -> M world value) (serviceName : string)
    (args : list value) : M world value :=
  startTime <- Date_now ;;
  try_finally_vars (fn args)
    (fun result error =>
       endTime <- Date_now ;;
       let durationMs := (endTime - startTime)%Z in
       requestDetails <- on_heap (extractRequestDetails args) ;;
       responseDetails <-
         (if truthy result then on_heap (extractResponseDetails result) else ret None) ;;
       let of_request (f : request_details -> value) :=
         from_option f VUndefined requestDetails in
       let of_response (f : response_details -> value) :=
         from_option f VUndefined responseDetails in
       logApiCall {| c_url := js_or (of_request d_url) (VStr "unknown");
                     c_method := js_or (of_request d_method) (VStr "unknown");
                     c_headers := of_request d_headers;
                     c_body := of_request d_body;
                     c_response := of_response r_response;
                     c_responseBody := of_response r_body;
                     c_statusCode := of_response r_status;
                     c_error := error;
                     c_durationMs := VNum (NInt durationMs);
                     c_service := VStr serviceName |}).

End WithEnv.

(** [xs.sort(compareFn)]: [a] comes before [b] when [compareFn(a, b)] is
    negative, and elements that compare equal keep their order (the sort is
    stable).  For a comparator that is a consistent ordering, as
    [localeCompare] is, this is the result of every conforming
    implementation. *)
Fixpoint insert_sorted {A} (compareFn : A -> A -> Z) (x : A) (l : list A) : list A :=
  match l with
  | [] => [x]
  | y :: l' =>
      if (compareFn x y <=? 0)%Z then x :: l else y :: insert_sorted compareFn x l'
  end.

Definition sort_with {A} (compareFn : A -> A -> Z) (l : list A) : list A :=
  foldr (insert_sorted compareFn) [] l.

Section GetApiLogs.
Context (E : env).
(** [a.localeCompare(b)], the collation of the platform *)
Context (localeCompare : string -> string -> Z).

Definition is_api_log (file : string) : bool :=
  Str.startsWith file "api-log-" && Str.endsWith file ".jsonl".

(** The date part of the name of a log file *)
Definition date_of (file : string) : string :=
  Str.replace (Str.replace file "api-log-" "") ".jsonl" "".

(** Sort by date (newest first) *)
Definition by_date (a b : string) : Z :=
  let dateA := date_of a in
  let dateB := date_of b in
  localeCompare dateB dateA.

(** Function to get all API logs *)
Definition getApiLogs : M world (list string) :=
  try_catch
    (ensureApiLogsDirectoryExists E ;;;
     files <- on_fs (readdirSync (API_LOGS_PATH E)) ;;
     ret (path_join (API_LOGS_PATH E) <$> sort_with by_date (List.filter is_api_log files)))
    (fun error =>
       console_error "Error getting API logs:" error ;;;
       ret []).

End GetApiLogs.

End ApiLogger.


(** ** [src/commands/apilogs.ts] *)

Module ApiLogs.
Import JS Platform ApiLogger.
#[local] Open Scope js_scope.

(** *** Values read from a parsed line

    A parsed line is a JSON document; the command only reads it.  A value
    read from it is a document, or [undefined] ([None]). *)

Definition jtruthy (v : option json) : bool :=
  match v with
  | None | Some JNull => false
  | Some (JBool b) => b
  | Some (JNum z) => negb (z =? 0)%Z
  | Some (JStr s) => Str.nonempty s
  | Some (JArr _) | Some (JObj _) => true
  end.

(** [String(j)] *)
Fixpoint js_string (j : json) : string :=
  match j with
  | JNull => "null"
  | JBool true => "true"
  | JBool false => "false"
  | JNum z => Str.of_Z z
  | JStr s => s
  | JArr js =>
      Str.join "," (map (fun j => match j with JNull => "" | _ => js_string j end) js)
  | JObj _ => "[object Object]"
  end.

Definition to_string (v : option json) : string :=
  match v with
  | None => "undefined"
  | Some j => js_string j
  end.

(** [v.name], for the names the formatter reads (none is an index or
    [length]) *)
Definition jmember (v : option json) (name : string) : res (option json) :=
  match v with
  | None | Some JNull =>
      Err (TypeError ("Cannot read properties of undefined or null, reading " +:+ name))
  | Some (JObj ms) => Ok (props_get name ms)
  | Some _ => Ok None
  end.

(** [Object.keys(j).length] *)
Definition keys_count (j : json) : nat :=
  match j with
  | JObj ms => length ms
  | JArr js => length js
  | JStr s => String.length s
  | _ => 0
  end.

(** [a >= b] and [a < b] on numbers: false when one is [NaN] *)
Definition num_ge (a : number) (b : Z) : bool :=
  match a with NInt z => (b <=? z)%Z | NaN => false end.
Definition num_lt (a : number) (b : Z) : bool :=
  match a with NInt z => (z <? b)%Z | NaN => false end.
Definition num_gt (a : number) (b : Z) : bool :=
  match a with NInt z => (b <? z)%Z | NaN => false end.

(** [parseInt(s)]: leading white space, a sign, then hexadecimal digits
    after [0x] or decimal digits; [NaN] when there is no digit. *)
Definition digit_value (c : ascii) : option Z :=
  let n := nat_of_ascii c in
  if (48 <=? n) && (n <=? 57) then Some (Z.of_nat (n - 48))
  else if (97 <=? n) && (n <=? 102) then Some (Z.of_nat (n - 87))
  else if (65 <=? n) && (n <=? 70) then Some (Z.of_nat (n - 55))
  else None.

Fixpoint digits (radix : Z) (acc : option Z) (s : string) : option Z :=
  match s with
  | EmptyString => acc
  | String c s' =>
      match digit_value c with
      | Some d =>
          if (d <? radix)%Z then digits radix (Some (from_option id 0 acc * radix + d))%Z s'
          else acc
      | None => acc
      end
  end.

Definition parseInt (s : string) : number :=
  let s := Str.trimStart s in
  let '(negative, s) :=
    match s with
    | String "-" r => (true, r)
    | String "+" r => (false, r)
    | _ => (false, s)
    end in
  let magnitude :=
    if Str.startsWith s "0x" || Str.startsWith s "0X"
    then digits 16 None (substring 2 (String.length s - 2) s)
    else digits 10 None s in
  match magnitude with
  | Some z => NInt (if negative then - z else z)
  | None => NaN
  end.

Section WithEnv.
Context (E : env).

Definition to_number (v : option json) : number :=
  match v with
  | None => NaN
  | Some JNull => NInt 0
  | Some (JBool b) => NInt (if b then 1 else 0)
  | Some (JNum z) => NInt z
  | Some j => string_to_number E (js_string j)
  end.

Definition getMethodColor (method : string) : string -> string :=
  let m := Str.toUpperCase method in
  if String.eqb m "GET" then chalk_green E
  else if String.eqb m "POST" then chalk_blue E
  else if String.eqb m "PUT" then chalk_yellow E
  else if String.eqb m "DELETE" then chalk_red E
  else if String.eqb m "PATCH" then chalk_magenta E
  else chalk_white E.

Definition getUrlPath (url : string) : string :=
  match URL_parse E url with
  | Some urlObj => u_pathname urlObj +:+ u_search urlObj
  | None => url
  end.

(** [typeof body === 'string' ? body : JSON.stringify(body, null, 2)], then
    [.replace(/\n/g, '\n  ')] *)
Definition indented_body (body : json) : string :=
  Str.replaceAll Str.nl (String Str.nl "  ")
    (match body with
     | JStr s => s
     | _ => json_pretty E body
     end).

Definition newline : string := String Str.nl "".

Definition formatAndDisplayLogEntry (entry : json) : res string :=
  rbind (jmember (Some entry) "raw") (fun raw =>
  if jtruthy raw then Ok (to_string raw)
  else
    let result := "" in
    (* Timestamp *)
    rbind (jmember (Some entry) "timestamp") (fun timestamp =>
    let result :=
      if jtruthy timestamp
      then result +:+ chalk_gray E ("[" +:+ timestamp_toLocaleString E timestamp +:+ "] ")
      else result in
    (* Service name *)
    rbind (jmember (Some entry) "service") (fun service =>
    let result :=
      if jtruthy service
      then result +:+ chalk_bold_blue E (to_string service +:+ " ")
      else result in
    (* Request details *)
    rbind (jmember (Some entry) "request") (fun request =>
    rbind
      (if jtruthy request then
         rbind (jmember request "method") (fun m =>
         rbind (jmember request "url") (fun u =>
         let method := if jtruthy m then m else Some (JStr "UNKNOWN") in
         let url := if jtruthy u then u else Some (JStr "") in
         rbind (match method with
                | Some (JStr method) => Ok (getMethodColor method method)
                | _ => Err (TypeError "method.toUpperCase is not a function")
                end) (fun colored =>
         let result :=
           result +:+ chalk_bold E (colored +:+ " " +:+ getUrlPath (to_string url) +:+ newline) in
         (* Headers (optional) *)
         rbind (jmember request "headers") (fun headers =>
         let result :=
           match headers with
           | Some hs =>
               if jtruthy headers && (0 <? keys_count hs)
               then result +:+ chalk_gray E "  Headers: " +:+
                    chalk_gray E (Str.replaceAll Str.nl (String Str.nl "  ") (json_pretty E hs))
                    +:+ newline
               else result
           | None => result
           end in
         (* Body (optional) *)
         rbind (jmember request "body") (fun body =>
         Ok (match body with
             | Some b =>
                 if jtruthy body
                 then result +:+ chalk_gray E "  Body: " +:+
                      chalk_gray E (indented_body b) +:+ newline
                 else result
             | None => result
             end))))))
       else Ok result) (fun result =>
    (* Response details *)
    rbind (jmember (Some entry) "response") (fun response =>
    rbind
      (if jtruthy response then
         rbind (jmember response "status") (fun s =>
         let status := if jtruthy s then s else Some (JNum 0) in
         let statusColor :=
           if num_ge (to_number status) 400 && num_lt (to_number status) 500
           then chalk_yellow E
           else if num_ge (to_number status) 500 then chalk_red E
           else chalk_green E in
         let result := result +:+ statusColor ("  Response: " +:+ to_string status) in
         (* Response time *)
         rbind (jmember (Some entry) "responseTime") (fun responseTime =>
         let result :=
           if jtruthy responseTime
           then result +:+ chalk_gray E (" (" +:+ to_string responseTime +:+ "ms)")
           else result in
         let result := result +:+ newline in
         (* Response body (optional) *)
         rbind (jmember response "body") (fun body =>
         Ok (match body with
             | Some b =>
                 if jtruthy body
                 then result +:+ chalk_gray E "  Body: " +:+ chalk_gray E (indented_body b)
                 else result
             | None => result
             end))))
       else Ok result) (fun result =>
    (* Error details *)
    rbind (jmember (Some entry) "error") (fun error =>
    if jtruthy error then
      rbind (jmember error "message") (fun message =>
      let shown := if jtruthy message then message else error in
      let result := result +:+ chalk_red E ("  Error: " +:+ to_string shown +:+ newline) in
      rbind (jmember error "stack") (fun stack =>
      Ok (if jtruthy stack
          then result +:+ chalk_gray E ("  Stack: " +:+ to_string stack)
          else result)))
    else Ok result)))))))).

Definition is_log_file (file : string) : bool :=
  Str.endsWith file ".log" || Str.endsWith file ".jsonl".

(** [error.message] of a caught error; the errors caught by the command are
    instances of [Error]. *)
Definition error_message (error : value) : string :=
  match error with
  | VError message _ => message
  | _ => "undefined"
  end.

(** The loop of [clearLogs] over the directory listing *)
Fixpoint delete_log_files (logsDir : string) (files : list string) (deletedCount : nat)
    : M world nat :=
  match files with
  | [] => ret deletedCount
  | file :: files =>
      if is_log_file file then
        on_fs (unlinkSync (path_join logsDir file)) ;;;
        delete_log_files logsDir files (S deletedCount)
      else delete_log_files logsDir files deletedCount
  end.

(** [answer] is the line typed at the confirmation prompt. *)
Definition clearLogs (answer : string) : M world string :=
  let logsDir := API_LOGS_PATH E in
  print (chalk_yellow E "Are you sure you want to clear all API logs? (y/N): ") ;;;
  if String.eqb (Str.toLowerCase answer) "y" then
    try_catch
      (files <- on_fs (readdirSync logsDir) ;;
       deletedCount <- delete_log_files logsDir files 0 ;;
       ret (chalk_green E ("Successfully deleted " +:+ Str.of_Z (Z.of_nat deletedCount)
                           +:+ " log files")))
      (fun error => ret (chalk_red E ("Error clearing logs: " +:+ error_message error)))
  else
    ret (chalk_yellow E "Operation cancelled").

Record log_file := {
  lf_name : string;
  lf_size : nat;
  lf_created : Z;
  lf_path : string
}.

(** [.sort((a, b) => b.created.getTime() - a.created.getTime())]: newest
    first, files of the same age in their order of listing *)
Fixpoint insert_newest (x : log_file) (l : list log_file) : list log_file :=
  match l with
  | [] => [x]
  | y :: l' => if (lf_created y <=? lf_created x)%Z then x :: l else y :: insert_newest x l'
  end.

Definition sort_newest (l : list log_file) : list log_file :=
  foldr insert_newest [] l.

Fixpoint stat_all (logsDir : string) (files : list string) : M world (list log_file) :=
  match files with
  | [] => ret []
  | file :: files =>
      let filePath := path_join logsDir file in
      stats <- on_fs (statSync filePath) ;;
      rest <- stat_all logsDir files ;;
      ret ({| lf_name := file; lf_size := String.length (f_content stats);
              lf_created := f_birthtime stats; lf_path := filePath |} :: rest)
  end.

(** The listing shared by [listLogFiles] and [tailLogs] *)
Definition sorted_log_files (logsDir : string) : M world (list log_file) :=
  names <- on_fs (readdirSync logsDir) ;;
  files <- stat_all logsDir (List.filter is_log_file names) ;;
  ret (sort_newest files).

Fixpoint list_entries (index : nat) (files : list log_file) (result : string) : string :=
  match files with
  | [] => result
  | file :: files =>
      let sizeInKB := kb_toFixed2 E (lf_size file) in
      let date := date_toLocaleString E (lf_created file) in
      list_entries (S index) files
        (result
         +:+ chalk_cyan E (Str.of_Z (Z.of_nat (index + 1)) +:+ ". " +:+ lf_name file +:+ newline)
         +:+ "   Size: " +:+ sizeInKB +:+ " KB" +:+ newline
         +:+ "   Created: " +:+ date +:+ newline
         +:+ "   Path: " +:+ lf_path file +:+ newline +:+ newline)
  end.

Definition listLogFiles : M world string :=
  try_catch
    (files <- sorted_log_files (API_LOGS_PATH E) ;;
     match files with
     | [] => ret (chalk_yellow E "No log files found")
     | _ => ret (list_entries 0 files (chalk_bold E ("API Log Files:" +:+ newline +:+ newline)))
     end)
    (fun error => ret (chalk_red E ("Error listing log files: " +:+ error_message error))).

(** One line of a log file: the parsed document, or the fallback record
    [{ raw: line }] *)
Definition parse_line (line : string) : json :=
  match json_of_text E line with
  | Some j => j
  | None => JObj [("raw", JStr line)]
  end.

(** [fileContent.split('\n').filter(Boolean).map(...)] *)
Definition read_entries (fileContent : string) : list json :=
  map parse_line (List.filter Str.nonempty (Str.split Str.nl fileContent)).

(** [numLines > 0 ? logEntries.slice(-numLines) : logEntries] *)
Definition entries_to_show (numLines : number) (logEntries : list json) : list json :=
  if num_gt numLines 0 then
    match numLines with
    | NInt n => drop (length logEntries - Z.to_nat n) logEntries
    | NaN => logEntries
    end
  else logEntries.

(** [entriesToShow.forEach(entry => { result += ... })] *)
Fixpoint show_entries (entries : list json) (result : string) : res string :=
  match entries with
  | [] => Ok result
  | entry :: entries =>
      rbind (formatAndDisplayLogEntry entry) (fun shown =>
      show_entries entries (result +:+ shown +:+ newline +:+ newline))
  end.

Definition resolve_log_path (fileNameOrPath : string) : string :=
  if negb (Str.includes fileNameOrPath path_sep) then
    let filePath := path_join (API_LOGS_PATH E) fileNameOrPath in
    if negb (Str.nonempty (path_extname filePath)) then filePath +:+ ".jsonl" else filePath
  else fileNameOrPath.

Definition viewLogFile (fileNameOrPath : string) (numLines : number) : M world string :=
  let filePath := resolve_log_path fileNameOrPath in
  try_catch
    (f <- on_fs get_state ;;
     if negb (existsSync f filePath) then
       ret (chalk_red E ("Log file not found: " +:+ filePath))
     else
       fileContent <- on_fs (readFileSync filePath) ;;
       let logEntries := read_entries fileContent in
       match logEntries with
       | [] => ret (chalk_yellow E "Log file is empty")
       | _ =>
           let result :=
             chalk_bold E ("Log File: " +:+ path_basename filePath +:+ newline +:+ newline) in
           lift_res (show_entries (entries_to_show numLines logEntries) result)
       end)
    (fun error => ret (chalk_red E ("Error viewing log file: " +:+ error_message error))).

Definition tailLogs (numLines : number) : M world string :=
  try_catch
    (files <- sorted_log_files (API_LOGS_PATH E) ;;
     match files with
     | [] => ret (chalk_yellow E "No log files found")
     | latestLog :: _ => viewLogFile (lf_path latestLog) numLines
     end)
    (fun error => ret (chalk_red E ("Error tailing logs: " +:+ error_message error))).

Definition usage : string :=
"
API Logs Command

Usage:
  /apilogs list                 - List all available log files
  /apilogs tail [n]             - Show last n lines of most recent log (default: 20)
  /apilogs clear                - Clear all API logs (with confirmation)
  /apilogs dir                  - Show logs directory path
  /apilogs view <file> [n]      - View specific log file or last n lines
".

(** [args.trim().split(' ').filter(Boolean)] *)
Definition command_words (args : string) : list string :=
  List.filter Str.nonempty (Str.split " " (Str.trim args)).

(** [apilogsCommand.call(args)]; [answer] is the line the user types if the
    command prompts. *)
Definition call (args : string) (answer : string) : M world string :=
  match command_words args with
  | subcommand :: params =>
      if String.eqb subcommand "list" then listLogFiles
      else if String.eqb subcommand "tail" then
        let numLines :=
          match params with
          | p0 :: _ => parseInt p0
          | [] => NInt 20
          end in
        tailLogs numLines
      else if String.eqb subcommand "clear" then clearLogs answer
      else if String.eqb subcommand "dir" then ret (API_LOGS_PATH E)
      else if String.eqb subcommand "view" then
        match params with
        | [] => ret "Error: Please specify a log file to view"
        | p0 :: rest =>
            let viewNumLines :=
              match rest with
              | p1 :: _ => parseInt p1
              | [] => NInt 0
              end in
            viewLogFile p0 viewNumLines
        end
      else ret usage
  | [] => ret usage
  end.

End WithEnv.

End ApiLogs.

(** * A concrete environment, for the examples *)

Import JS Platform ApiLogger ApiLogs.

Module Demo.

(** A compact rendering of documents (strings are not escaped) *)
Fixpoint render (j : json) : string :=
  match j with
  | JNull => "null"
  | JBool true => "true"
  | JBool false => "false"
  | JNum z => Str.of_Z z
  | JStr s => "'" +:+ s +:+ "'"
  | JArr js => "[" +:+ Str.join "," (map render js) +:+ "]"
  | JObj ms =>
      "{" +:+ Str.join "," (map (fun m => "'" +:+ m.1 +:+ "':" +:+ render m.2) ms) +:+ "}"
  end.

Definition tag (t s : string) : string :=
  "<" +:+ t +:+ ">" +:+ s +:+ "</" +:+ t +:+ ">".

(** A parser that knows two texts *)
Definition parse (s : string) : option json :=
  if String.eqb s "{}" then Some (JObj [])
  else if String.eqb s "[]" then Some (JArr [])
  else None.

(** A parser for the URLs of the examples, of the form
    [scheme://[userinfo@]host[:port][/path][?query][#fragment]]: the host is
    lower-cased, an empty path is [/]; it knows no other URL. *)

(** [s] cut before the first character satisfying [p] *)
Fixpoint break_at (p : ascii -> bool) (s : string) : string * string :=
  match s with
  | EmptyString => (EmptyString, EmptyString)
  | String c s' =>
      if p c then (EmptyString, s)
      else let '(a, b) := break_at p s' in (String c a, b)
  end.

Definition is_char (x : string) (c : ascii) : bool :=
  match x with
  | String a EmptyString => Ascii.eqb a c
  | _ => false
  end.

Definition is_scheme_char (c : ascii) : bool :=
  is_alpha c || is_digit c || is_char "+" c || is_char "-" c || is_char "." c.

Definition valid_scheme (s : string) : bool :=
  match s with
  | EmptyString => false
  | String c s' => is_alpha c && all_chars is_scheme_char s'
  end.

(** The part of the authority after the last [@] *)
Definition strip_userinfo (authority : string) : string :=
  List.last (Str.split "@" authority) EmptyString.

Definition parse_url (s : string) : option url :=
  let '(scheme, rest) := break_at (is_char ":") s in
  if valid_scheme scheme && Str.startsWith rest "://" then
    let after := substring 3 (String.length rest - 3) rest in
    let '(authority, tail) :=
      break_at (fun c => is_char "/" c || is_char "?" c || is_char "#" c) after in
    let host := Str.toLowerCase (fst (break_at (is_char ":") (strip_userinfo authority))) in
    if Str.nonempty host then
      let '(path, tail') := break_at (fun c => is_char "?" c || is_char "#" c) tail in
      let '(query, _) := break_at (is_char "#") tail' in
      Some {| u_protocol := Str.toLowerCase scheme +:+ ":";
              u_hostname := host;
              u_pathname := if Str.nonempty path then path else "/";
              u_search := if String.eqb query "?" then "" else query |}
    else None
  else None.

Definition E : env := {|
  cache_dir := "/cache";
  cwd := "/home/me/my-project";
  toISOString := fun t => "T" +:+ Str.of_Z t;
  local_date := fun t => (2025, 0, 5)%Z;
  uuid_of := fun n => "uuid-" +:+ Str.of_Z (Z.of_nat n);
  json_text := render;
  json_of_text := parse;
  json_pretty := render;
  URL_parse := parse_url;
  date_toLocaleString := fun t => "D" +:+ Str.of_Z t;
  timestamp_toLocaleString := fun v => "L(" +:+ to_string v +:+ ")";
  string_to_number := fun _ => NaN;
  kb_toFixed2 := fun n => Str.of_Z (Z.of_nat n);
  chalk_yellow := tag "yellow";
  chalk_green := tag "green";
  chalk_red := tag "red";
  chalk_blue := tag "blue";
  chalk_magenta := tag "magenta";
  chalk_white := tag "white";
  chalk_cyan := tag "cyan";
  chalk_gray := tag "gray";
  chalk_bold := tag "bold";
  chalk_bold_blue := tag "boldblue"
|}.

Definition logs : string := API_LOGS_PATH E.

(** A logs directory with a log of three lines, the second of which is not
    JSON, and two other files *)
Definition disk : fs := {|
  fs_dirs := [logs];
  fs_files :=
    [ (path_join logs "api-log-2025-01-05.jsonl",
       {| f_content := "{}
oops
[]
"; f_birthtime := 5 |});
      (path_join logs "notes.txt", {| f_content := "x"; f_birthtime := 7 |});
      (path_join logs "old.log", {| f_content := "{}"; f_birthtime := 3 |}) ];
  fs_readonly := []
|}.

Definition w : world := {|
  w_heap := []; w_fs := disk; w_stdout := []; w_stderr := []; w_now := 1000; w_uuids := 0
|}.

(** A world without the logs directory, in which today's log file cannot be
    written *)
Definition today : string := path_join logs "api-log-2025-01-05.jsonl".

Definition locked : world := {|
  w_heap := [];
  w_fs := {| fs_dirs := []; fs_files := []; fs_readonly := [today] |};
  w_stdout := []; w_stderr := []; w_now := 1000; w_uuids := 0
|}.

Definition request : JS.request := {|
  rq_url := "https://api.openai.com/v1/chat";
  rq_method := "POST";
  rq_headers := [("authorization", "Bearer k")];
  rq_body := Readable "{}"
|}.

Definition network_error : value := VError "fetch failed" "at fetch".

(** An underlying call that throws *)
Definition failing_fetch : JS.request -> M world value := fun _ => throw network_error.

(** A world without the logs directory, holding an object that refers to
    itself *)
Definition fresh : world := {|
  w_heap := [OObj [("self", VRef 0)]];
  w_fs := {| fs_dirs := []; fs_files := []; fs_readonly := [] |};
  w_stdout := []; w_stderr := []; w_now := 1000; w_uuids := 0
|}.

(** A call whose error is that object *)
Definition cyclic_call : api_call := {|
  c_url := VStr "https://api.openai.com/v1/chat"; c_method := VStr "POST";
  c_headers := VUndefined; c_body := VUndefined; c_response := VUndefined;
  c_responseBody := VUndefined; c_statusCode := VUndefined; c_error := VRef 0;
  c_durationMs := VNum (NInt 12); c_service := VStr "openai"
|}.

Definition call_record : api_call := {|
  c_url := VStr "https://api.openai.com/v1/chat"; c_method := VStr "POST";
  c_headers := VUndefined; c_body := VUndefined; c_response := VUndefined;
  c_responseBody := VUndefined; c_statusCode := VNum (NInt 200); c_error := VUndefined;
  c_durationMs := VNum (NInt 12); c_service := VStr "openai"
|}.

End Demo.


(** * The sanitizer

    ** Specification-level definitions *)


Definition sensitive_names : list string :=
  ["api_key"; "apiKey"; "authorization"; "Authorization"; "token"; "password"; "key"].

Fixpoint redact (j : json) : json :=
  match j with
  | JArr js => JArr (map redact js)
  | JObj ms =>
      JObj (map (fun m => (m.1, if bool_decide (m.1 ∈ sensitive_names)
                                then JStr REDACTED else redact m.2)) ms)
  | _ => j
  end.

Fixpoint tree_items (R : json -> nat -> nat -> value -> Prop)
    (ts : list json) (lo hi : nat) (vs : list value) : Prop :=
  match ts, vs with
  | [], [] => lo <= hi
  | t :: ts, v :: vs => exists mid, R t lo mid v /\ tree_items R ts mid hi vs
  | _, _ => False
  end.

Fixpoint tree_members (R : json -> nat -> nat -> value -> Prop)
    (ms : list (string * json)) (lo hi : nat) (ps : list (string * value)) : Prop :=
  match ms, ps with
  | [], [] => lo <= hi
  | m :: ms, p :: ps =>
      m.1 = p.1 /\ exists mid, R m.2 lo mid p.2 /\ tree_members R ms mid hi ps
  | _, _ => False
  end.

Fixpoint tree_at (h : heap) (t : json) (lo hi : nat) (v : value) : Prop :=
  match t with
  | JNull => v = VNull /\ lo <= hi
  | JBool b => v = VBool b /\ lo <= hi
  | JNum z => v = VNum (NInt z) /\ lo <= hi
  | JStr s => v = VStr s /\ lo <= hi
  | JArr ts =>
      exists l vs, v = VRef l /\ lo <= l /\ hi = S l /\
        h !! l = Some (OArr vs) /\ tree_items (tree_at h) ts lo l vs
  | JObj ms =>
      exists l ps, v = VRef l /\ lo <= l /\ hi = S l /\
        h !! l = Some (OObj ps) /\ NoDup (ms.*1) /\
        tree_members (tree_at h) ms lo l ps
  end.

Lemma json_ind' (P : json -> Prop) :
  P JNull -> (forall b, P (JBool b)) -> (forall z, P (JNum z)) -> (forall s, P (JStr s)) ->
  (forall js, Forall P js -> P (JArr js)) ->
  (forall ms, Forall (fun m => P m.2) ms -> P (JObj ms)) ->
  forall j, P j.
Proof.
  intros HN HB HZ HS HA HO.
  fix IH 1. intros [ | b | z | s | js | ms ].
  - exact HN.
  - apply HB.
  - apply HZ.
  - apply HS.
  - apply HA. induction js as [ | j js IHjs ]; constructor; [ apply IH | exact IHjs ].
  - apply HO. induction ms as [ | [k j] ms IHms ]; constructor; [ apply IH | exact IHms ].
Qed.

(** ** Layout lemmas *)

Lemma tree_items_le R ts :
  Forall (fun t => forall lo hi v, R t lo hi v -> lo <= hi) ts ->
  forall lo hi vs, tree_items R ts lo hi vs -> lo <= hi.
Proof.
  induction 1 as [ | t ts Ht _ IH ]; intros lo hi [ | v vs ]; simpl; try tauto.
  intros (mid & H1 & H2). apply Ht in H1. apply IH in H2. lia.
Qed.

Lemma tree_members_le R ms :
  Forall (fun m => forall lo hi v, R m.2 lo hi v -> lo <= hi) ms ->
  forall lo hi ps, tree_members R ms lo hi ps -> lo <= hi.
Proof.
  induction 1 as [ | m ms Hm _ IH ]; intros lo hi [ | p ps ]; simpl; try tauto.
  intros (_ & mid & H1 & H2). apply Hm in H1. apply IH in H2. lia.
Qed.

Lemma tree_at_le h t : forall lo hi v, tree_at h t lo hi v -> lo <= hi.
Proof.
  induction t as [ | b | z | s | js IH | ms IH ] using json_ind'; simpl; intros lo hi v.
  1-4: tauto.
  - intros (l & vs & _ & Hl & -> & _). lia.
  - intros (l & ps & _ & Hl & -> & _). lia.
Qed.

Lemma tree_items_le' h ts lo hi vs : tree_items (tree_at h) ts lo hi vs -> lo <= hi.
Proof.
  apply tree_items_le. apply Forall_forall. intros t _. apply tree_at_le.
Qed.

Lemma tree_members_le' h ms lo hi ps : tree_members (tree_at h) ms lo hi ps -> lo <= hi.
Proof.
  apply tree_members_le. apply Forall_forall. intros t _. apply tree_at_le.
Qed.

Definition agree (h h' : heap) (lo hi : nat) : Prop :=
  forall l, lo <= l < hi -> h' !! l = h !! l.

Lemma agree_sub h h' lo hi lo' hi' :
  agree h h' lo hi -> lo <= lo' -> hi' <= hi -> agree h h' lo' hi'.
Proof. intros H ? ? l ?. apply H. lia. Qed.

Lemma tree_items_transfer h h' ts :
  Forall (fun t => forall lo hi v,
            tree_at h t lo hi v -> agree h h' lo hi -> tree_at h' t lo hi v) ts ->
  forall lo hi vs,
    tree_items (tree_at h) ts lo hi vs -> agree h h' lo hi ->
    tree_items (tree_at h') ts lo hi vs.
Proof.
  induction 1 as [ | t ts Ht _ IH ]; intros lo hi [ | v vs ]; simpl; try tauto.
  intros (mid & H1 & H2) Hag.
  pose proof (tree_at_le _ _ _ _ _ H1). pose proof (tree_items_le' _ _ _ _ _ H2).
  exists mid. split.
  - apply Ht; [done | eapply agree_sub; [exact Hag | lia | lia]].
  - apply IH; [done | eapply agree_sub; [exact Hag | lia | lia]].
Qed.

Lemma tree_members_transfer h h' (ms : list (string * json)) :
  Forall (fun m => forall lo hi v,
            tree_at h m.2 lo hi v -> agree h h' lo hi -> tree_at h' m.2 lo hi v) ms ->
  forall lo hi ps,
    tree_members (tree_at h) ms lo hi ps -> agree h h' lo hi ->
    tree_members (tree_at h') ms lo hi ps.
Proof.
  induction ms as [ | m ms IH ]; intros Hall lo hi [ | p ps ]; simpl; try tauto.
  apply Forall_cons in Hall as [Ht Hall].
  intros (Hk & mid & H1 & H2) Hag.
  pose proof (tree_at_le _ _ _ _ _ H1). pose proof (tree_members_le' _ _ _ _ _ H2).
  split; [done | ]. exists mid. split.
  - apply Ht; [done | eapply agree_sub; [exact Hag | lia | lia]].
  - apply IH; [done | done | eapply agree_sub; [exact Hag | lia | lia]].
Qed.

Lemma tree_at_frame h h' t :
  forall lo hi v, tree_at h t lo hi v -> agree h h' lo hi -> tree_at h' t lo hi v.
Proof.
  induction t as [ | b | z | s | js IH | ms IH ] using json_ind'; simpl; intros lo hi v.
  1-4: tauto.
  - intros (l & vs & -> & Hl & -> & Hh & Hits) Hag.
    exists l, vs. repeat split; try done.
    + rewrite Hag; [done | lia].
    + eapply tree_items_transfer; [exact IH | done | ].
      eapply agree_sub; [exact Hag | lia | lia].
  - intros (l & ps & -> & Hl & -> & Hh & Hnd & Hms) Hag.
    exists l, ps. repeat split; try done.
    + rewrite Hag; [done | lia].
    + eapply tree_members_transfer; [exact IH | done | ].
      eapply agree_sub; [exact Hag | lia | lia].
Qed.

Lemma tree_items_frame h h' ts lo hi vs :
  tree_items (tree_at h) ts lo hi vs -> agree h h' lo hi -> tree_items (tree_at h') ts lo hi vs.
Proof.
  apply tree_items_transfer, Forall_forall. intros t _. apply tree_at_frame.
Qed.

Lemma tree_members_frame h h' ms lo hi ps :
  tree_members (tree_at h) ms lo hi ps -> agree h h' lo hi ->
  tree_members (tree_at h') ms lo hi ps.
Proof.
  apply tree_members_transfer, Forall_forall. intros m _. apply tree_at_frame.
Qed.

(** ** Properties of property lists *)

Lemma props_get_app {A} k (v : A) pre post :
  k ∉ pre.*1 -> props_get k (pre ++ (k, v) :: post) = Some v.
Proof.
  induction pre as [ | [k' v'] pre IH ]; simpl; intros Hk.
  - by rewrite String.eqb_refl.
  - apply not_elem_of_cons in Hk as [Hne Hk].
    destruct (String.eqb_spec k k'); [done | auto].
Qed.

Lemma props_set_app {A} k (x v : A) pre post :
  k ∉ pre.*1 -> props_set k x (pre ++ (k, v) :: post) = pre ++ (k, x) :: post.
Proof.
  induction pre as [ | [k' v'] pre IH ]; simpl; intros Hk.
  - by rewrite String.eqb_refl.
  - apply not_elem_of_cons in Hk as [Hne Hk].
    destruct (String.eqb_spec k k'); [done | by rewrite IH].
Qed.

Lemma props_set_fresh {A} k (x : A) ps :
  k ∉ ps.*1 -> props_set k x ps = ps ++ [(k, x)].
Proof.
  induction ps as [ | [k' v'] ps IH ]; simpl; intros Hk; [done | ].
  apply not_elem_of_cons in Hk as [Hne Hk].
  destruct (String.eqb_spec k k'); [done | by rewrite IH].
Qed.

Lemma obj_of_members_NoDup kvs : NoDup (kvs.*1) -> obj_of_members kvs = kvs.
Proof.
  unfold obj_of_members.
  enough (H : forall acc, NoDup ((acc ++ kvs).*1) ->
            foldl (fun ps kv => props_set kv.1 kv.2 ps) acc kvs = acc ++ kvs)
    by (intros; by apply (H [])).
  induction kvs as [ | [k v] kvs IH ]; intros acc Hnd; simpl.
  - by rewrite app_nil_r.
  - rewrite props_set_fresh.
    + rewrite IH; rewrite <- app_assoc; done.
    + rewrite fmap_app in Hnd. apply NoDup_app in Hnd as (_ & Hd & _).
      intros Hin. apply (Hd _ Hin). simpl. left.
Qed.

Lemma tree_members_keys R ms : forall lo hi ps, tree_members R ms lo hi ps -> ps.*1 = ms.*1.
Proof.
  induction ms as [ | m ms IH ]; intros lo hi [ | p ps ]; simpl; try tauto.
  intros (Hk & mid & _ & H). f_equal; [done | eauto].
Qed.

Lemma tree_items_length R ts : forall lo hi vs, tree_items R ts lo hi vs -> length vs = length ts.
Proof.
  induction ts as [ | t ts IH ]; intros lo hi [ | v vs ]; simpl; try tauto.
  intros (mid & _ & H). f_equal. eauto.
Qed.

(** ** [sanitizeObject] on a tree laid out in the heap *)

Lemma is_sensitive_spec k : is_sensitive (KStr k) = bool_decide (k ∈ sensitive_names).
Proof.
  apply eq_true_iff_eq. rewrite bool_decide_eq_true. unfold is_sensitive, sensitive_names.
  rewrite !orb_true_iff, !String.eqb_eq, !elem_of_cons, elem_of_nil. tauto.
Qed.

Definition key_step (fuel' : nat) (l : loc) (key : pkey) : M heap unit :=
  if is_sensitive key then
    fun h => Ret tt (heap_set h l key (VStr REDACTED))
  else
    bind get_state (fun h =>
      let v := heap_get h l key in
      if is_object v && negb (bool_decide (v = VNull))
      then sanitizeObject fuel' v
      else ret tt).

Lemma sanitizeObject_ref n l h :
  sanitizeObject (S n) (VRef l) h =
  for_each (from_option keys_of [] (h !! l)) (key_step n l) h.
Proof. reflexivity. Qed.

Lemma for_each_cons {S A} (x : A) xs (body : A -> M S unit) s :
  for_each (x :: xs) body s =
  match body x s with
  | Ret _ s' => for_each xs body s'
  | Throw e s' => Throw e s'
  | OutOfFuel => OutOfFuel
  end.
Proof. reflexivity. Qed.

Lemma key_step_sensitive n l key h :
  is_sensitive key = true ->
  key_step n l key h = Ret tt (heap_set h l key (VStr REDACTED)).
Proof. unfold key_step. by intros ->. Qed.

Lemma key_step_other n l key h :
  is_sensitive key = false ->
  key_step n l key h =
  (if is_object (heap_get h l key) && negb (bool_decide (heap_get h l key = VNull))
   then sanitizeObject n (heap_get h l key) else ret tt) h.
Proof. unfold key_step. by intros ->. Qed.

Definition redact_member (m : string * json) : string * json :=
  (m.1, if bool_decide (m.1 ∈ sensitive_names) then JStr REDACTED else redact m.2).

Definition sanitize_ok (n : nat) : Prop :=
  forall t lo hi v h,
    tree_at h t lo hi v -> hi - lo < n ->
    exists h', sanitizeObject n v h = Ret tt h' /\
               tree_at h' (redact t) lo hi v /\
               length h' = length h /\
               (forall l, l < lo \/ hi <= l -> h' !! l = h !! l).

Lemma tree_at_scalar_or_ref h t lo hi v :
  tree_at h t lo hi v ->
  (is_object v && negb (bool_decide (v = VNull)) = false /\ redact t = t) \/
  (exists l, v = VRef l /\ lo < hi).
Proof.
  destruct t; simpl.
  1-4: intros [-> _]; left; by destruct_and?.
  - intros (l & vs & -> & ? & -> & _). right. exists l. split; [done | lia].
  - intros (l & vs & -> & ? & -> & _). right. exists l. split; [done | lia].
Qed.

Lemma loop_members n l (IH : sanitize_ok n) :
  forall ms rest pre mid h,
    h !! l = Some (OObj (pre ++ rest)) ->
    NoDup ((pre ++ rest).*1) ->
    tree_members (tree_at h) ms mid l rest ->
    l - mid < n ->
    exists h' rest',
      for_each (KStr <$> rest.*1) (key_step n l) h = Ret tt h' /\
      h' !! l = Some (OObj (pre ++ rest')) /\
      tree_members (tree_at h') (map redact_member ms) mid l rest' /\
      length h' = length h /\
      (forall l', l' < mid \/ l < l' -> h' !! l' = h !! l').
Proof.
  induction ms as [ | [k t] ms IHms ]; intros [ | [k' v] rest ] pre mid h Hl Hnd Hms Hfuel;
    simpl in Hms; try tauto.
  - exists h, []. simpl. auto.
  - destruct Hms as (Hk & mid1 & Ht & Hms). simpl in Hk. subst k'.
    pose proof (tree_at_le _ _ _ _ _ Ht) as Hle1.
    pose proof (tree_members_le' _ _ _ _ _ Hms) as Hle2.
    assert (Hkpre : k ∉ pre.*1).
    { rewrite fmap_app in Hnd. apply NoDup_app in Hnd as (_ & Hd & _).
      intros Hin. apply (Hd _ Hin). simpl. left. }
    assert (Hl_lt : l < length h) by (eapply lookup_lt_Some; eauto).
    rewrite !fmap_cons, for_each_cons. simpl fst.
    destruct (bool_decide (k ∈ sensitive_names)) eqn:Hsens.
    + (* the value is replaced by the marker *)
      rewrite key_step_sensitive by (by rewrite is_sensitive_spec).
      set (h1 := heap_set h l (KStr k) (VStr REDACTED)).
      assert (Hh1 : h1 = <[l := OObj (pre ++ (k, VStr REDACTED) :: rest)]> h).
      { unfold h1, heap_set. rewrite Hl. simpl. by rewrite props_set_app. }
      assert (Hl1 : h1 !! l = Some (OObj ((pre ++ [(k, VStr REDACTED)]) ++ rest))).
      { rewrite Hh1, list_lookup_insert_eq by done. by rewrite <- app_assoc. }
      assert (Hag : forall l', l' <> l -> h1 !! l' = h !! l').
      { intros l' Hne. rewrite Hh1. by apply list_lookup_insert_ne. }
      destruct (IHms rest (pre ++ [(k, VStr REDACTED)]) mid1 h1) as (h' & rest' & Hrun & Hl' & Hms' & Hlen & Hfr).
      * done.
      * rewrite <- app_assoc. simpl. rewrite fmap_app in *. simpl in *. done.
      * eapply tree_members_frame; [exact Hms | ]. intros l' ?. apply Hag. lia.
      * lia.
      * exists h', ((k, VStr REDACTED) :: rest'). split; [exact Hrun | ].
        split; [by rewrite <- app_assoc in Hl' | ].
        split.
        { simpl. rewrite ?Hsens. split; [done | ]. exists mid1. split; [ | done ].
          simpl. split; [done | lia]. }
        split.
        { rewrite Hlen, Hh1. apply length_insert. }
        intros l' Hl'range. rewrite Hfr by lia. apply Hag. lia.
    + (* the value is kept, and sanitised in place when it is an object *)
      rewrite key_step_other by (by rewrite is_sensitive_spec).
      assert (Hget : heap_get h l (KStr k) = v).
      { unfold heap_get. rewrite Hl. simpl. by rewrite props_get_app. }
      rewrite Hget.
      assert (Hstep : exists h1,
                 (if is_object v && negb (bool_decide (v = VNull))
                  then sanitizeObject n v else ret tt) h = Ret tt h1 /\
                 tree_at h1 (redact t) mid mid1 v /\
                 length h1 = length h /\
                 (forall l', l' < mid \/ mid1 <= l' -> h1 !! l' = h !! l')).
      { destruct (tree_at_scalar_or_ref _ _ _ _ _ Ht) as [[-> Hred] | (l0 & -> & Hlt)].
        - exists h. rewrite Hred. unfold ret. auto.
        - simpl. apply IH; [done | lia]. }
      destruct Hstep as (h1 & Hrun1 & Ht1 & Hlen1 & Hfr1). rewrite Hrun1.
      assert (Hl1 : h1 !! l = Some (OObj ((pre ++ [(k, v)]) ++ rest))).
      { rewrite Hfr1 by lia. by rewrite <- app_assoc. }
      destruct (IHms rest (pre ++ [(k, v)]) mid1 h1) as (h' & rest' & Hrun & Hl' & Hms' & Hlen & Hfr).
      * done.
      * by rewrite <- app_assoc.
      * eapply tree_members_frame; [exact Hms | ]. intros l' ?. apply Hfr1. lia.
      * lia.
      * exists h', ((k, v) :: rest'). split; [exact Hrun | ].
        split; [by rewrite <- app_assoc in Hl' | ].
        split.
        { simpl. rewrite ?Hsens. split; [done | ]. exists mid1. split; [ | done ].
          eapply tree_at_frame; [exact Ht1 | ]. intros l' ?. apply Hfr. lia. }
        split; [lia | ].
        intros l' Hl'range. rewrite Hfr by lia. apply Hfr1. lia.
Qed.

Lemma remove_dups_NoDup {A} `{EqDecision A} (l : list A) : NoDup l -> remove_dups l = l.
Proof.
  induction 1 as [ | x l Hx _ IH ]; simpl; [done | ].
  destruct (decide_rel elem_of x l); [done | by rewrite IH].
Qed.

Lemma loop_items n l (IH : sanitize_ok n) :
  forall ts rest pre mid h,
    h !! l = Some (OArr (pre ++ rest)) ->
    tree_items (tree_at h) ts mid l rest ->
    l - mid < n ->
    exists h',
      for_each (KIdx <$> seq (length pre) (length rest)) (key_step n l) h = Ret tt h' /\
      h' !! l = Some (OArr (pre ++ rest)) /\
      tree_items (tree_at h') (map redact ts) mid l rest /\
      length h' = length h /\
      (forall l', l' < mid \/ l < l' -> h' !! l' = h !! l').
Proof.
  induction ts as [ | t ts IHts ]; intros [ | v rest ] pre mid h Hl Hts Hfuel;
    simpl in Hts; try tauto.
  - exists h. simpl. auto.
  - destruct Hts as (mid1 & Ht & Hts).
    pose proof (tree_at_le _ _ _ _ _ Ht) as Hle1.
    pose proof (tree_items_le' _ _ _ _ _ Hts) as Hle2.
    simpl length. rewrite <- cons_seq, fmap_cons, for_each_cons.
    rewrite key_step_other by done.
    assert (Hget : heap_get h l (KIdx (length pre)) = v).
    { unfold heap_get. rewrite Hl. simpl. by rewrite list_lookup_middle. }
    rewrite Hget.
    assert (Hstep : exists h1,
               (if is_object v && negb (bool_decide (v = VNull))
                then sanitizeObject n v else ret tt) h = Ret tt h1 /\
               tree_at h1 (redact t) mid mid1 v /\
               length h1 = length h /\
               (forall l', l' < mid \/ mid1 <= l' -> h1 !! l' = h !! l')).
    { destruct (tree_at_scalar_or_ref _ _ _ _ _ Ht) as [[-> Hred] | (l0 & -> & Hlt)].
      - exists h. rewrite Hred. unfold ret. auto.
      - simpl. apply IH; [done | lia]. }
    destruct Hstep as (h1 & Hrun1 & Ht1 & Hlen1 & Hfr1). rewrite Hrun1.
    assert (Hl1 : h1 !! l = Some (OArr ((pre ++ [v]) ++ rest))).
    { rewrite Hfr1 by lia. by rewrite <- app_assoc. }
    destruct (IHts rest (pre ++ [v]) mid1 h1) as (h' & Hrun & Hl' & Hts' & Hlen & Hfr).
    + done.
    + eapply tree_items_frame; [exact Hts | ]. intros l' ?. apply Hfr1. lia.
    + lia.
    + rewrite length_app, Nat.add_1_r in Hrun.
      exists h'. split; [exact Hrun | ].
      split; [by rewrite <- app_assoc in Hl' | ].
      split.
      { simpl. exists mid1. split; [ | done ].
        eapply tree_at_frame; [exact Ht1 | ]. intros l' ?. apply Hfr. lia. }
      split; [lia | ].
      intros l' Hl'range. rewrite Hfr by lia. apply Hfr1. lia.
Qed.

Lemma sanitizeObject_scalar n v h :
  negb (truthy v) || negb (is_object v) = true -> sanitizeObject (S n) v h = Ret tt h.
Proof. intros H. simpl. by rewrite H. Qed.

Lemma redact_member_keys ms : (map redact_member ms).*1 = ms.*1.
Proof. induction ms as [ | m ms IH ]; [done | ]. cbn. by f_equal. Qed.

Lemma sanitizeObject_tree n : sanitize_ok n.
Proof.
  induction n as [ | n IH ]; intros t lo hi v h Ht Hfuel; [lia | ].
  destruct t as [ | b | z | s | ts | ms ]; simpl in Ht.
  1-4: destruct Ht as [-> Hle]; exists h;
       (split; [apply sanitizeObject_scalar; simpl; by rewrite ?orb_true_r | simpl; auto]).
  - destruct Ht as (l & vs & -> & Hlo & -> & Hl & Hts).
    rewrite sanitizeObject_ref, Hl. unfold from_option, keys_of.
    destruct (loop_items n l IH ts vs [] lo h) as (h' & Hrun & Hl' & Hts' & Hlen & Hfr);
      [done | done | lia | ].
    exists h'. split; [exact Hrun | ]. split; [ | split; [done | ] ].
    + simpl. exists l, vs. auto.
    + intros l' ?. apply Hfr. lia.
  - destruct Ht as (l & ps & -> & Hlo & -> & Hl & Hnd & Hms).
    rewrite sanitizeObject_ref, Hl. unfold from_option, keys_of.
    pose proof (tree_members_keys _ _ _ _ _ Hms) as Hkeys.
    assert (Hrd : remove_dups (ps.*1) = ps.*1).
    { apply remove_dups_NoDup. rewrite Hkeys. exact Hnd. }
    rewrite Hrd.
    destruct (loop_members n l IH ms ps [] lo h) as (h' & ps' & Hrun & Hl' & Hms' & Hlen & Hfr);
      [done | simpl; by rewrite Hkeys | done | lia | ].
    exists h'. split; [exact Hrun | ]. split; [ | split; [done | ] ].
    + change (redact (JObj ms)) with (JObj (map redact_member ms)).
      assert (Hnd' : NoDup ((map redact_member ms).*1)) by (by rewrite redact_member_keys).
      cbn [tree_at]. exists l, ps'. auto 10.
    + intros l' ?. apply Hfr. lia.
Qed.

(** ** Documents with distinct member names *)

#[local] Unset Elimination Schemes.
Inductive json_wf : json -> Prop :=
| wf_null : json_wf JNull
| wf_bool b : json_wf (JBool b)
| wf_num z : json_wf (JNum z)
| wf_str s : json_wf (JStr s)
| wf_arr ts : Forall json_wf ts -> json_wf (JArr ts)
| wf_obj ms : NoDup (ms.*1) -> Forall (fun m => json_wf m.2) ms -> json_wf (JObj ms).
#[local] Set Elimination Schemes.

Lemma ser_elems_wf f vs js :
  (forall v j, f v = Ok (Some j) -> json_wf j) ->
  ser_elems f vs = Ok js -> Forall json_wf js.
Proof.
  intros Hf. revert js. induction vs as [ | v vs IH ]; simpl; intros js.
  - intros [= <-]. constructor.
  - destruct (f v) as [ j | | ] eqn:Hv; simpl; try done.
    destruct (ser_elems f vs) as [ js' | | ]; simpl; try done.
    intros [= <-]. constructor; [ | by apply IH ].
    destruct j as [ j | ]; simpl; [eauto | constructor].
Qed.

Lemma ser_members_wf f get ks ms :
  (forall v j, f v = Ok (Some j) -> json_wf j) ->
  ser_members f get ks = Ok ms ->
  Forall (fun m => json_wf m.2) ms /\ sublist (ms.*1) ks.
Proof.
  intros Hf. revert ms. induction ks as [ | k ks IH ]; simpl; intros ms.
  - intros [= <-]. split; constructor.
  - destruct (f (get k)) as [ j | | ] eqn:Hv; simpl; try done.
    destruct (ser_members f get ks) as [ ms' | | ]; simpl; try done.
    destruct (IH ms' eq_refl) as [Hwf Hsub].
    intros [= <-]. destruct j as [ j | ].
    + split; [constructor; eauto | ]. simpl. by constructor.
    + split; [done | by constructor].
Qed.

Lemma serialize_wf fuel : forall h stack v t,
  serialize fuel h stack v = Ok (Some t) -> json_wf t.
Proof.
  induction fuel as [ | n IH ]; intros h stack v t.
  - destruct v as [ | | | [ | ] | | | | | ]; simpl; try done; intros [= <-]; repeat constructor.
  - destruct v as [ | | | [ | ] | | | | | l ]; simpl; try done;
      try (intros [= <-]; repeat constructor).
    case_bool_decide; [done | ].
    destruct (h !! l) as [ [ ps | vs | | | ] | ]; try done;
      try (intros [= <-]; repeat constructor).
    + destruct (ser_members _ _ _) as [ ms | | ] eqn:Hms; simpl; try done.
      intros [= <-]. apply ser_members_wf in Hms as [Hwf Hsub]; [ | by eauto ].
      constructor; [ | done ].
      eapply sublist_NoDup; [apply NoDup_remove_dups | exact Hsub].
    + destruct (ser_elems _ _) as [ js | | ] eqn:Hjs; simpl; try done.
      intros [= <-]. constructor. eapply ser_elems_wf; [ | exact Hjs ]. eauto.
Qed.

(** ** [JSON.parse] lays a tree out in new locations *)

Lemma agree_app h new lo hi : hi <= length h -> agree h (h ++ new) lo hi.
Proof. intros Hhi l Hl. apply lookup_app_l. lia. Qed.

Definition parse_ok (t : json) : Prop :=
  json_wf t ->
  forall h, exists new v,
    JSON_parse t h = (h ++ new, v) /\
    tree_at (h ++ new) t (length h) (length (h ++ new)) v.

Lemma parse_items_tree ts :
  Forall parse_ok ts -> Forall json_wf ts ->
  forall h, exists new vs,
    parse_items JSON_parse ts h = (h ++ new, vs) /\
    tree_items (tree_at (h ++ new)) ts (length h) (length (h ++ new)) vs.
Proof.
  induction 1 as [ | t ts Ht _ IH ]; intros Hwf h.
  - exists [], []. simpl. rewrite app_nil_r. auto.
  - apply Forall_cons in Hwf as [Hwt Hwts].
    destruct (Ht Hwt h) as (n1 & v & Hp1 & Ht1).
    destruct (IH Hwts (h ++ n1)) as (n2 & vs & Hp2 & Hts).
    exists (n1 ++ n2), (v :: vs). simpl. rewrite Hp1, Hp2, <- app_assoc.
    split; [done | ]. exists (length (h ++ n1)). split; [ | by rewrite app_assoc ].
    rewrite app_assoc. eapply tree_at_frame; [exact Ht1 | by apply agree_app].
Qed.

Lemma parse_members_tree ms :
  Forall (fun m => parse_ok m.2) ms -> Forall (fun m => json_wf m.2) ms ->
  forall h, exists new kvs,
    parse_members JSON_parse ms h = (h ++ new, kvs) /\
    tree_members (tree_at (h ++ new)) ms (length h) (length (h ++ new)) kvs.
Proof.
  induction 1 as [ | [k t] ms Ht _ IH ]; intros Hwf h.
  - exists [], []. simpl. rewrite app_nil_r. auto.
  - apply Forall_cons in Hwf as [Hwt Hwts].
    destruct (Ht Hwt h) as (n1 & v & Hp1 & Ht1).
    destruct (IH Hwts (h ++ n1)) as (n2 & kvs & Hp2 & Hts).
    simpl in Hp1.
    exists (n1 ++ n2), ((k, v) :: kvs). simpl. rewrite Hp1, Hp2, <- app_assoc.
    split; [done | ]. split; [done | ].
    exists (length (h ++ n1)). split; [ | by rewrite app_assoc ].
    rewrite app_assoc. eapply tree_at_frame; [exact Ht1 | by apply agree_app].
Qed.

Lemma JSON_parse_tree t : parse_ok t.
Proof.
  induction t as [ | b | z | s | ts IH | ms IH ] using json_ind'; intros Hwf h.
  1-4: exists []; eexists; simpl; rewrite app_nil_r; split; [reflexivity | auto].
  - inversion Hwf as [ | | | | ts' Hwts | ]; subst.
    destruct (parse_items_tree ts IH Hwts h) as (new & vs & Hp & Hts).
    exists (new ++ [OArr vs]), (VRef (length (h ++ new))).
    simpl. rewrite Hp, app_assoc. split; [done | ].
    exists (length (h ++ new)), vs.
    pose proof (tree_items_le' _ _ _ _ _ Hts).
    repeat split; try done.
    + rewrite length_app. simpl. lia.
    + by rewrite list_lookup_middle.
    + eapply tree_items_frame; [exact Hts | by apply agree_app].
  - inversion Hwf as [ | | | | | ms' Hnd Hwms ]; subst.
    destruct (parse_members_tree ms IH Hwms h) as (new & kvs & Hp & Hms).
    exists (new ++ [OObj kvs]), (VRef (length (h ++ new))).
    pose proof (tree_members_keys _ _ _ _ _ Hms) as Hkeys.
    simpl. rewrite Hp, app_assoc, obj_of_members_NoDup by (by rewrite Hkeys).
    split; [done | ].
    exists (length (h ++ new)), kvs.
    pose proof (tree_members_le' _ _ _ _ _ Hms).
    repeat split; try done.
    + rewrite length_app. simpl. lia.
    + by rewrite list_lookup_middle.
    + eapply tree_members_frame; [exact Hms | by apply agree_app].
Qed.

(** ** [JSON.stringify] reads a tree back *)

Definition serialize_ok (n : nat) : Prop :=
  forall t lo hi v h stack,
    tree_at h t lo hi v -> hi - lo < n ->
    (forall s, s ∈ stack -> hi <= s) ->
    serialize n h stack v = Ok (Some t).

Lemma ser_elems_tree n h stack (IH : serialize_ok n) :
  forall ts vs lo hi,
    tree_items (tree_at h) ts lo hi vs -> hi - lo < n ->
    (forall s, s ∈ stack -> hi <= s) ->
    ser_elems (serialize n h stack) vs = Ok ts.
Proof.
  induction ts as [ | t ts IHts ]; intros [ | v vs ] lo hi Hts Hfuel Hst;
    simpl in Hts; try tauto.
  destruct Hts as (mid & Ht & Hts).
  pose proof (tree_at_le _ _ _ _ _ Ht). pose proof (tree_items_le' _ _ _ _ _ Hts).
  simpl. rewrite (IH t lo mid v h stack Ht); [ | lia | intros s Hs; apply Hst in Hs; lia ].
  simpl. rewrite (IHts vs mid hi Hts); [done | lia | done].
Qed.

Lemma ser_members_tree n h stack (IH : serialize_ok n) :
  forall ms rest pre lo hi,
    NoDup ((pre ++ rest).*1) ->
    tree_members (tree_at h) ms lo hi rest -> hi - lo < n ->
    (forall s, s ∈ stack -> hi <= s) ->
    ser_members (serialize n h stack)
      (fun k => default VUndefined (props_get k (pre ++ rest))) (rest.*1) = Ok ms.
Proof.
  induction ms as [ | [k t] ms IHms ]; intros [ | [k' v] rest ] pre lo hi Hnd Hms Hfuel Hst;
    simpl in Hms; try tauto.
  destruct Hms as (Hk & mid & Ht & Hms). simpl in Hk. subst k'.
  pose proof (tree_at_le _ _ _ _ _ Ht). pose proof (tree_members_le' _ _ _ _ _ Hms).
  assert (Hkpre : k ∉ pre.*1).
  { rewrite fmap_app in Hnd. apply NoDup_app in Hnd as (_ & Hd & _).
    intros Hin. apply (Hd _ Hin). simpl. left. }
  rewrite fmap_cons. cbn [ser_members fst]. rewrite props_get_app by done. cbn [default from_option id].
  rewrite (IH t lo mid v h stack Ht); [ | lia | intros s Hs; apply Hst in Hs; lia ].
  cbn [rbind].
  specialize (IHms rest (pre ++ [(k, v)]) mid hi).
  rewrite <- app_assoc in IHms. cbn [app] in IHms. rewrite IHms; [done | done | done | lia | done].
Qed.

Lemma serialize_tree n : serialize_ok n.
Proof.
  induction n as [ | n IH ]; intros t lo hi v h stack Ht Hfuel Hst; [lia | ].
  destruct t as [ | b | z | s | ts | ms ]; simpl in Ht.
  1-4: by destruct Ht as [-> _].
  - destruct Ht as (l & vs & -> & Hlo & -> & Hl & Hts).
    cbn [serialize]. rewrite bool_decide_eq_false_2, Hl.
    + erewrite ser_elems_tree; [done | done | exact Hts | lia | ].
      intros s Hs. apply elem_of_cons in Hs as [-> | Hs]; [lia | ]. apply Hst in Hs. lia.
    + intros Hin. apply Hst in Hin. lia.
  - destruct Ht as (l & ps & -> & Hlo & -> & Hl & Hnd & Hms).
    pose proof (tree_members_keys _ _ _ _ _ Hms) as Hkeys.
    cbn [serialize]. rewrite bool_decide_eq_false_2, Hl.
    + rewrite remove_dups_NoDup by (by rewrite Hkeys).
      pose proof (ser_members_tree n h (l :: stack) IH ms ps [] lo l) as Hm.
      cbn [app] in Hm. rewrite Hm; [done | | done | lia | ].
      * by rewrite Hkeys.
      * intros s Hs. apply elem_of_cons in Hs as [-> | Hs]; [lia | ]. apply Hst in Hs. lia.
    + intros Hin. apply Hst in Hin. lia.
Qed.

(** ** [JSON.stringify] never exhausts its fuel *)

Lemma stack_bound (stack : list nat) n :
  NoDup stack -> (forall s, s ∈ stack -> s < n) -> length stack <= n.
Proof.
  intros Hnd Hlt. rewrite <- (length_seq n 0).
  apply submseteq_length, NoDup_submseteq; [done | ].
  intros s Hs. apply elem_of_seq. specialize (Hlt s Hs). lia.
Qed.

Lemma ser_elems_fuel f vs :
  (forall v, f v <> Fuel) -> ser_elems f vs <> Fuel.
Proof.
  intros Hf. induction vs as [ | v vs IH ]; simpl; [done | ].
  specialize (Hf v). destruct (f v); simpl; try done.
  destruct (ser_elems f vs); simpl; done.
Qed.

Lemma ser_members_fuel f get ks :
  (forall v, f v <> Fuel) -> ser_members f get ks <> Fuel.
Proof.
  intros Hf. induction ks as [ | k ks IH ]; simpl; [done | ].
  specialize (Hf (get k)). destruct (f (get k)); simpl; try done.
  destruct (ser_members f get ks); simpl; done.
Qed.

Lemma serialize_fuel n : forall h stack v,
  NoDup stack -> (forall s, s ∈ stack -> s < length h) ->
  length h < n + length stack ->
  serialize n h stack v <> Fuel.
Proof.
  induction n as [ | n IH ]; intros h stack v Hnd Hlt Hfuel.
  - pose proof (stack_bound stack (length h) Hnd Hlt). simpl in Hfuel. lia.
  - destruct v as [ | | | [ | ] | | | | | l ]; simpl; try done.
    case_bool_decide as Hin; [done | ].
    destruct (h !! l) as [ o | ] eqn:Hl; [ | done ].
    assert (Hrec : forall v, serialize n h (l :: stack) v <> Fuel).
    { intros v. apply IH.
      - by constructor.
      - intros s Hs. apply elem_of_cons in Hs as [-> | Hs]; [ | by apply Hlt ].
        by eapply lookup_lt_Some.
      - simpl. lia. }
    destruct o as [ ps | vs | | | ]; try done.
    + pose proof (ser_members_fuel _ (fun k => default VUndefined (props_get k ps))
                    (remove_dups ps.*1) Hrec) as Hm.
      destruct (ser_members _ _ _); simpl; done.
    + pose proof (ser_elems_fuel _ vs Hrec) as He.
      destruct (ser_elems _ _); simpl; done.
Qed.

Lemma JSON_stringify_fuel h v : JSON_stringify h v <> Fuel.
Proof.
  apply serialize_fuel.
  - constructor.
  - intros s Hs. by apply elem_of_nil in Hs.
  - simpl. lia.
Qed.

(** ** Reachability *)

Definition obj_values (o : obj) : list value :=
  match o with
  | OObj ps => ps.*2
  | OArr vs => vs
  | OStream _ | ORequest _ | OResponse _ => []
  end.

Inductive reachable (h : heap) : value -> loc -> Prop :=
| reach_here l : reachable h (VRef l) l
| reach_step l0 o v l :
    h !! l0 = Some o -> v ∈ obj_values o -> reachable h v l -> reachable h (VRef l0) l.

Lemma tree_items_elem h ts : forall lo hi vs v,
  tree_items (tree_at h) ts lo hi vs -> v ∈ vs ->
  exists t lo' hi', tree_at h t lo' hi' v /\ lo <= lo' /\ hi' <= hi.
Proof.
  induction ts as [ | t ts IH ]; intros lo hi [ | v0 vs ] v Hts Hin; simpl in Hts; try tauto.
  - by apply elem_of_nil in Hin.
  - destruct Hts as (mid & Ht & Hts).
    pose proof (tree_at_le _ _ _ _ _ Ht). pose proof (tree_items_le' _ _ _ _ _ Hts).
    apply elem_of_cons in Hin as [-> | Hin].
    + exists t, lo, mid. auto.
    + destruct (IH _ _ _ _ Hts Hin) as (t' & lo' & hi' & ? & ? & ?).
      exists t', lo', hi'. split; [done | lia].
Qed.

Lemma tree_members_elem h ms : forall lo hi ps v,
  tree_members (tree_at h) ms lo hi ps -> v ∈ ps.*2 ->
  exists t lo' hi', tree_at h t lo' hi' v /\ lo <= lo' /\ hi' <= hi.
Proof.
  induction ms as [ | m ms IH ]; intros lo hi [ | p ps ] v Hms Hin; simpl in Hms; try tauto.
  - by apply elem_of_nil in Hin.
  - destruct Hms as (_ & mid & Ht & Hms).
    pose proof (tree_at_le _ _ _ _ _ Ht). pose proof (tree_members_le' _ _ _ _ _ Hms).
    rewrite fmap_cons in Hin. apply elem_of_cons in Hin as [-> | Hin].
    + exists m.2, lo, mid. auto.
    + destruct (IH _ _ _ _ Hms Hin) as (t' & lo' & hi' & ? & ? & ?).
      exists t', lo', hi'. split; [done | lia].
Qed.

Lemma tree_at_reachable h v l :
  reachable h v l -> forall t lo hi, tree_at h t lo hi v -> lo <= l < hi.
Proof.
  induction 1 as [ l | l0 o v l Hl0 Hin _ IH ]; intros t lo hi Ht.
  - destruct t; simpl in Ht; try (by destruct Ht);
      destruct Ht as (l' & ? & [= <-] & ? & -> & _); lia.
  - destruct t; simpl in Ht; try (by destruct Ht).
    + destruct Ht as (l' & vs & [= <-] & ? & -> & Hl & Hts).
      rewrite Hl in Hl0. injection Hl0 as <-. simpl in Hin.
      destruct (tree_items_elem _ _ _ _ _ _ Hts Hin) as (t' & lo' & hi' & Ht' & ? & ?).
      apply IH in Ht'. lia.
    + destruct Ht as (l' & ps & [= <-] & ? & -> & Hl & _ & Hms).
      rewrite Hl in Hl0. injection Hl0 as <-. simpl in Hin.
      destruct (tree_members_elem _ _ _ _ _ _ Hms Hin) as (t' & lo' & hi' & Ht' & ? & ?).
      apply IH in Ht'. lia.
Qed.

(** ** [sanitizeData] *)

Lemma redact_sensitive_names k :
  is_sensitive (KStr k) = true <-> k ∈ sensitive_names.
Proof. by rewrite is_sensitive_spec, bool_decide_eq_true. Qed.

(** The successful path of [sanitizeData]: a copy laid out as a tree in new
    locations, sanitised in place. *)
Lemma sanitizeData_copy h data t :
  truthy data = true ->
  JSON_stringify h data = Ok (Some t) ->
  exists v h',
    sanitizeData data h = Ret v h' /\
    tree_at h' (redact t) (length h) (length h') v /\
    (forall l, l < length h -> h' !! l = h !! l).
Proof.
  intros Htruthy Hser.
  pose proof (serialize_wf _ _ _ _ _ Hser) as Hwf.
  destruct (JSON_parse_tree t Hwf h) as (new & v & Hparse & Htree).
  destruct (sanitizeObject_tree (S (length (h ++ new))) t (length h) (length (h ++ new)) v
              (h ++ new) Htree) as (h' & Hrun & Htree' & Hlen & Hfr); [lia | ].
  exists v, h'. split; [ | split ].
  - unfold sanitizeData. rewrite Htruthy. cbn [negb].
    unfold try_catch, bind, lift_res. rewrite Hser.
    unfold JSON_parse_text. rewrite Hparse, Hrun. done.
  - by rewrite Hlen.
  - intros l Hl. rewrite Hfr by lia. by apply lookup_app_l.
Qed.

(** ** Members of a document, by path *)

Definition json_child (j : json) (k : pkey) : option json :=
  match j, k with
  | JObj ms, KStr name => props_get name ms
  | JArr js, KIdx i => js !! i
  | _, _ => None
  end.

(** The part of [j] reached from its root by the keys of [path] *)
Fixpoint json_at (path : list pkey) (j : json) : option json :=
  match path with
  | [] => Some j
  | k :: path =>
      match json_child j k with
      | Some c => json_at path c
      | None => None
      end
  end.

(** The keys of the specification's set *)
Definition sensitive (k : pkey) : bool :=
  match k with
  | KStr name => bool_decide (name ∈ sensitive_names)
  | KIdx _ => false
  end.

(** No member of [j], at any depth, has a sensitive name. *)
Fixpoint clean (j : json) : bool :=
  match j with
  | JArr js => forallb clean js
  | JObj ms => forallb (fun m => negb (sensitive (KStr m.1)) && clean m.2) ms
  | _ => true
  end.

Lemma is_sensitive_sensitive k : is_sensitive k = sensitive k.
Proof. destruct k as [ name | i ]; [apply is_sensitive_spec | done]. Qed.

Lemma redact_child j k :
  json_child (redact j) k =
  (fun c => if sensitive k then JStr REDACTED else redact c) <$> json_child j k.
Proof.
  destruct j as [ | | | | js | ms ], k as [ name | i ]; try done.
  - cbn [redact json_child sensitive]. apply list_lookup_fmap.
  - cbn [redact json_child sensitive].
    induction ms as [ | [k c] ms IH ]; [done | ]. cbn.
    destruct (String.eqb_spec name k) as [-> | Hne]; [done | exact IH].
Qed.

Lemma redact_marks path : forall t ms name v,
  json_at path (redact t) = Some (JObj ms) ->
  props_get name ms = Some v ->
  name ∈ sensitive_names ->
  v = JStr REDACTED.
Proof.
  induction path as [ | k path IH ]; intros t ms name v Hat Hget Hname.
  - injection Hat as Hat.
    pose proof (redact_child t (KStr name)) as Hc. rewrite Hat in Hc.
    cbn [json_child sensitive] in Hc. rewrite Hget, bool_decide_eq_true_2 in Hc by done.
    destruct (json_child t (KStr name)); [by injection Hc as -> | done].
  - cbn [json_at] in Hat. rewrite redact_child in Hat.
    destruct (json_child t k) as [ c | ]; [ | done ]. cbn in Hat.
    destruct (sensitive k); [ | by eapply IH ].
    destruct path; done.
Qed.

Lemma redact_keeps path : forall t c,
  json_at path t = Some c ->
  forallb (fun k => negb (sensitive k)) path = true ->
  json_at path (redact t) = Some (redact c).
Proof.
  induction path as [ | k path IH ]; intros t c Hat Hpath.
  - by injection Hat as ->.
  - cbn [json_at forallb] in *. apply andb_true_iff in Hpath as [Hk Hpath].
    rewrite redact_child.
    destruct (json_child t k) as [ c' | ]; [ | done ]. cbn.
    apply negb_true_iff in Hk. rewrite Hk. by apply IH.
Qed.

Lemma redact_clean j : clean j = true -> redact j = j.
Proof.
  induction j as [ | b | z | s | js IH | ms IH ] using json_ind'; try done.
  - cbn [clean redact]. intros Hc. f_equal.
    induction IH as [ | j js Hj _ IHjs ]; [done | ].
    cbn in Hc. apply andb_true_iff in Hc as [Hcj Hcjs]. cbn. by rewrite Hj, IHjs.
  - cbn [clean redact]. intros Hc. f_equal.
    induction IH as [ | [k j] ms Hj _ IHms ]; [done | ].
    cbn in Hc. apply andb_true_iff in Hc as [Hcj Hcms].
    apply andb_true_iff in Hcj as [Hk Hcj]. apply negb_true_iff in Hk.
    cbn in *. by rewrite Hk, Hj, IHms.
Qed.

(** ** [sanitizeData] *)

Lemma sanitizeData_falsy h data :
  truthy data = false -> sanitizeData data h = Ret data h.
Proof. intros H. unfold sanitizeData. by rewrite H. Qed.

Lemma sanitizeData_failed h data :
  truthy data = true ->
  (JSON_stringify h data = Ok None \/ exists e, JSON_stringify h data = Err e) ->
  sanitizeData data h =
  if is_object data then Ret (VRef (length h)) (h ++ [could_not_sanitize]) else Ret data h.
Proof.
  intros Htruthy Hfail. unfold sanitizeData. rewrite Htruthy. cbn [negb].
  unfold try_catch, bind, lift_res.
  destruct Hfail as [-> | [e ->]]; by destruct (is_object data).
Qed.

(** The successful path, read back: the result serialises to [redact t], is
    made of new objects, and the old objects are untouched. *)
Lemma sanitizeData_success (h : heap) (data : value) (t : json) :
  JSON_stringify h data = Ok (Some t) ->
  exists v h',
    sanitizeData data h = Ret v h' /\
    JSON_stringify h' v = Ok (Some (redact t)) /\
    (forall l, reachable h' v l -> length h <= l) /\
    (forall l o, h !! l = Some o -> h' !! l = Some o).
Proof.
  intros Hser. destruct (truthy data) eqn:Htruthy.
  - destruct (sanitizeData_copy h data t Htruthy Hser) as (v & h' & Hrun & Htree & Hold).
    exists v, h'. repeat split; try done.
    + apply (serialize_tree _ _ _ _ _ _ _ Htree); [lia | ].
      intros s Hs. by apply elem_of_nil in Hs.
    + intros l Hl. apply (tree_at_reachable _ _ _ Hl) in Htree. lia.
    + intros l o Hl. rewrite Hold; [done | by eapply lookup_lt_Some].
  - exists data, h. rewrite sanitizeData_falsy by done. repeat split; try done.
    + destruct data as [ | | [ | ] | [ z | ] | s | z | | | ]; try done;
        cbn in Hser; injection Hser as <-; done.
    + intros l Hl. inversion Hl; subst; done.
Qed.

(** C1.  For every JSON-serializable input (one [JSON.stringify] turns into a
    document [t]), [sanitizeData] returns a value whose own serialisation is
    [redact t].  In that document every member named by one of the seven
    sensitive names, at any depth, holds the marker; and every part of the
    input that is reached through objects and arrays without going through
    a sensitive name sits at the same place, sanitised in turn, hence
    unchanged when it has no sensitive member itself: the siblings of a
    redacted member keep their values.  The value returned is a deep copy:
    the objects it is made of are all new, and those that existed before
    the call are untouched. *)
Theorem sanitizeData_redacts (h : heap) (data : value) (t : json) :
  JSON_stringify h data = Ok (Some t) ->
  exists v h',
    sanitizeData data h = Ret v h' /\
    JSON_stringify h' v = Ok (Some (redact t)) /\
    (forall path ms name x,
       json_at path (redact t) = Some (JObj ms) ->
       props_get name ms = Some x ->
       name ∈ sensitive_names ->
       x = JStr REDACTED) /\
    (forall path c,
       json_at path t = Some c ->
       forallb (fun k => negb (sensitive k)) path = true ->
       json_at path (redact t) = Some (redact c) /\
       (clean c = true -> json_at path (redact t) = Some c)) /\
    (forall l, reachable h' v l -> length h <= l) /\
    (forall l o, h !! l = Some o -> h' !! l = Some o).
Proof.
  intros Hser.
  destruct (sanitizeData_success h data t Hser) as (v & h' & Hrun & Hback & Hnew & Hold).
  exists v, h'. split; [done | ]. split; [done | ]. split; [ | split; [ | done ] ].
  - intros path ms name x. apply (redact_marks path t).
  - intros path c Hat Hpath. split; [by apply redact_keeps | ].
    intros Hclean. pose proof (redact_keeps path t c Hat Hpath) as Hkeeps.
    by rewrite (redact_clean c Hclean) in Hkeeps.
Qed.

Definition demo_heap : heap :=
  [ OObj [("password", VStr "hunter2"); ("name", VStr "ann")];
    OArr [VRef 0; VStr "x"];
    OObj [("users", VRef 1); ("token", VRef 0); ("n", VNum (NInt 3))] ].

Definition demo_document : json :=
  JObj [("users", JArr [JObj [("password", JStr "hunter2"); ("name", JStr "ann")];
                        JStr "x"]);
        ("token", JObj [("password", JStr "hunter2"); ("name", JStr "ann")]);
        ("n", JNum 3)].

Lemma sanitizeData_redacts_witness :
  exists v h',
    sanitizeData (VRef 2) demo_heap = Ret v h' /\
    JSON_stringify h' v =
      Ok (Some (JObj [("users", JArr [JObj [("password", JStr "***REDACTED***");
                                           ("name", JStr "ann")]; JStr "x"]);
                      ("token", JStr "***REDACTED***");
                      ("n", JNum 3)])) /\
    (forall l, reachable h' v l -> length demo_heap <= l) /\
    (forall l o, demo_heap !! l = Some o -> h' !! l = Some o).
Proof.
  destruct (sanitizeData_redacts demo_heap (VRef 2) demo_document)
    as (v & h' & Hrun & Hback & _ & _ & Hnew & Hold); [vm_compute; reflexivity | ].
  by exists v, h'.
Defined.

(** [sanitizeData] always returns, and only adds to the heap. *)
Lemma sanitizeData_total (h : heap) (data : value) :
  exists v h',
    sanitizeData data h = Ret v h' /\
    forall l o, h !! l = Some o -> h' !! l = Some o.
Proof.
  destruct (truthy data) eqn:Htruthy.
  - destruct (JSON_stringify h data) as [ [ t | ] | e | ] eqn:Hser.
    + destruct (sanitizeData_success h data t Hser) as (v & h' & Hrun & _ & _ & Hold).
      by exists v, h'.
    + rewrite sanitizeData_failed by auto.
      destruct (is_object data); eexists _, _; (split; [reflexivity | ]); try done.
      intros l o Hl. by apply lookup_app_l_Some.
    + rewrite sanitizeData_failed by eauto.
      destruct (is_object data); eexists _, _; (split; [reflexivity | ]); try done.
      intros l o Hl. by apply lookup_app_l_Some.
    + by destruct (JSON_stringify_fuel h data).
  - exists data, h. by rewrite sanitizeData_falsy.
Qed.

(** C9.  For every input, [sanitizeData] returns, and every object that
    existed before the call is the same after it: the redaction is applied
    to the copy only. *)
Theorem sanitizeData_preserves_argument (h : heap) (data : value) :
  exists v h',
    sanitizeData data h = Ret v h' /\
    forall l o, h !! l = Some o -> h' !! l = Some o.
Proof. apply sanitizeData_total. Qed.




(** * The log writer *)

(** [h'] holds every object of [h], unchanged. *)
Definition heap_ext (h h' : heap) : Prop :=
  forall l o, h !! l = Some o -> h' !! l = Some o.

Lemma heap_ext_refl h : heap_ext h h.
Proof. by intros l o. Qed.

Lemma heap_ext_trans h1 h2 h3 : heap_ext h1 h2 -> heap_ext h2 h3 -> heap_ext h1 h3.
Proof. intros H12 H23 l o Hl. auto. Qed.

Lemma heap_ext_app h new : heap_ext h (h ++ new).
Proof. intros l o Hl. by apply lookup_app_l_Some. Qed.

(** A step that leaves the file system, the console and the clock alone, and
    only adds to the heap. *)
Record quiet (w w' : world) : Prop := {
  quiet_fs : w_fs w' = w_fs w;
  quiet_stdout : w_stdout w' = w_stdout w;
  quiet_stderr : w_stderr w' = w_stderr w;
  quiet_now : w_now w' = w_now w;
  quiet_heap : heap_ext (w_heap w) (w_heap w')
}.

Lemma quiet_refl w : quiet w w.
Proof. split; try done. apply heap_ext_refl. Qed.

Lemma quiet_trans w1 w2 w3 : quiet w1 w2 -> quiet w2 w3 -> quiet w1 w3.
Proof.
  intros [] []. split; try congruence. by eapply heap_ext_trans.
Qed.

Lemma quiet_with_heap w h : heap_ext (w_heap w) h -> quiet w (with_heap w h).
Proof. intros H. by split. Qed.

(** The outcome [r] returns with [Q] or throws with [Qe]; it does not run
    out of fuel. *)
Definition sat {S A} (r : outcome S A) (Q : A -> S -> Prop) (Qe : value -> S -> Prop) : Prop :=
  match r with
  | Ret a s => Q a s
  | Throw e s => Qe e s
  | OutOfFuel => False
  end.

Lemma sat_bind {S A B} (m : M S A) (k : A -> M S B) s Q Qe :
  sat (m s) (fun a s' => sat (k a s') Q Qe) Qe -> sat (bind m k s) Q Qe.
Proof. unfold bind. by destruct (m s). Qed.

Lemma sat_mono {S A} (r : outcome S A) (Q Q' : A -> S -> Prop) (Qe Qe' : value -> S -> Prop) :
  sat r Q Qe -> (forall a s, Q a s -> Q' a s) -> (forall e s, Qe e s -> Qe' e s) ->
  sat r Q' Qe'.
Proof. destruct r; simpl; auto. Qed.

Lemma sat_on_heap {A} (m : M heap A) w (Q : A -> world -> Prop) (Qe : value -> world -> Prop) :
  sat (m (w_heap w)) (fun a h => Q a (with_heap w h)) (fun e h => Qe e (with_heap w h)) ->
  sat (on_heap m w) Q Qe.
Proof. unfold on_heap. by destruct (m (w_heap w)). Qed.

(** Heap computations that return or throw, and only add to the heap *)
Definition grows {A} (m : M heap A) : Prop :=
  forall h, sat (m h) (fun _ h' => heap_ext h h') (fun _ h' => heap_ext h h').

Lemma grows_quiet {A} (m : M heap A) w :
  grows m -> sat (on_heap m w) (fun _ w' => quiet w w') (fun _ w' => quiet w w').
Proof.
  intros Hm. apply sat_on_heap. eapply sat_mono; [apply Hm | | ];
    cbn beta; intros; by apply quiet_with_heap.
Qed.

Lemma grows_bind {A B} (m : M heap A) (k : A -> M heap B) :
  grows m -> (forall a, grows (k a)) -> grows (bind m k).
Proof.
  intros Hm Hk h. apply sat_bind. eapply sat_mono; [apply Hm | | done].
  cbn beta. intros a h' Hext. eapply sat_mono; [apply Hk | | ];
    cbn beta; intros; by eapply heap_ext_trans.
Qed.

Lemma grows_ret {A} (a : A) : grows (ret a).
Proof. intros h. apply heap_ext_refl. Qed.

Lemma grows_alloc o : grows (alloc o).
Proof. intros h. apply heap_ext_app. Qed.

Lemma grows_sanitizeData data : grows (sanitizeData data).
Proof.
  intros h. destruct (sanitizeData_total h data) as (v & h' & -> & Hext). exact Hext.
Qed.

Lemma grows_body_value b : grows (body_value b).
Proof. destruct b; simpl; auto using grows_ret, grows_alloc. Qed.

Lemma grows_member v name : grows (member v name).
Proof.
  intros h. unfold member.
  destruct v as [ | | | | | | | | l ]; try apply heap_ext_refl.
  destruct (h !! l) as [ [ | | | r | r ] | ]; try apply heap_ext_refl.
  - destruct (String.eqb name "body"); [apply grows_body_value | apply heap_ext_refl].
  - destruct (String.eqb name "body"); [apply grows_body_value | apply heap_ext_refl].
Qed.

Lemma grows_response_of v : grows (response_of v).
Proof.
  intros h. unfold response_of.
  destruct v as [ | | | | | | | | l ]; try apply heap_ext_refl.
  destruct (h !! l) as [ [ | | | r | r ] | ]; apply heap_ext_refl.
Qed.

Lemma grows_headers_object hs : grows (headers_object hs).
Proof. apply grows_alloc. Qed.

Lemma grows_stringify_text E v : grows (stringify_text E v).
Proof.
  intros h. unfold stringify_text, bind, lift_res, ret.
  pose proof (JSON_stringify_fuel h v).
  destruct (JSON_stringify h v); try done; apply heap_ext_refl.
Qed.

(** ** The object [logEntry] *)

Definition log_fields : list string :=
  ["timestamp"; "id"; "service"; "url"; "method"; "headers"; "body";
   "responseHeaders"; "responseBody"; "statusCode"; "error"; "durationMs"].

(** The values [JSON.stringify] writes as a member of an object *)
Definition written_in_json (v : value) : Prop :=
  match v with
  | VUndefined | VFunction _ => False
  | _ => True
  end.

Record entry_ok (c : api_call) (fields : list (string * value)) : Prop := {
  eo_keys : fields.*1 = log_fields;
  eo_status :
    truthy (c_statusCode c) = false -> truthy (c_response c) = false ->
    props_get "statusCode" fields = Some VUndefined;
  eo_responseBody :
    truthy (c_responseBody c) = false -> props_get "responseBody" fields = Some VUndefined;
  eo_error :
    truthy (c_error c) = true -> typeof (c_error c) <> TFunction ->
    exists v, props_get "error" fields = Some v /\ written_in_json v;
  eo_no_error :
    truthy (c_error c) = false -> props_get "error" fields = Some VUndefined
}.

Lemma bind_Date_now {B} (k : Z -> M world B) w : bind Date_now k w = k (w_now w) w.
Proof. reflexivity. Qed.

Definition after_uuid (w : world) : world :=
  {| w_heap := w_heap w; w_fs := w_fs w; w_stdout := w_stdout w;
     w_stderr := w_stderr w; w_now := w_now w; w_uuids := S (w_uuids w) |}.

Lemma bind_randomUUID E {B} (k : string -> M world B) w :
  bind (randomUUID E) k w = k (uuid_of E (w_uuids w)) (after_uuid w).
Proof. reflexivity. Qed.

Lemma quiet_after_uuid w : quiet w (after_uuid w).
Proof. split; try done. apply heap_ext_refl. Qed.

Lemma sat_ret {S A} (a : A) (s : S) (Q : A -> S -> Prop) Qe : Q a s -> sat (ret a s) Q Qe.
Proof. done. Qed.

(** One quiet step, followed by the rest *)
Lemma sat_step {A B} (m : M world A) (k : A -> M world B) w0 w (P : A -> Prop) Q :
  quiet w0 w ->
  sat (m w) (fun a w' => quiet w w' /\ P a) (fun _ w' => quiet w w') ->
  (forall a w', quiet w0 w' -> P a -> sat (k a w') Q (fun _ w'' => quiet w0 w'')) ->
  sat (bind m k w) Q (fun _ w'' => quiet w0 w'').
Proof.
  intros Hq Hm Hk. apply sat_bind. eapply sat_mono; [exact Hm | | ]; cbn beta.
  - intros a w' [Hq' Hp]. apply Hk; [by eapply quiet_trans | done].
  - intros e w' Hq'. by eapply quiet_trans.
Qed.

Lemma quiet_step_grows {A} (m : M heap A) w :
  grows m -> sat (on_heap m w) (fun _ w' => quiet w w' /\ True) (fun _ w' => quiet w w').
Proof.
  intros Hm. eapply sat_mono; [by apply grows_quiet | | ]; cbn beta; auto.
Qed.

Lemma step_responseBody c w :
  sat ((if truthy (c_responseBody c) then on_heap (sanitizeData (c_responseBody c))
        else ret VUndefined) w)
    (fun v w' => quiet w w' /\ (truthy (c_responseBody c) = false -> v = VUndefined))
    (fun _ w' => quiet w w').
Proof.
  destruct (truthy (c_responseBody c)).
  - eapply sat_mono; [apply grows_quiet, grows_sanitizeData | | ]; cbn beta; auto.
    intros; split; [done | discriminate].
  - split; [apply quiet_refl | done].
Qed.

Lemma step_statusCode c w :
  sat ((if truthy (c_statusCode c) then ret (c_statusCode c)
        else if truthy (c_response c) then on_heap (member (c_response c) "status")
             else ret VUndefined) w)
    (fun v w' => quiet w w' /\
       (truthy (c_statusCode c) = false -> truthy (c_response c) = false -> v = VUndefined))
    (fun _ w' => quiet w w').
Proof.
  destruct (truthy (c_statusCode c)).
  - split; [apply quiet_refl | discriminate].
  - destruct (truthy (c_response c)).
    + eapply sat_mono; [apply grows_quiet, grows_member | | ]; cbn beta; auto.
      intros; split; [done | discriminate].
    + split; [apply quiet_refl | done].
Qed.

Lemma step_error c w :
  sat ((if truthy (c_error c) then
          match c_error c with
          | VError message stack =>
              on_heap (alloc (OObj [("message", VStr message); ("stack", VStr stack)]))
          | e => ret e
          end
        else ret VUndefined) w)
    (fun v w' => quiet w w' /\
       ((truthy (c_error c) = true -> typeof (c_error c) <> TFunction -> written_in_json v) /\
        (truthy (c_error c) = false -> v = VUndefined)))
    (fun _ w' => quiet w w').
Proof.
  destruct (truthy (c_error c)) eqn:Ht.
  - destruct (c_error c); simpl in *;
      try (split; [apply quiet_refl | split; [done | discriminate]]).
    split; [ | split; [done | discriminate]].
    apply quiet_with_heap, heap_ext_app.
  - split; [apply quiet_refl | split; [discriminate | done]].
Qed.

Lemma step_responseHeaders c w :
  sat ((if truthy (c_response c)
        then on_heap (bind (response_of (c_response c))
                        (fun r => headers_object (rs_headers r)))
        else ret VUndefined) w)
    (fun v w' => quiet w w' /\ True)
    (fun _ w' => quiet w w').
Proof.
  destruct (truthy (c_response c)).
  - apply quiet_step_grows. apply grows_bind; [apply grows_response_of | ].
    intros r. apply grows_headers_object.
  - split; [apply quiet_refl | done].
Qed.

Lemma make_logEntry_spec E c w :
  sat (make_logEntry E c w)
    (fun v w' =>
       quiet w w' /\
       exists l fields,
         v = VRef l /\ w_heap w' !! l = Some (OObj fields) /\ entry_ok c fields)
    (fun _ w' => quiet w w').
Proof.
  unfold make_logEntry. rewrite bind_Date_now, bind_randomUUID.
  pose proof (quiet_after_uuid w) as Hq.
  eapply sat_step; [exact Hq | apply quiet_step_grows, grows_sanitizeData | ].
  intros headers w2 Hq2 _.
  eapply sat_step; [exact Hq2 | apply quiet_step_grows, grows_sanitizeData | ].
  intros body w3 Hq3 _.
  eapply sat_step; [exact Hq3 | apply step_responseHeaders | ].
  intros responseHeaders w4 Hq4 _.
  eapply sat_step; [exact Hq4 | apply step_responseBody | ].
  intros responseBody w5 Hq5 HresponseBody.
  eapply sat_step; [exact Hq5 | apply step_statusCode | ].
  intros statusCode w6 Hq6 HstatusCode.
  eapply sat_step; [exact Hq6 | apply step_error | ].
  intros error w7 Hq7 [Herror Hnoerror].
  unfold on_heap, alloc. cbn [sat]. split.
  - eapply quiet_trans; [exact Hq7 | ]. apply quiet_with_heap, heap_ext_app.
  - eexists _, _. split; [reflexivity | ]. split.
    + cbn [w_heap with_heap]. by apply list_lookup_middle.
    + split; cbn.
      * reflexivity.
      * intros H1 H2. by rewrite HstatusCode.
      * intros H1. by rewrite HresponseBody.
      * intros H1 H2. eexists. split; [reflexivity | auto].
      * intros H1. by rewrite Hnoerror.
Qed.

(** ** The serialisation of [logEntry] *)

Lemma props_get_None {A} k (ps : list (string * A)) : k ∉ ps.*1 -> props_get k ps = None.
Proof.
  induction ps as [ | [k' v] ps IH ]; simpl; [done | ].
  intros Hk. apply not_elem_of_cons in Hk as [Hne Hk].
  destruct (String.eqb_spec k k'); [done | auto].
Qed.

Lemma props_get_elem {A} k (ps : list (string * A)) x :
  props_get k ps = Some x -> k ∈ ps.*1.
Proof.
  induction ps as [ | [k' v] ps IH ]; simpl; [done | ].
  destruct (String.eqb_spec k k') as [-> | ?]; intros H.
  - left.
  - right. auto.
Qed.

Lemma props_get_set_eq {A} k (x : A) ps : props_get k (props_set k x ps) = Some x.
Proof.
  induction ps as [ | [k' v] ps IH ]; simpl.
  - by rewrite String.eqb_refl.
  - destruct (String.eqb_spec k k') as [-> | Hne]; simpl.
    + by rewrite String.eqb_refl.
    + by destruct (String.eqb_spec k k').
Qed.

Lemma props_get_set_ne {A} k q (x : A) ps :
  q <> k -> props_get q (props_set k x ps) = props_get q ps.
Proof.
  intros Hne. induction ps as [ | [k' v] ps IH ]; simpl.
  - by destruct (String.eqb_spec q k).
  - destruct (String.eqb_spec k k') as [-> | Hne']; simpl.
    + by destruct (String.eqb_spec q k').
    + destruct (String.eqb_spec q k'); [done | exact IH].
Qed.

Lemma ser_members_sublist f get ks : forall ms,
  ser_members f get ks = Ok ms -> sublist (ms.*1) ks.
Proof.
  induction ks as [ | k ks IH ]; simpl; intros ms.
  - intros [= <-]. constructor.
  - destruct (f (get k)) as [ j | | ]; simpl; try done.
    destruct (ser_members f get ks) as [ ms' | | ]; simpl; try done.
    specialize (IH ms' eq_refl).
    intros [= <-]. destruct j as [ j | ]; simpl; by constructor.
Qed.

Lemma ser_members_lookup f get ks : forall ms,
  ser_members f get ks = Ok ms -> NoDup ks ->
  forall k, k ∈ ks -> exists r, f (get k) = Ok r /\ props_get k ms = r.
Proof.
  induction ks as [ | k0 ks IH ]; intros ms Hser Hnd k Hk.
  - by apply elem_of_nil in Hk.
  - simpl in Hser. apply NoDup_cons in Hnd as [Hk0 Hnd].
    destruct (f (get k0)) as [ j0 | | ] eqn:Hf; simpl in Hser; try done.
    destruct (ser_members f get ks) as [ ms' | | ] eqn:Hrest; simpl in Hser; try done.
    injection Hser as <-.
    pose proof (ser_members_sublist _ _ _ _ Hrest) as Hsub.
    assert (Hk0' : props_get k0 ms' = None).
    { apply props_get_None. intros Hin. apply Hk0. by eapply elem_of_sublist. }
    apply elem_of_cons in Hk as [-> | Hk].
    + exists j0. split; [done | ].
      destruct j0 as [ j | ]; simpl; [by rewrite String.eqb_refl | done].
    + destruct (IH ms' eq_refl Hnd k Hk) as (r & Hr & Hget).
      exists r. split; [done | ].
      destruct j0 as [ j | ]; simpl; [ | done ].
      destruct (String.eqb_spec k k0) as [-> | ?]; [done | done].
Qed.

Lemma serialize_undefined n h stack : serialize n h stack VUndefined = Ok None.
Proof. by destruct n. Qed.

Lemma rbind_Ok {A B} (r : res A) (k : A -> res B) b :
  rbind r k = Ok b -> exists a, r = Ok a /\ k a = Ok b.
Proof. destruct r; simpl; [eauto | done | done]. Qed.

Lemma serialize_written n h stack v :
  written_in_json v -> serialize n h stack v <> Ok None.
Proof.
  destruct v as [ | | | [ | ] | | | | | l ]; try done; destruct n; try done.
  intros _. cbn [serialize]. case_bool_decide; [done | ].
  destruct (h !! l) as [ [ | | | | ] | ]; try done;
    intros Hr; apply rbind_Ok in Hr as (? & _ & ?); done.
Qed.

(** The document written for an object with distinct member names. *)
Lemma stringify_object h l fields text :
  h !! l = Some (OObj fields) -> NoDup (fields.*1) ->
  JSON_stringify h (VRef l) = Ok text ->
  exists ms,
    text = Some (JObj ms) /\ sublist (ms.*1) (fields.*1) /\
    forall k v, props_get k fields = Some v ->
      (v = VUndefined -> props_get k ms = None) /\
      (written_in_json v -> is_Some (props_get k ms)).
Proof.
  intros Hl Hnd. unfold JSON_stringify. cbn [serialize].
  rewrite bool_decide_eq_false_2 by (by intros ?%elem_of_nil). rewrite Hl.
  rewrite remove_dups_NoDup by done.
  intros H. apply rbind_Ok in H as (ms & Hser & [= <-]).
  exists ms. split; [done | ]. split; [by eapply ser_members_sublist | ].
  intros k v Hk.
  destruct (ser_members_lookup _ _ _ _ Hser Hnd k) as (r & Hr & Hget).
  { by eapply props_get_elem. }
  rewrite Hk in Hr. cbn in Hr. split.
  - intros ->. rewrite serialize_undefined in Hr. congruence.
  - intros Hw. destruct r as [ j | ]; [by rewrite Hget | ].
    by apply serialize_written in Hr.
Qed.

(** ** [logApiCall] *)

Definition content_of (f : fs) (p : string) : string :=
  from_option f_content "" (props_get p (fs_files f)).

(** The members of a written entry, by the argument of the call *)
Record entry_members (c : api_call) (ms : list (string * json)) : Prop := {
  em_names : sublist (ms.*1) log_fields;
  em_status :
    truthy (c_statusCode c) = false -> truthy (c_response c) = false ->
    props_get "statusCode" ms = None;
  em_responseBody :
    truthy (c_responseBody c) = false -> props_get "responseBody" ms = None;
  em_error :
    truthy (c_error c) = true -> typeof (c_error c) <> TFunction ->
    is_Some (props_get "error" ms);
  em_no_error :
    truthy (c_error c) = false -> props_get "error" ms = None
}.

(** One entry was appended to one file, and nothing was reported. *)
Definition written (E : env) (c : api_call) (w w' : world) : Prop :=
  exists p ms,
    content_of (w_fs w') p = content_of (w_fs w) p +:+ json_text E (JObj ms) +:+ newline /\
    (forall q, q <> p -> props_get q (fs_files (w_fs w')) = props_get q (fs_files (w_fs w))) /\
    w_stderr w' = w_stderr w /\
    entry_members c ms.

(** No file was touched, and one failure was reported. *)
Definition reported (w w' : world) : Prop :=
  fs_files (w_fs w') = fs_files (w_fs w) /\
  exists e, w_stderr w' = w_stderr w ++ [("Error writing API log:", e)].

(** What [logApiCall] leaves alone in any case *)
Record log_frame (E : env) (w w' : world) : Prop := {
  frame_stdout : w_stdout w' = w_stdout w;
  frame_now : w_now w' = w_now w;
  frame_heap : heap_ext (w_heap w) (w_heap w');
  frame_readonly : fs_readonly (w_fs w') = fs_readonly (w_fs w);
  frame_dirs :
    fs_dirs (w_fs w') = fs_dirs (w_fs w) \/
    fs_dirs (w_fs w') = fs_dirs (w_fs w) ++ [API_LOGS_PATH E]
}.

Lemma with_heap_same w : with_heap w (w_heap w) = w.
Proof. by destruct w. Qed.

Lemma with_fs_same w : with_fs w (w_fs w) = w.
Proof. by destruct w. Qed.

(** The world after the directory was made (or found) *)
Record dir_made (E : env) (w w' : world) : Prop := {
  dm_heap : w_heap w' = w_heap w;
  dm_stdout : w_stdout w' = w_stdout w;
  dm_stderr : w_stderr w' = w_stderr w;
  dm_now : w_now w' = w_now w;
  dm_files : fs_files (w_fs w') = fs_files (w_fs w);
  dm_readonly : fs_readonly (w_fs w') = fs_readonly (w_fs w);
  dm_dirs :
    fs_dirs (w_fs w') = fs_dirs (w_fs w) \/
    fs_dirs (w_fs w') = fs_dirs (w_fs w) ++ [API_LOGS_PATH E]
}.

Lemma dir_made_refl E w : dir_made E w w.
Proof. split; auto. Qed.

Lemma ensureApiLogsDirectoryExists_spec E w :
  sat (ensureApiLogsDirectoryExists E w)
    (fun _ w' => dir_made E w w') (fun _ w' => w' = w).
Proof.
  unfold ensureApiLogsDirectoryExists, bind, on_fs, get_state. rewrite with_fs_same.
  destruct (existsSync (w_fs w) (API_LOGS_PATH E)); cbn [negb].
  - apply dir_made_refl.
  - unfold mkdirSync. destruct (is_readonly (w_fs w) (API_LOGS_PATH E)).
    + cbn. apply with_fs_same.
    + case_bool_decide; cbn.
      * rewrite with_fs_same. apply dir_made_refl.
      * split; cbn; auto.
Qed.

Lemma getApiLogFilePath_spec E w :
  sat (getApiLogFilePath E w)
    (fun _ w' => dir_made E w w') (fun _ w' => w' = w).
Proof.
  unfold getApiLogFilePath. apply sat_bind.
  eapply sat_mono; [apply ensureApiLogsDirectoryExists_spec | | done]. cbn beta.
  intros _ w' Hdm. unfold getCurrentDate, bind, Date_now.
  by destruct (local_date E (w_now w')) as [[year month] day].
Qed.

Lemma appendFileSync_spec now p data f :
  sat (appendFileSync now p data f)
    (fun _ f' =>
       fs_dirs f' = fs_dirs f /\ fs_readonly f' = fs_readonly f /\
       content_of f' p = content_of f p +:+ data /\
       forall q, q <> p -> props_get q (fs_files f') = props_get q (fs_files f))
    (fun _ f' => f' = f).
Proof.
  unfold appendFileSync. destruct (is_readonly f p); [done | ].
  destruct (negb _); [done | ]. cbn. repeat split.
  - unfold content_of. cbn. rewrite props_get_set_eq. cbn.
    by destruct (props_get p (fs_files f)).
  - intros q Hq. by apply props_get_set_ne.
Qed.

Lemma log_fields_NoDup : NoDup log_fields.
Proof. apply NoDup_ListNoDup. repeat constructor; cbn; intuition discriminate. Qed.

Lemma entry_members_of c fields ms :
  entry_ok c fields ->
  sublist (ms.*1) (fields.*1) ->
  (forall k v, props_get k fields = Some v ->
     (v = VUndefined -> props_get k ms = None) /\
     (written_in_json v -> is_Some (props_get k ms))) ->
  entry_members c ms.
Proof.
  intros [Hkeys Hst Hrb Herr Hnoerr] Hsub Hget. split.
  - by rewrite <- Hkeys.
  - intros H1 H2. by apply (Hget _ _ (Hst H1 H2)).
  - intros H1. by apply (Hget _ _ (Hrb H1)).
  - intros H1 H2. destruct (Herr H1 H2) as (v & Hv & Hw). by apply (Hget _ _ Hv).
  - intros H1. by apply (Hget _ _ (Hnoerr H1)).
Qed.

Lemma logApiCall_spec E c w :
  exists w',
    logApiCall E c w = Ret tt w' /\
    log_frame E w w' /\
    (written E c w w' \/ reported w w').
Proof.
  unfold logApiCall, try_catch.
  (* the failure path: the handler *)
  assert (Hfail : forall e w1,
            log_frame E w w1 -> w_stderr w1 = w_stderr w ->
            fs_files (w_fs w1) = fs_files (w_fs w) ->
            exists w',
              console_error "Error writing API log:" e w1 = Ret tt w' /\
              log_frame E w w' /\ (written E c w w' \/ reported w w')).
  { intros e w1 [] Herr Hfiles. eexists. split; [reflexivity | ]. split.
    - by split.
    - right. split; [done | ]. exists e. cbn. by rewrite Herr. }
  assert (Hquiet : forall w1, quiet w w1 -> log_frame E w w1).
  { intros w1 []. split; try done; rewrite ?quiet_fs0; auto. }
  unfold bind at 1.
  pose proof (make_logEntry_spec E c w) as Hmk.
  destruct (make_logEntry E c w) as [ logEntry w1 | e w1 | ]; cbn [sat] in Hmk; [ | | done ].
  2: { destruct (Hquiet w1 Hmk). destruct Hmk. apply Hfail; [by split | done | congruence]. }
  destruct Hmk as (Hq1 & l & fields & -> & Hl & Hok).
  unfold bind at 1.
  pose proof (getApiLogFilePath_spec E w1) as Hpath.
  destruct (getApiLogFilePath E w1) as [ logPath w2 | e w2 | ]; cbn [sat] in Hpath; [ | | done ].
  2: { subst w2. destruct Hq1. apply Hfail; [by apply Hquiet; split | done | congruence]. }
  assert (Hframe2 : log_frame E w w2).
  { destruct Hq1 as [Hfs ? ? ? ?], Hpath as [Hh ? ? ? ? Hro Hd]. split.
    - congruence.
    - congruence.
    - by rewrite Hh.
    - by rewrite Hro, Hfs.
    - by rewrite <- Hfs. }
  assert (Herr2 : w_stderr w2 = w_stderr w) by (destruct Hq1, Hpath; congruence).
  assert (Hfiles2 : fs_files (w_fs w2) = fs_files (w_fs w)) by (destruct Hq1, Hpath; congruence).
  assert (Hl2 : w_heap w2 !! l = Some (OObj fields)) by (destruct Hpath; congruence).
  unfold bind at 1, on_heap, stringify_text. unfold bind at 1, lift_res.
  pose proof (JSON_stringify_fuel (w_heap w2) (VRef l)) as Hfuel.
  destruct (JSON_stringify (w_heap w2) (VRef l)) as [ text | e | ] eqn:Hser; [ | | done ].
  2: { rewrite with_heap_same. by apply Hfail. }
  cbn [ret]. rewrite with_heap_same.
  destruct (stringify_object (w_heap w2) l fields text Hl2) as (ms & -> & Hsub & Hget);
    [destruct Hok as [Hkeys _ _ _ _]; rewrite Hkeys; apply log_fields_NoDup | done | ].
  rewrite bind_Date_now. unfold on_fs.
  pose proof (appendFileSync_spec (w_now w2) logPath
                (json_text E (JObj ms) +:+ String Str.nl "") (w_fs w2)) as Happ.
  destruct (appendFileSync _ _ _ _) as [ [] f3 | e f3 | ]; cbn [sat] in Happ; [ | | done ].
  2: { subst f3. rewrite with_fs_same. by apply Hfail. }
  destruct Happ as (Hdirs & Hro & Hcontent & Hothers).
  eexists. split; [reflexivity | ]. split.
  - destruct Hframe2. split; cbn; try done; congruence.
  - left. exists logPath, ms. cbn. split; [ | split; [ | split ] ].
    + rewrite Hcontent. unfold content_of. by rewrite Hfiles2.
    + intros q Hq. rewrite Hothers by done. by rewrite Hfiles2.
    + done.
    + by eapply entry_members_of.
Qed.

(** C3.  [logApiCall] never raises: it returns, having either
    appended one entry to one file, or touched no file and reported one
    failure with [console.error].  In both cases the standard output, the
    clock, the existing objects and the read-only paths are as before; the
    only other change it can leave is the logs directory, made before the
    entry is serialised and appended. *)
Theorem logApiCall_never_raises (E : env) (c : api_call) (w : world) :
  exists w',
    logApiCall E c w = Ret tt w' /\
    log_frame E w w' /\
    (written E c w w' \/ reported w w').
Proof. apply logApiCall_spec. Qed.

(** A failure that is not without effect: the logs directory does not exist
    and the error to log refers to itself; the directory is made, then
    [JSON.stringify] throws, which is caught and reported; the directory
    stays. *)
Lemma logApiCall_failure_leaves_directory :
  exists w',
    logApiCall Demo.E Demo.cyclic_call Demo.fresh = Ret tt w' /\
    w_stderr w' =
      [("Error writing API log:", TypeError "Converting circular structure to JSON")] /\
    fs_files (w_fs w') = [] /\
    fs_dirs (w_fs Demo.fresh) = [] /\
    fs_dirs (w_fs w') = [Demo.logs] /\
    w_fs w' <> w_fs Demo.fresh.
Proof.
  eexists. split; [vm_compute; reflexivity | ].
  repeat split; try (vm_compute; reflexivity). vm_compute. discriminate.
Qed.

(** The same when the append fails. *)
Example logApiCall_append_fails :
  exists w',
    logApiCall Demo.E Demo.call_record Demo.locked = Ret tt w' /\
    w_stderr w' = [("Error writing API log:", fs_error "EACCES" Demo.today)] /\
    fs_files (w_fs w') = [] /\
    fs_dirs (w_fs w') = [Demo.logs].
Proof.
  eexists. split; [vm_compute; reflexivity | ].
  repeat split; vm_compute; reflexivity.
Qed.

(** ** The wrappers *)




Lemma parse_items_grows js :
  Forall (fun j => forall h, exists new v, JSON_parse j h = (h ++ new, v)) js ->
  forall h, exists new vs, parse_items JSON_parse js h = (h ++ new, vs).
Proof.
  induction 1 as [ | j js Hj _ IH ]; intros h.
  - exists [], []. simpl. by rewrite app_nil_r.
  - destruct (Hj h) as (n1 & v & Hp1). destruct (IH (h ++ n1)) as (n2 & vs & Hp2).
    exists (n1 ++ n2), (v :: vs). simpl. by rewrite Hp1, Hp2, <- app_assoc.
Qed.

Lemma parse_members_grows ms :
  Forall (fun m => forall h, exists new v, JSON_parse m.2 h = (h ++ new, v)) ms ->
  forall h, exists new kvs, parse_members JSON_parse ms h = (h ++ new, kvs).
Proof.
  induction 1 as [ | [k j] ms Hj _ IH ]; intros h.
  - exists [], []. simpl. by rewrite app_nil_r.
  - destruct (Hj h) as (n1 & v & Hp1). destruct (IH (h ++ n1)) as (n2 & kvs & Hp2).
    simpl in Hp1.
    exists (n1 ++ n2), ((k, v) :: kvs). simpl. by rewrite Hp1, Hp2, <- app_assoc.
Qed.

Lemma JSON_parse_grows j : forall h, exists new v, JSON_parse j h = (h ++ new, v).
Proof.
  induction j as [ | b | z | s | js IH | ms IH ] using json_ind'; intros h.
  1-4: exists []; eexists; simpl; by rewrite app_nil_r.
  - destruct (parse_items_grows js IH h) as (new & vs & Hp).
    eexists (new ++ [_]), _. simpl. rewrite Hp, app_assoc. reflexivity.
  - destruct (parse_members_grows ms IH h) as (new & kvs & Hp).
    eexists (new ++ [_]), _. simpl. rewrite Hp, app_assoc. reflexivity.
Qed.

Lemma grows_JSON_parse_text text : grows (JSON_parse_text text).
Proof.
  intros h. unfold JSON_parse_text. destruct text as [ j | ]; [ | apply heap_ext_refl ].
  destruct (JSON_parse_grows j h) as (new & v & ->). apply heap_ext_app.
Qed.

Lemma read_body_spec E b w :
  sat (read_body E b w) (fun _ w' => quiet w w') (fun _ w' => quiet w w').
Proof.
  unfold read_body. apply sat_bind.
  assert (Hrest : forall text,
            sat ((if Str.nonempty text &&
                     (Str.startsWith text "{" || Str.startsWith text "[")
                  then match json_of_text E text with
                       | Some j => on_heap (JSON_parse_text (Some j))
                       | None => throw (SyntaxError "Unexpected token in JSON")
                       end
                  else ret (VStr text)) w)
              (fun _ w' => quiet w w') (fun _ w' => quiet w w')).
  { intros text. destruct (_ && _); [ | apply quiet_refl ].
    destruct (json_of_text E text); [ | apply quiet_refl ].
    apply grows_quiet, grows_JSON_parse_text. }
  destruct b; cbn [sat ret throw]; auto using quiet_refl.
Qed.

Definition is_bigint (v : value) : bool :=
  match v with
  | VBigInt _ => true
  | _ => false
  end.

Lemma JSON_parse_not_bigint j h h' v : JSON_parse j h = (h', v) -> is_bigint v = false.
Proof.
  destruct j; simpl; try (by intros [= _ <-]);
    repeat (match goal with |- context [let '(_, _) := ?x in _] => destruct x end);
    by intros [= _ <-].
Qed.

Lemma read_body_not_bigint E b w :
  sat (read_body E b w) (fun v _ => is_bigint v = false) (fun _ _ => True).
Proof.
  unfold read_body. apply sat_bind.
  assert (Hrest : forall text,
            sat ((if Str.nonempty text &&
                     (Str.startsWith text "{" || Str.startsWith text "[")
                  then match json_of_text E text with
                       | Some j => on_heap (JSON_parse_text (Some j))
                       | None => throw (SyntaxError "Unexpected token in JSON")
                       end
                  else ret (VStr text)) w)
              (fun v _ => is_bigint v = false) (fun _ _ => True)).
  { intros text. destruct (_ && _); [ | done ].
    destruct (json_of_text E text) as [ j | ]; [ | done ].
    unfold on_heap, JSON_parse_text.
    destruct (JSON_parse j (w_heap w)) as [h' v] eqn:Hp. cbn [sat].
    by eapply JSON_parse_not_bigint. }
  destruct b; cbn [sat ret throw]; auto.
Qed.

(** The beginning of [loggedFetch]: the object of the headers is made, and
    the body is read.  The underlying [fetch] is called in the world
    [w0]. *)
Lemma loggedFetch_prologue E (rq : request) (w : world) :
  exists body w0,
    quiet w w0 /\ is_bigint body = false /\
    forall (B : Type) (k : value -> value -> M world B),
      bind (on_heap (headers_object (rq_headers rq)))
        (fun headers =>
           bind (match rq_body rq with
                 | NoBody => ret VUndefined
                 | b => try_catch (read_body E b)
                          (fun _ => ret (VStr "[Could not read request body]"))
                 end) (fun body => k headers body)) w =
      k (VRef (length (w_heap w))) body w0.
Proof.
  unfold bind at 1. cbn [on_heap headers_object alloc].
  set (wa := with_heap w _).
  assert (Hqa : quiet w wa) by apply quiet_with_heap, heap_ext_app.
  assert (Hread : forall b, exists body w0,
             quiet w w0 /\ is_bigint body = false /\
             try_catch (read_body E b)
               (fun _ => ret (VStr "[Could not read request body]")) wa = Ret body w0).
  { intros b. unfold try_catch. pose proof (read_body_spec E b wa) as Hb.
    pose proof (read_body_not_bigint E b wa) as Hv.
    destruct (read_body E b wa); cbn [sat] in Hb, Hv; [ | | done ];
      eexists _, _; (split; [by eapply quiet_trans | ]); (split; [ | reflexivity ]); done. }
  destruct (rq_body rq) eqn:Hbody.
  - exists VUndefined, wa. split; [done | ]. split; [done | ]. intros B k. by unfold bind.
  - destruct (Hread (Readable text)) as (body & w0 & Hq & Hbig & Hrun).
    exists body, w0. split; [done | ]. split; [done | ]. intros B k. unfold bind.
    by rewrite Hrun.
  - destruct (Hread Unreadable) as (body & w0 & Hq & Hbig & Hrun).
    exists body, w0. split; [done | ]. split; [done | ]. intros B k. unfold bind.
    by rewrite Hrun.
Qed.

(** Heap computations that return, and only add to the heap *)
Definition returns {A} (m : M heap A) : Prop :=
  forall h, exists a h', m h = Ret a h' /\ heap_ext h h'.

Lemma returns_ret {A} (a : A) : returns (ret a).
Proof. intros h. exists a, h. split; [done | apply heap_ext_refl]. Qed.

Lemma returns_bind {A B} (m : M heap A) (k : A -> M heap B) :
  returns m -> (forall a, returns (k a)) -> returns (bind m k).
Proof.
  intros Hm Hk h. destruct (Hm h) as (a & h1 & Hrun & Hext).
  destruct (Hk a h1) as (b & h2 & Hrun2 & Hext2).
  exists b, h2. unfold bind. rewrite Hrun. split; [done | by eapply heap_ext_trans].
Qed.

Lemma returns_alloc o : returns (alloc o).
Proof. intros h. eexists _, _. split; [reflexivity | apply heap_ext_app]. Qed.

Lemma returns_body_value b : returns (body_value b).
Proof. destruct b; simpl; auto using returns_ret, returns_alloc. Qed.

Lemma returns_member v name : truthy v = true -> returns (member v name).
Proof.
  intros Hv h. unfold member.
  destruct v as [ | | | | | | | | l ]; try done;
    try (eexists _, _; split; [reflexivity | apply heap_ext_refl]).
  destruct (h !! l) as [ [ | | | r | r ] | ];
    try (eexists _, _; split; [reflexivity | apply heap_ext_refl]).
  - destruct (String.eqb name "body"); [apply returns_body_value | ].
    eexists _, _; split; [reflexivity | apply heap_ext_refl].
  - destruct (String.eqb name "body"); [apply returns_body_value | ].
    eexists _, _; split; [reflexivity | apply heap_ext_refl].
Qed.

Lemma returns_extractRequestDetails args : returns (extractRequestDetails args).
Proof.
  induction args as [ | arg args IH ]; [apply returns_ret | ].
  cbn [extractRequestDetails].
  destruct (truthy arg) eqn:Htruthy; cbn [andb]; [ | exact IH ].
  destruct (is_object arg); [ | exact IH ].
  apply returns_bind; [intros h; exists h, h; split; [done | apply heap_ext_refl] | ].
  intros h0.
  assert (Hduck : returns
            (bind (member arg "url") (fun url =>
             bind (member arg "method") (fun method =>
             if truthy url && truthy method
             then bind (member arg "headers") (fun headers =>
                  bind (member arg "body") (fun body =>
                  ret (Some {| d_url := url; d_method := method;
                               d_headers := headers; d_body := body |})))
             else extractRequestDetails args)))).
  { apply returns_bind; [by apply returns_member | intros url].
    apply returns_bind; [by apply returns_member | intros method].
    destruct (truthy url && truthy method); [ | exact IH ].
    apply returns_bind; [by apply returns_member | intros headers].
    apply returns_bind; [by apply returns_member | intros body].
    apply returns_ret. }
  destruct arg as [ | | | | | | | | l ]; try exact Hduck.
  destruct (h0 !! l) as [ [ | | | r | r ] | ]; try exact Hduck.
  apply returns_bind; [apply returns_alloc | intros headers].
  apply returns_bind; [by apply returns_member | intros body].
  apply returns_ret.
Qed.

(** The entry of the example: one line in today's file. *)
Example loggedFetch_throws_example :
  exists w',
    loggedFetch Demo.E Demo.failing_fetch Demo.request Demo.w =
      Throw Demo.network_error w' /\
    content_of (w_fs w') Demo.today =
      content_of (w_fs Demo.w) Demo.today +:+
      "{'timestamp':'T1000','id':'uuid-0','service':'openai','url':'https://api.openai.com/v1/chat','method':'POST','headers':{'authorization':'***REDACTED***'},'body':{},'error':{'message':'fetch failed','stack':'at fetch'},'durationMs':0}
".
Proof. eexists. split; vm_compute; reflexivity. Qed.


(** When the value thrown is falsy, the entry written has no [error]
    member. *)
Example falsy_error_not_logged :
  exists w',
    withApiLogging Demo.E (fun _ => throw (VNum (NInt 0))) "svc" [] Demo.w =
      Throw (VNum (NInt 0)) w' /\
    content_of (w_fs w') Demo.today =
      content_of (w_fs Demo.w) Demo.today +:+
      "{'timestamp':'T1000','id':'uuid-0','service':'svc','url':'unknown','method':'unknown','durationMs':0}
".
Proof. eexists. split; vm_compute; reflexivity. Qed.

(** * Service classification *)

(** The rules of the specification, in the order they are checked: the
    patterns looked for in the host name, and the service. *)
Definition service_rules : list (list string * string) :=
  [ (["anthropic.com"; "claude"], "anthropic");
    (["openai.com"; "oai"], "openai");
    (["anthropic-bedrock"], "anthropic-bedrock");
    (["vertex-ai"], "anthropic-vertex");
    (["amazonaws.com"], "aws");
    (["google"], "google") ].

Definition first_match (hostname : string) : string :=
  match List.find (fun rule => existsb (Str.includes hostname) rule.1) service_rules with
  | Some rule => rule.2
  | None => "unknown"
  end.

Lemma service_of_hostname_first_match hostname :
  service_of_hostname hostname = first_match hostname.
Proof.
  unfold service_of_hostname, first_match, service_rules. cbn [List.find existsb fst snd].
  repeat (match goal with
          | |- context [Str.includes hostname ?p] => destruct (Str.includes hostname p)
          end; cbn [orb]; try reflexivity).
Qed.

(** The URLs of the specification, with their host names and services *)
Definition service_examples : list (string * string * string) :=
  [ ("https://api.anthropic.com/v1/x", "api.anthropic.com", "anthropic");
    ("https://api.openai.com/v1/x", "api.openai.com", "openai");
    ("https://s3.amazonaws.com/bucket", "s3.amazonaws.com", "aws");
    ("https://example.com", "example.com", "unknown") ].

(** C5.  [getServiceFromUrl] depends on the host name of the URL only, does
    not touch the state, and its answer is that of the first rule, in the
    order of the specification, one of whose patterns occurs in the host
    name, [unknown] when there is none; it raises the [TypeError] of
    [new URL] when the platform does not parse the URL.  The four URLs of
    the specification, with the host names they have, are classified as it
    says. *)
Theorem getServiceFromUrl_first_match (E : env) :
  (forall (S : Type) (url : string) (s : S),
     getServiceFromUrl E url s =
     match URL_parse E url with
     | Some u => Ret (first_match (u_hostname u)) s
     | None => Throw (TypeError "Invalid URL") s
     end) /\
  (forall (S : Type) (s : S) url hostname service u,
     (url, hostname, service) ∈ service_examples ->
     URL_parse E url = Some u -> u_hostname u = hostname ->
     getServiceFromUrl E url s = Ret service s).
Proof.
  assert (Hfirst : forall (S : Type) (url : string) (s : S),
            getServiceFromUrl E url s =
            match URL_parse E url with
            | Some u => Ret (first_match (u_hostname u)) s
            | None => Throw (TypeError "Invalid URL") s
            end).
  { intros S url s. unfold getServiceFromUrl.
    destruct (URL_parse E url) as [ u | ]; [ | done ].
    by rewrite service_of_hostname_first_match. }
  split; [exact Hfirst | ].
  intros S s url hostname service u Hin Hparse Hhost. rewrite Hfirst, Hparse, Hhost.
  unfold service_examples in Hin.
  repeat (apply elem_of_cons in Hin as [[= -> -> ->] | Hin]; [reflexivity | ]).
  by apply elem_of_nil in Hin.
Qed.

(** The four URLs, as the parser of the examples reads them *)
Lemma getServiceFromUrl_first_match_witness :
  getServiceFromUrl Demo.E "https://api.anthropic.com/v1/x" tt = Ret "anthropic" tt /\
  getServiceFromUrl Demo.E "https://api.openai.com/v1/x" tt = Ret "openai" tt /\
  getServiceFromUrl Demo.E "https://s3.amazonaws.com/bucket" tt = Ret "aws" tt /\
  getServiceFromUrl Demo.E "https://example.com" tt = Ret "unknown" tt.
Proof.
  pose proof (proj2 (getServiceFromUrl_first_match Demo.E) unit tt) as Hex.
  split; [ | split; [ | split ] ].
  - eapply (Hex _ "api.anthropic.com"); [repeat constructor | reflexivity | reflexivity].
  - eapply (Hex _ "api.openai.com"); [repeat constructor | reflexivity | reflexivity].
  - eapply (Hex _ "s3.amazonaws.com"); [repeat constructor | reflexivity | reflexivity].
  - eapply (Hex _ "example.com"); [repeat constructor | reflexivity | reflexivity].
Defined.

(** A URL without host name (as [mailto:] URLs are for the platform) is of
    no service, whatever the rest of the URL holds. *)
Example getServiceFromUrl_no_host :
  forall E url u (s : unit),
    URL_parse E url = Some u -> u_hostname u = "" ->
    getServiceFromUrl E url s = Ret "unknown" s.
Proof.
  intros E url u s Hparse Hhost.
  by rewrite (proj1 (getServiceFromUrl_first_match E)), Hparse, Hhost.
Qed.

(** * The [clear] subcommand *)

Lemma lower_y c : Str.lower c = "y"%char -> c = "y"%char \/ c = "Y"%char.
Proof.
  destruct c as [b0 b1 b2 b3 b4 b5 b6 b7].
  destruct b0, b1, b2, b3, b4, b5, b6, b7; vm_compute; intros H;
    first [discriminate H | by left | by right].
Qed.

Lemma toLowerCase_y s : Str.toLowerCase s = "y" -> s = "y" \/ s = "Y".
Proof.
  destruct s as [ | c [ | c' s' ] ]; try done.
  cbn. intros [= H]. apply lower_y in H as [-> | ->]; auto.
Qed.

Definition after_prompt (E : env) (w : world) : world :=
  {| w_heap := w_heap w; w_fs := w_fs w;
     w_stdout := w_stdout w ++
       [chalk_yellow E "Are you sure you want to clear all API logs? (y/N): "];
     w_stderr := w_stderr w; w_now := w_now w; w_uuids := w_uuids w |}.

(** C8.  When the answer to the confirmation is neither [y] nor [Y],
    [clearLogs] returns the cancellation message, and the world it leaves is
    the one it started in but for the prompt it printed: no file is removed
    and none is changed.  Hence a run that changes the file system was
    answered [y] or [Y]. *)
Theorem clearLogs_declined (E : env) (answer : string) (w : world) :
  (answer <> "y" -> answer <> "Y" ->
   clearLogs E answer w = Ret (chalk_yellow E "Operation cancelled") (after_prompt E w)) /\
  (forall message w',
     clearLogs E answer w = Ret message w' -> w_fs w' <> w_fs w ->
     answer = "y" \/ answer = "Y").
Proof.
  assert (Hno : String.eqb (Str.toLowerCase answer) "y" = false ->
                clearLogs E answer w =
                Ret (chalk_yellow E "Operation cancelled") (after_prompt E w)).
  { intros H. unfold clearLogs, bind, print. by rewrite H. }
  split.
  - intros Hy HY. apply Hno. apply String.eqb_neq. intros H.
    apply toLowerCase_y in H as [? | ?]; done.
  - intros message w' Hr Hchanged.
    destruct (String.eqb_spec (Str.toLowerCase answer) "y") as [H | H].
    + by apply toLowerCase_y.
    + rewrite Hno in Hr by done. injection Hr as _ <-. by destruct Hchanged.
Qed.

Lemma clearLogs_declined_witness :
  clearLogs Demo.E "n" Demo.w =
  Ret (chalk_yellow Demo.E "Operation cancelled") (after_prompt Demo.E Demo.w).
Proof.
  apply (clearLogs_declined Demo.E "n" Demo.w); discriminate.
Defined.

(** An affirmative answer removes the two log files of the example and
    keeps the third file. *)
Example clearLogs_confirmed_example :
  exists w',
    clearLogs Demo.E "Y" Demo.w =
      Ret (chalk_green Demo.E "Successfully deleted 2 log files") w' /\
    (fs_files (w_fs w')).*1 = [path_join Demo.logs "notes.txt"].
Proof. eexists. split; vm_compute; reflexivity. Qed.

(** * Reading a log file *)

Fixpoint no_char (c : ascii) (s : string) : bool :=
  match s with
  | EmptyString => true
  | String a s' => negb (Ascii.eqb a c) && no_char c s'
  end.

Lemma split_no_char c s : no_char c s = true -> Str.split c s = [s].
Proof.
  induction s as [ | a s IH ]; [done | ]. simpl.
  destruct (Ascii.eqb a c); [done | ]. simpl. intros H. by rewrite IH.
Qed.

Lemma split_app c s t :
  no_char c s = true ->
  Str.split c (s +:+ String c t) = s :: Str.split c t.
Proof.
  induction s as [ | a s IH ]; simpl.
  - by rewrite Ascii.eqb_refl.
  - destruct (Ascii.eqb a c); [done | ]. simpl. intros H. by rewrite IH.
Qed.

Lemma split_join c lines :
  lines <> [] -> forallb (no_char c) lines = true ->
  Str.split c (Str.join (String c "") lines) = lines.
Proof.
  induction lines as [ | l lines IH ]; [done | ]. intros _ Hok.
  simpl in Hok. apply andb_true_iff in Hok as [Hl Hok].
  destruct lines as [ | l' lines ].
  - simpl. by apply split_no_char.
  - change (Str.join (String c "") (l :: l' :: lines))
      with (l +:+ String c (Str.join (String c "") (l' :: lines))).
    rewrite split_app by done. by rewrite IH.
Qed.

Lemma format_raw E line :
  line <> "" ->
  formatAndDisplayLogEntry E (JObj [("raw", JStr line)]) = Ok line.
Proof.
  intros Hne.
  assert (Ht : Str.nonempty line = true).
  { unfold Str.nonempty. by destruct (String.eqb_spec line ""). }
  unfold formatAndDisplayLogEntry.
  change (jmember (Some (JObj [("raw", JStr line)])) "raw") with (Ok (Some (JStr line))).
  cbn [rbind jtruthy]. by rewrite Ht.
Qed.

(** C6.  A file made of [lines] separated by newlines is read back as the
    list of its non-empty lines, in order, each parsed: a line that is valid
    JSON gives its document, and one that is not gives the record
    [{ raw: line }] holding the very line, which the formatter renders as
    that line. *)
Theorem read_entries_lines (E : env) (lines : list string) :
  lines <> [] -> forallb (no_char Str.nl) lines = true ->
  read_entries E (Str.join newline lines) =
    map (parse_line E) (List.filter Str.nonempty lines) /\
  (forall line j, json_of_text E line = Some j -> parse_line E line = j) /\
  (forall line, json_of_text E line = None -> line <> "" ->
     parse_line E line = JObj [("raw", JStr line)] /\
     formatAndDisplayLogEntry E (parse_line E line) = Ok line).
Proof.
  intros Hne Hok. split; [ | split ].
  - unfold read_entries, newline. by rewrite split_join.
  - intros line j H. unfold parse_line. by rewrite H.
  - intros line H Hline. unfold parse_line. rewrite H. split; [done | ].
    by apply format_raw.
Qed.

Lemma read_entries_lines_witness :
  read_entries Demo.E "{}
oops

[]
" = [JObj []; JObj [("raw", JStr "oops")]; JArr []] /\
  formatAndDisplayLogEntry Demo.E (parse_line Demo.E "oops") = Ok "oops".
Proof.
  destruct (read_entries_lines Demo.E ["{}"; "oops"; ""; "[]"; ""]) as (Hread & _ & Hraw);
    [discriminate | reflexivity | ].
  split; [exact Hread | ].
  apply (Hraw "oops"); [reflexivity | discriminate].
Defined.

(** * The count of lines given to [tail] and [view] *)

Lemma rbind_fuel {A B} (r : res A) (k : A -> res B) :
  r <> Fuel -> (forall a, k a <> Fuel) -> rbind r k <> Fuel.
Proof. destruct r; simpl; auto. Qed.

Lemma jmember_fuel v name : jmember v name <> Fuel.
Proof. by destruct v as [ [ | | | | | ] | ]. Qed.

Ltac no_fuel :=
  repeat match goal with
    | |- rbind _ _ <> Fuel => apply rbind_fuel; [ | intros ? ]
    | |- jmember _ _ <> Fuel => apply jmember_fuel
    | |- Ok _ <> Fuel => discriminate
    | |- Err _ <> Fuel => discriminate
    | |- (if ?b then _ else _) <> Fuel => destruct b
    | |- (match ?x with _ => _ end) <> Fuel => destruct x
    end.

Lemma formatAndDisplayLogEntry_fuel E entry : formatAndDisplayLogEntry E entry <> Fuel.
Proof. unfold formatAndDisplayLogEntry. cbv zeta. no_fuel. Qed.

Lemma show_entries_fuel E entries : forall result, show_entries E entries result <> Fuel.
Proof.
  induction entries as [ | entry entries IH ]; intros result; simpl; [done | ].
  apply rbind_fuel; [apply formatAndDisplayLogEntry_fuel | auto].
Qed.

(** What [viewLogFile] displays for a file made of the entries [es]: the
    header, then every entry of [es]; or the error of the first entry that
    cannot be formatted. *)
Definition display_of (E : env) (filePath : string) (es : list json) : string :=
  match show_entries E es
          (chalk_bold E ("Log File: " +:+ path_basename filePath +:+ newline +:+ newline)) with
  | Ok shown => shown
  | Err error => chalk_red E ("Error viewing log file: " +:+ error_message error)
  | Fuel => ""
  end.

Lemma viewLogFile_all E file numLines w f :
  props_get (resolve_log_path E file) (fs_files (w_fs w)) = Some f ->
  read_entries E (f_content f) <> [] ->
  viewLogFile E file numLines w =
  Ret (display_of E (resolve_log_path E file)
         (entries_to_show numLines (read_entries E (f_content f)))) w.
Proof.
  intros Hf Hes. unfold viewLogFile, try_catch, bind, on_fs, get_state.
  rewrite with_fs_same.
  assert (Hex : existsSync (w_fs w) (resolve_log_path E file) = true).
  { unfold existsSync. apply orb_true_iff. right. apply bool_decide_eq_true.
    by eapply props_get_elem. }
  rewrite Hex. cbn [negb]. unfold readFileSync. rewrite Hf, with_fs_same.
  destruct (read_entries E (f_content f)) as [ | e es ] eqn:Hread; [done | ].
  unfold display_of, lift_res.
  pose proof (show_entries_fuel E (entries_to_show numLines (e :: es))
                (chalk_bold E ("Log File: " +:+ path_basename (resolve_log_path E file)
                               +:+ newline +:+ newline))) as Hfuel.
  destruct (show_entries _ _ _); done.
Qed.

(** * The formatter on the entries the writer produces *)

(** C4.  The formatter reads the members [request], [response] and
    [responseTime], which [logApiCall] never writes.  Of an entry with the
    members [logApiCall] writes for a successful call, whatever their values,
    it renders the time stamp and the service, and nothing else: neither the
    method, nor the path, the headers, the bodies, the status or the
    duration. *)
Theorem formatter_skips_written_members (E : env)
    (timestamp id service url method : string)
    (headers body responseHeaders responseBody : json) (statusCode durationMs : Z) :
  formatAndDisplayLogEntry E
    (JObj [("timestamp", JStr timestamp); ("id", JStr id); ("service", JStr service);
           ("url", JStr url); ("method", JStr method); ("headers", headers);
           ("body", body); ("responseHeaders", responseHeaders);
           ("responseBody", responseBody); ("statusCode", JNum statusCode);
           ("durationMs", JNum durationMs)]) =
  let shown_timestamp :=
    if Str.nonempty timestamp
    then chalk_gray E ("[" +:+ timestamp_toLocaleString E (Some (JStr timestamp)) +:+ "] ")
    else "" in
  Ok (if Str.nonempty service
      then shown_timestamp +:+ chalk_bold_blue E (service +:+ " ")
      else shown_timestamp).
Proof.
  unfold formatAndDisplayLogEntry. cbn.
  destruct (Str.nonempty timestamp), (Str.nonempty service); reflexivity.
Qed.


(** * The command never raises, and only [clear] writes *)

(** A computation that returns or throws in the world it started in *)
Definition reads {A} (m : M world A) : Prop :=
  forall w, sat (m w) (fun _ w' => w' = w) (fun _ w' => w' = w).

Lemma reads_ret {A} (a : A) : reads (ret a).
Proof. by intros w. Qed.

Lemma reads_bind {A B} (m : M world A) (k : A -> M world B) :
  reads m -> (forall a, reads (k a)) -> reads (bind m k).
Proof.
  intros Hm Hk w. apply sat_bind. eapply sat_mono; [apply Hm | | done].
  cbn beta. intros a w' ->. apply Hk.
Qed.

Lemma reads_lift_res {A} (r : res A) : r <> Fuel -> reads (lift_res r).
Proof. intros Hr w. by destruct r. Qed.

Lemma reads_try_catch {A} (m : M world A) handler :
  reads m -> (forall e, reads (handler e)) -> reads (try_catch m handler).
Proof.
  intros Hm Hh w. unfold try_catch. specialize (Hm w).
  destruct (m w) as [ a w' | e w' | ]; cbn [sat] in *; [done | | done].
  subst w'. apply Hh.
Qed.

Lemma reads_readdirSync dir : reads (on_fs (readdirSync dir)).
Proof.
  intros w. unfold on_fs, readdirSync.
  case_bool_decide; cbn [sat]; apply with_fs_same.
Qed.

Lemma reads_statSync p : reads (on_fs (statSync p)).
Proof.
  intros w. unfold on_fs, statSync.
  destruct (props_get p (fs_files (w_fs w))); cbn [sat]; apply with_fs_same.
Qed.

Lemma reads_readFileSync p : reads (on_fs (readFileSync p)).
Proof.
  intros w. unfold on_fs, readFileSync.
  destruct (props_get p (fs_files (w_fs w))); cbn [sat]; apply with_fs_same.
Qed.

Lemma reads_get_fs : reads (on_fs get_state).
Proof. intros w. cbn. apply with_fs_same. Qed.

Lemma reads_stat_all logsDir files : reads (stat_all logsDir files).
Proof.
  induction files as [ | file files IH ]; [apply reads_ret | ].
  cbn [stat_all]. apply reads_bind; [apply reads_statSync | intros stats].
  apply reads_bind; [exact IH | intros rest]. apply reads_ret.
Qed.

Lemma reads_sorted_log_files logsDir : reads (sorted_log_files logsDir).
Proof.
  unfold sorted_log_files.
  apply reads_bind; [apply reads_readdirSync | intros names].
  apply reads_bind; [apply reads_stat_all | intros files]. apply reads_ret.
Qed.

Lemma reads_viewLogFile E file numLines : reads (viewLogFile E file numLines).
Proof.
  unfold viewLogFile. apply reads_try_catch; [ | intros e; apply reads_ret ].
  apply reads_bind; [apply reads_get_fs | intros f].
  destruct (negb _); [apply reads_ret | ].
  apply reads_bind; [apply reads_readFileSync | intros fileContent].
  destruct (read_entries E fileContent) as [ | entry entries ]; [apply reads_ret | ].
  apply reads_lift_res, show_entries_fuel.
Qed.

Lemma reads_listLogFiles E : reads (listLogFiles E).
Proof.
  unfold listLogFiles. apply reads_try_catch; [ | intros e; apply reads_ret ].
  apply reads_bind; [apply reads_sorted_log_files | intros files].
  destruct files; apply reads_ret.
Qed.

Lemma reads_tailLogs E numLines : reads (tailLogs E numLines).
Proof.
  unfold tailLogs. apply reads_try_catch; [ | intros e; apply reads_ret ].
  apply reads_bind; [apply reads_sorted_log_files | intros files].
  destruct files; [apply reads_ret | apply reads_viewLogFile].
Qed.

(** A block whose handler returns, returns. *)
Definition catches {A} (m : M world A) : Prop :=
  forall w, exists a, m w = Ret a w.

Lemma catches_try_catch {A} (m : M world A) handler :
  reads (try_catch m handler) -> (forall e w, exists a, handler e w = Ret a w) ->
  catches (try_catch m handler).
Proof.
  intros Hr Hh w. specialize (Hr w). unfold try_catch in *.
  destruct (m w) as [ a w' | e w' | ]; cbn [sat] in Hr; [subst; eauto | | done].
  destruct (Hh e w') as [a Ha]. rewrite Ha in *. cbn [sat] in Hr. subst. eauto.
Qed.

Lemma catches_viewLogFile E file numLines : catches (viewLogFile E file numLines).
Proof.
  apply catches_try_catch; [apply reads_viewLogFile | ]. intros e w. by eexists.
Qed.

Lemma catches_listLogFiles E : catches (listLogFiles E).
Proof.
  apply catches_try_catch; [apply reads_listLogFiles | ]. intros e w. by eexists.
Qed.

Lemma catches_tailLogs E numLines : catches (tailLogs E numLines).
Proof.
  apply catches_try_catch; [apply reads_tailLogs | ]. intros e w. by eexists.
Qed.

Lemma delete_log_files_fuel logsDir files : forall n w,
  delete_log_files logsDir files n w <> OutOfFuel.
Proof.
  induction files as [ | file files IH ]; intros n w; [done | ].
  cbn [delete_log_files]. destruct (is_log_file file); [ | apply IH ].
  unfold bind, on_fs, unlinkSync.
  destruct (is_readonly _ _); [done | ]. case_bool_decide; [apply IH | done].
Qed.

Lemma clearLogs_returns E answer w : exists message w', clearLogs E answer w = Ret message w'.
Proof.
  unfold clearLogs. unfold bind at 1, print.
  destruct (String.eqb _ "y"); [ | by eexists _, _ ].
  unfold try_catch. unfold bind at 1.
  match goal with |- context [on_fs (readdirSync ?d) ?w0] =>
    pose proof (reads_readdirSync d w0) as Hr;
    destruct (on_fs (readdirSync d) w0) as [ files w1 | e w1 | ]; cbn [sat] in Hr;
      [ | by eexists _, _ | done ]
  end.
  unfold bind. pose proof (delete_log_files_fuel (API_LOGS_PATH E) files 0 w1) as Hfuel.
  destruct (delete_log_files _ _ _ _) as [ n w2 | e w2 | ]; [ | | done ]; by eexists _, _.
Qed.

(** How [call] dispatches *)
Lemma call_cases E args answer :
  (exists rest, command_words args = "clear" :: rest /\
                call E args answer = clearLogs E answer) \/
  (forall rest, command_words args <> "clear" :: rest) /\
  (call E args answer = listLogFiles E \/
   (exists numLines, call E args answer = tailLogs E numLines) \/
   (exists file numLines, call E args answer = viewLogFile E file numLines) \/
   (exists message, call E args answer = ret message)).
Proof.
  unfold call. destruct (command_words args) as [ | subcommand params ].
  { right. split; [done | ]. right; right; right. by eexists. }
  destruct (String.eqb_spec subcommand "clear") as [-> | Hclear].
  { left. by exists params. }
  right. split; [by intros rest [= ? _] | ].
  destruct (String.eqb subcommand "list"); [by left | ].
  destruct (String.eqb subcommand "tail"); [right; left; by eexists | ].
  destruct (String.eqb subcommand "dir"); [right; right; right; by eexists | ].
  destruct (String.eqb subcommand "view"); [ | right; right; right; by eexists ].
  destruct params as [ | p0 rest ]; [right; right; right; by eexists | ].
  right; right; left. by eexists _, _.
Qed.

Lemma call_reads E args answer w :
  (forall rest, command_words args <> "clear" :: rest) ->
  exists message, call E args answer w = Ret message w.
Proof.
  intros Hclear.
  destruct (call_cases E args answer)
    as [(rest & Hw & _) | [_ [-> | [[n ->] | [(file & n & ->) | [message ->]]]]]].
  - by destruct (Hclear rest).
  - apply catches_listLogFiles.
  - apply catches_tailLogs.
  - apply catches_viewLogFile.
  - by exists message.
Qed.

(** X1.  The command never raises: whatever the arguments, the answer typed at
    the prompt and the state of the file system, [call] returns a message;
    every failure of a subcommand is caught and turned into one. *)
Theorem call_never_raises (E : env) (args answer : string) (w : world) :
  exists message w', call E args answer w = Ret message w'.
Proof.
  destruct (call_cases E args answer) as [(rest & _ & ->) | [Hclear _]].
  - apply clearLogs_returns.
  - destruct (call_reads E args answer w Hclear) as [message ->]. by eexists _, _.
Qed.

(** X2.  Only [clear] writes: when the subcommand is not [clear], [call]
    returns in the world it started in; the file system, the heap and the
    console are as they were. *)
Theorem call_reads_only (E : env) (args answer : string) (w : world) :
  (forall rest, command_words args <> "clear" :: rest) ->
  exists message, call E args answer w = Ret message w.
Proof. apply call_reads. Qed.

Lemma call_reads_only_witness :
  exists message, call Demo.E "tail 1" "" Demo.w = Ret message Demo.w.
Proof.
  apply (call_reads_only Demo.E "tail 1" "" Demo.w). intros rest. vm_compute. discriminate.
Defined.


(** * Strings and paths *)

Lemma append_String x (a b : string) : String x a +:+ b = String x (a +:+ b).
Proof. reflexivity. Qed.

Lemma append_assoc (a b c : string) : (a +:+ b) +:+ c = a +:+ b +:+ c.
Proof. induction a as [ | x a IH ]; [done | ]. by rewrite !append_String, IH. Qed.

Lemma append_nil_r (a : string) : a +:+ "" = a.
Proof. induction a as [ | x a IH ]; [done | ]. by rewrite append_String, IH. Qed.

Lemma length_append (a b : string) :
  String.length (a +:+ b) = String.length a + String.length b.
Proof.
  induction a as [ | x a IH ]; [done | ]. rewrite append_String. simpl. by rewrite IH.
Qed.

Lemma split_not_nil c s : Str.split c s <> [].
Proof.
  destruct s as [ | a s ]; [done | ]. simpl.
  destruct (Ascii.eqb a c); [done | ]. by destruct (Str.split c s).
Qed.

Lemma join_cons_String a x xs sep :
  Str.join sep (String a x :: xs) = String a (Str.join sep (x :: xs)).
Proof. by destruct xs. Qed.

(** [split] is undone by [join] *)
Lemma join_split c s : Str.join (String c "") (Str.split c s) = s.
Proof.
  induction s as [ | a s IH ]; [done | ]. simpl.
  destruct (Ascii.eqb_spec a c) as [-> | Hne].
  - pose proof (split_not_nil c s) as Hnil.
    destruct (Str.split c s) as [ | x xs ]; [done | ].
    change (Str.join (String c "") ("" :: x :: xs))
      with (String c (Str.join (String c "") (x :: xs))).
    by rewrite IH.
  - pose proof (split_not_nil c s) as Hnil.
    destruct (Str.split c s) as [ | x xs ]; [done | ].
    by rewrite join_cons_String, IH.
Qed.

Lemma split_append c s t :
  Str.split c (s +:+ String c t) = Str.split c s ++ Str.split c t.
Proof.
  induction s as [ | a s IH ]; simpl.
  - by rewrite Ascii.eqb_refl.
  - destruct (Ascii.eqb a c); [by rewrite IH | ].
    rewrite IH. pose proof (split_not_nil c s) as Hnil.
    by destruct (Str.split c s).
Qed.

(** The pieces of [split c] hold no [c]. *)
Lemma split_pieces c s : Forall (fun x => no_char c x = true) (Str.split c s).
Proof.
  induction s as [ | a s IH ]; simpl; [by repeat constructor | ].
  destruct (Ascii.eqb a c) eqn:Hac; [by constructor | ].
  destruct (Str.split c s) as [ | x xs ]; [repeat constructor; simpl; by rewrite Hac | ].
  apply Forall_cons in IH as [Hx Hxs]. constructor; [ | done ]. simpl. by rewrite Hac.
Qed.

Lemma path_join_String dir name : path_join dir name = dir +:+ String "/" name.
Proof. reflexivity. Qed.

Lemma path_basename_join dir name :
  no_char "/" name = true -> path_basename (path_join dir name) = name.
Proof.
  intros Hname. unfold path_basename.
  rewrite path_join_String, split_append, (split_no_char _ _ Hname). apply List.last_last.
Qed.

Lemma path_dirname_join dir name :
  no_char "/" name = true -> path_dirname (path_join dir name) = dir.
Proof.
  intros Hname. unfold path_dirname.
  rewrite path_join_String, split_append, (split_no_char _ _ Hname), removelast_last.
  apply join_split.
Qed.

Lemma path_basename_no_sep p : no_char "/" (path_basename p) = true.
Proof.
  unfold path_basename. pose proof (split_pieces "/" p) as Hall.
  pose proof (split_not_nil "/" p) as Hnil.
  rewrite (app_removelast_last EmptyString Hnil) in Hall.
  rewrite Forall_app, Forall_singleton in Hall. by destruct Hall.
Qed.

(** A path is its directory and its base name, unless it has no directory
    part. *)
Lemma join_snoc_sep sep xs b :
  xs <> [] -> Str.join sep (xs ++ [b]) = Str.join sep xs +:+ sep +:+ b.
Proof.
  induction xs as [ | x xs IH ]; [done | ]. intros _.
  destruct xs as [ | y ys ]; [done | ].
  change (Str.join sep ((x :: y :: ys) ++ [b]))
    with (x +:+ sep +:+ Str.join sep ((y :: ys) ++ [b])).
  rewrite IH by done.
  change (Str.join sep (x :: y :: ys)) with (x +:+ sep +:+ Str.join sep (y :: ys)).
  by rewrite !append_assoc.
Qed.

Lemma path_join_dirname_basename p :
  path_dirname p <> "" -> path_join (path_dirname p) (path_basename p) = p.
Proof.
  unfold path_dirname, path_basename, path_join. intros Hdir.
  pose proof (split_not_nil "/" p) as Hnil.
  pose proof (join_split "/" p) as Hjoin.
  rewrite (app_removelast_last EmptyString Hnil), join_snoc_sep in Hjoin; [done | ].
  intros Hrm. by rewrite Hrm in Hdir.
Qed.

(** * The text of a listing *)

(** Texts in a row *)
Definition flat (texts : list string) : string := foldr String.append "" texts.


(** The display of a log file whose entries are formatted as [texts]: the
    name of the file in bold and an empty line, then each text in turn,
    followed by an empty line. *)
Definition entries_listing (E : env) (filePath : string) (texts : list string) : string :=
  chalk_bold E ("Log File: " +:+ path_basename filePath +:+ newline +:+ newline) +:+
  flat ((fun text => text +:+ newline +:+ newline) <$> texts).






Example display_example :
  entries_listing Demo.E (path_join Demo.logs "api-log-2025-01-05.jsonl") [""; "oops"; ""] =
  "<bold>Log File: api-log-2025-01-05.jsonl

</bold>

oops



".
Proof. vm_compute. reflexivity. Qed.


(** * The listing of the log files *)

(** The log files of a directory, as the file system holds them *)
Definition in_logs (dir p : string) : Prop :=
  path_dirname p = dir /\ is_log_file (path_basename p) = true.

#[local] Instance in_logs_dec dir p : Decision (in_logs dir p).
Proof. unfold in_logs. apply _. Defined.

Definition log_paths (f : fs) (dir : string) : list string :=
  filter (in_logs dir) (fs_files f).*1.

Definition file_at (f : fs) (p : string) : file :=
  default {| f_content := ""; f_birthtime := 0 |} (props_get p (fs_files f)).

Definition log_record (f : fs) (p : string) : log_file :=
  {| lf_name := path_basename p;
     lf_size := String.length (f_content (file_at f p));
     lf_created := f_birthtime (file_at f p);
     lf_path := p |}.

Lemma filter_log_files dir ps :
  List.filter is_log_file (path_basename <$> filter (fun p => path_dirname p = dir) ps) =
  path_basename <$> filter (in_logs dir) ps.
Proof.
  induction ps as [ | p ps IH ]; [done | ].
  rewrite !filter_cons.
  destruct (decide (in_logs dir p)) as [[Hd Hlog] | Hno].
  - rewrite decide_True by done. rewrite !fmap_cons. cbn [List.filter].
    by rewrite Hlog, IH.
  - destruct (decide (path_dirname p = dir)) as [Hd | Hd]; [ | exact IH ].
    rewrite fmap_cons. cbn [List.filter].
    destruct (is_log_file (path_basename p)) eqn:Hlog; [ | exact IH ].
    by destruct Hno.
Qed.

Lemma props_get_is_Some {A} k (ps : list (string * A)) :
  k ∈ ps.*1 -> is_Some (props_get k ps).
Proof.
  induction ps as [ | [k' v] ps IH ]; simpl; [by intros ?%elem_of_nil | ].
  intros Hk. destruct (String.eqb_spec k k'); [done | ].
  apply elem_of_cons in Hk as [? | Hk]; [done | auto].
Qed.

Lemma stat_all_listing dir ps w :
  dir <> "" ->
  Forall (fun p => p ∈ (fs_files (w_fs w)).*1 /\ path_dirname p = dir) ps ->
  stat_all dir (path_basename <$> ps) w = Ret (log_record (w_fs w) <$> ps) w.
Proof.
  intros Hdir. induction 1 as [ | p ps [Hp Hd] _ IH ]; [done | ].
  rewrite !fmap_cons. cbn [stat_all].
  assert (Hjoin : path_join dir (path_basename p) = p).
  { rewrite <- Hd. apply path_join_dirname_basename. by rewrite Hd. }
  rewrite Hjoin. unfold bind at 1, on_fs, statSync.
  destruct (props_get_is_Some p _ Hp) as [x Hx]. rewrite Hx, with_fs_same.
  unfold bind at 1. rewrite IH. unfold ret, log_record, file_at. by rewrite Hx.
Qed.

Lemma sorted_log_files_spec dir w :
  dir <> "" -> dir ∈ fs_dirs (w_fs w) ->
  sorted_log_files dir w =
  Ret (sort_newest (log_record (w_fs w) <$> log_paths (w_fs w) dir)) w.
Proof.
  intros Hne Hdir. unfold sorted_log_files, bind at 1, on_fs, readdirSync.
  rewrite bool_decide_eq_true_2 by done. rewrite with_fs_same, filter_log_files.
  unfold bind at 1. rewrite stat_all_listing; [done | done | ].
  apply Forall_forall. intros p Hp. apply list_elem_of_filter in Hp as [[Hd _] Hp]. done.
Qed.

Lemma sorted_log_files_missing dir w :
  dir ∉ fs_dirs (w_fs w) ->
  sorted_log_files dir w = Throw (fs_error "ENOENT" dir) w.
Proof.
  intros Hdir. unfold sorted_log_files, bind at 1, on_fs, readdirSync.
  rewrite bool_decide_eq_false_2 by done. by rewrite with_fs_same.
Qed.

Lemma API_LOGS_PATH_not_empty E : API_LOGS_PATH E <> "".
Proof.
  unfold API_LOGS_PATH. rewrite path_join_String.
  by destruct (path_join (cache_dir E) (getProjectDir (cwd E))).
Qed.

(** ** The order of the listing *)

Definition newer_or_same (a b : log_file) : Prop := (lf_created b <= lf_created a)%Z.

Lemma insert_newest_perm x l : insert_newest x l ≡ₚ x :: l.
Proof.
  induction l as [ | y l IH ]; [done | ]. simpl.
  destruct (_ <=? _)%Z; [done | ]. rewrite IH. apply perm_swap.
Qed.

Lemma sort_newest_perm l : sort_newest l ≡ₚ l.
Proof.
  induction l as [ | x l IH ]; [done | ]. cbn [sort_newest foldr].
  fold (sort_newest l). by rewrite insert_newest_perm, IH.
Qed.

Lemma insert_newest_sorted x l :
  StronglySorted newer_or_same l -> StronglySorted newer_or_same (insert_newest x l).
Proof.
  induction 1 as [ | y l Hl IH Hy ]; simpl.
  - repeat constructor.
  - destruct (Z.leb_spec (lf_created y) (lf_created x)) as [Hle | Hlt].
    + constructor; [by constructor | ]. constructor; [done | ].
      eapply Forall_impl; [exact Hy | ]. unfold newer_or_same. intros z Hz. cbn in *. lia.
    + constructor; [done | ].
      rewrite insert_newest_perm. constructor; [ | done ]. unfold newer_or_same. lia.
Qed.

Lemma sort_newest_sorted l : StronglySorted newer_or_same (sort_newest l).
Proof.
  induction l as [ | x l IH ]; [constructor | ]. by apply insert_newest_sorted.
Qed.

Lemma insert_newest_stable t x l :
  filter (fun y => lf_created y = t) (insert_newest x l) =
  filter (fun y => lf_created y = t) (x :: l).
Proof.
  induction l as [ | y l IH ]; [done | ]. simpl.
  destruct (Z.leb_spec (lf_created y) (lf_created x)) as [Hle | Hlt]; [done | ].
  rewrite filter_cons, IH, !filter_cons.
  destruct (decide (lf_created y = t)), (decide (lf_created x = t)); try done. lia.
Qed.

Lemma sort_newest_stable t l :
  filter (fun y => lf_created y = t) (sort_newest l) = filter (fun y => lf_created y = t) l.
Proof.
  induction l as [ | x l IH ]; [done | ]. cbn [sort_newest foldr]. fold (sort_newest l).
  by rewrite insert_newest_stable, !filter_cons, IH.
Qed.

(** ** [listLogFiles] and [tailLogs] *)

Lemma prefix_append x b : String.prefix x (x +:+ b) = true.
Proof.
  induction x as [ | a x IH ]; [by destruct b | ].
  rewrite append_String. simpl. by rewrite Ascii.eqb_refl || destruct (ascii_dec a a).
Qed.

Lemma includes_prefix s x : String.prefix x s = true -> Str.includes s x = true.
Proof. destruct s; simpl; by intros ->. Qed.

Lemma includes_append a x b : Str.includes (a +:+ x +:+ b) x = true.
Proof.
  induction a as [ | c a IH ].
  - change ("" +:+ x +:+ b) with (x +:+ b). apply includes_prefix, prefix_append.
  - rewrite append_String. cbn [Str.includes]. rewrite IH. apply orb_true_r.
Qed.

Lemma resolve_log_path_sep E p : Str.includes p path_sep = true -> resolve_log_path E p = p.
Proof. intros H. unfold resolve_log_path. by rewrite H. Qed.

Lemma in_logs_has_sep dir p : dir <> "" -> path_dirname p = dir -> Str.includes p "/" = true.
Proof.
  intros Hne Hd. rewrite <- (path_join_dirname_basename p) by (by rewrite Hd).
  rewrite path_join_String. apply (includes_append _ "/" _).
Qed.

(** * The text of [list] *)

(** The lines of the file numbered [index] from 0 *)
Definition file_text (E : env) (index : nat) (file : log_file) : string :=
  chalk_cyan E (Str.of_Z (Z.of_nat (index + 1)) +:+ ". " +:+ lf_name file +:+ newline) +:+
  "   Size: " +:+ kb_toFixed2 E (lf_size file) +:+ " KB" +:+ newline +:+
  "   Created: " +:+ date_toLocaleString E (lf_created file) +:+ newline +:+
  "   Path: " +:+ lf_path file +:+ newline +:+ newline.

(** The answer of [list] for the files [files]: a title in bold and an empty
    line, then the lines of each file in turn. *)
Definition files_listing (E : env) (files : list log_file) : string :=
  chalk_bold E ("API Log Files:" +:+ newline +:+ newline) +:+ flat (imap (file_text E) files).

Lemma list_entries_spec E files : forall index result,
  list_entries E index files result =
  result +:+ flat (imap (fun i => file_text E (index + i)) files).
Proof.
  induction files as [ | file files IH ]; intros index result.
  - cbn. by rewrite append_nil_r.
  - cbn [list_entries imap flat foldr]. rewrite IH. rewrite Nat.add_0_r.
    rewrite append_assoc. unfold file_text at 2. f_equal. f_equal. f_equal.
    apply imap_ext. intros i x _. cbn. f_equal. lia.
Qed.

Lemma list_entries_listing E files :
  list_entries E 0 files (chalk_bold E ("API Log Files:" +:+ newline +:+ newline)) =
  files_listing E files.
Proof. by rewrite list_entries_spec. Qed.

(** X3.  [listLogFiles] never raises and changes nothing.  Without the logs
    directory it returns an error message.  With it, it lists the files of
    the directory whose name ends in [.log] or [.jsonl], none before a
    newer one: after the title, for each file in turn, its rank and name,
    its size, its time of creation and its path; when there is none it says
    so. *)
Theorem listLogFiles_lists_log_files (E : env) (w : world) :
  (API_LOGS_PATH E ∉ fs_dirs (w_fs w) ->
   exists error,
     listLogFiles E w =
     Ret (chalk_red E ("Error listing log files: " +:+ error_message error)) w) /\
  (API_LOGS_PATH E ∈ fs_dirs (w_fs w) ->
   exists files,
     files ≡ₚ log_record (w_fs w) <$> log_paths (w_fs w) (API_LOGS_PATH E) /\
     StronglySorted (fun a b => (lf_created b <= lf_created a)%Z) files /\
     listLogFiles E w =
     Ret (match files with
          | [] => chalk_yellow E "No log files found"
          | _ => files_listing E files
          end) w).
Proof.
  split; intros Hdir; unfold listLogFiles, try_catch, bind.
  - rewrite sorted_log_files_missing by done. by eexists.
  - rewrite sorted_log_files_spec by (done || apply API_LOGS_PATH_not_empty).
    eexists. split; [apply sort_newest_perm | ]. split; [apply sort_newest_sorted | ].
    destruct (sort_newest _) as [ | file files ] eqn:Hsort; [done | ].
    by rewrite list_entries_listing.
Qed.

Lemma listLogFiles_lists_log_files_witness :
  exists files,
    files ≡ₚ log_record Demo.disk <$> log_paths Demo.disk Demo.logs /\
    StronglySorted (fun a b => (lf_created b <= lf_created a)%Z) files /\
    listLogFiles Demo.E Demo.w =
    Ret (match files with
         | [] => chalk_yellow Demo.E "No log files found"
         | _ => files_listing Demo.E files
         end) Demo.w.
Proof.
  apply (listLogFiles_lists_log_files Demo.E Demo.w). vm_compute. left.
Defined.

Example files_listing_example :
  files_listing Demo.E
    [ {| lf_name := "api-log-2025-01-05.jsonl"; lf_size := 11; lf_created := 5;
         lf_path := Demo.today |};
      {| lf_name := "old.log"; lf_size := 2; lf_created := 3;
         lf_path := path_join Demo.logs "old.log" |} ] =
  "<bold>API Log Files:

</bold><cyan>1. api-log-2025-01-05.jsonl
</cyan>   Size: 11 KB
   Created: D5
   Path: /cache/-home-me-my-project/api-logs/api-log-2025-01-05.jsonl

<cyan>2. old.log
</cyan>   Size: 2 KB
   Created: D3
   Path: /cache/-home-me-my-project/api-logs/old.log

".
Proof. vm_compute. reflexivity. Qed.

Lemma sort_newest_head l x rest :
  sort_newest l = x :: rest ->
  x ∈ l /\ forall y, y ∈ l -> (lf_created y <= lf_created x)%Z.
Proof.
  intros Hs. pose proof (sort_newest_perm l) as Hp. pose proof (sort_newest_sorted l) as Hso.
  rewrite Hs in Hp, Hso. split.
  - rewrite <- Hp. left.
  - intros y Hy. rewrite <- Hp in Hy. inversion Hso as [ | ? ? _ Hall ]; subst.
    apply elem_of_cons in Hy as [-> | Hy]; [lia | ].
    rewrite Forall_forall in Hall. by apply Hall.
Qed.

(** X4.  [tailLogs] shows the newest log file: with the logs directory in
    place it is [viewLogFile] on a log file of the directory than which none
    was created later, and the message that there is none when there is
    none; without the directory it returns an error message.  It never
    raises. *)
Theorem tailLogs_views_newest (E : env) (numLines : number) (w : world) :
  (API_LOGS_PATH E ∉ fs_dirs (w_fs w) ->
   exists error,
     tailLogs E numLines w =
     Ret (chalk_red E ("Error tailing logs: " +:+ error_message error)) w) /\
  (API_LOGS_PATH E ∈ fs_dirs (w_fs w) ->
   (log_paths (w_fs w) (API_LOGS_PATH E) = [] /\
    tailLogs E numLines w = Ret (chalk_yellow E "No log files found") w) \/
   (exists latest,
      latest ∈ log_paths (w_fs w) (API_LOGS_PATH E) /\
      (forall p, p ∈ log_paths (w_fs w) (API_LOGS_PATH E) ->
         (f_birthtime (file_at (w_fs w) p) <= f_birthtime (file_at (w_fs w) latest))%Z) /\
      resolve_log_path E latest = latest /\
      tailLogs E numLines w = viewLogFile E latest numLines w)).
Proof.
  split; intros Hdir; unfold tailLogs, try_catch, bind.
  - rewrite sorted_log_files_missing by done. by eexists.
  - pose proof (API_LOGS_PATH_not_empty E) as Hne.
    rewrite sorted_log_files_spec by done.
    destruct (sort_newest _) as [ | latest rest ] eqn:Hsort.
    + left. split; [ | done ].
      pose proof (sort_newest_perm (log_record (w_fs w) <$>
                                      log_paths (w_fs w) (API_LOGS_PATH E))) as Hp.
      rewrite Hsort in Hp. apply Permutation_nil_l in Hp. symmetry in Hp.
      by apply fmap_nil_inv in Hp.
    + right. apply sort_newest_head in Hsort as [Hin Hmax].
      apply list_elem_of_fmap in Hin as (p & -> & Hp).
      exists p. split; [done | ]. split; [ | split ].
      * intros q Hq. apply (Hmax (log_record (w_fs w) q)).
        apply list_elem_of_fmap. by exists q.
      * apply resolve_log_path_sep.
        apply list_elem_of_filter in Hp as [[Hd _] _].
        by eapply in_logs_has_sep.
      * cbn [lf_path log_record].
        destruct (catches_viewLogFile E p numLines w) as [message ->]. done.
Qed.

Lemma tailLogs_views_newest_witness :
  exists latest,
    latest ∈ log_paths Demo.disk Demo.logs /\
    tailLogs Demo.E (NInt 1) Demo.w = viewLogFile Demo.E latest (NInt 1) Demo.w.
Proof.
  destruct (proj2 (tailLogs_views_newest Demo.E (NInt 1) Demo.w))
    as [[Hnone _] | (latest & Hin & _ & _ & Heq)].
  - vm_compute. left.
  - discriminate Hnone.
  - exists latest. split; [exact Hin | exact Heq].
Defined.


(** * The path [viewLogFile] reads *)

Lemma includes_char s c : Str.includes s (String c "") = negb (no_char c s).
Proof.
  induction s as [ | a s IH ]; [done | ]. cbn [Str.includes no_char String.prefix].
  rewrite IH. destruct (ascii_dec c a) as [-> | Hne].
  - rewrite Ascii.eqb_refl. by destruct s.
  - assert (Ascii.eqb a c = false) as -> by (apply Ascii.eqb_neq; congruence).
    done.
Qed.

Lemma path_extname_none name :
  no_char "/" name = true -> no_char "." name = true ->
  forall dir, path_extname (path_join dir name) = "".
Proof.
  intros Hsep Hdot dir. unfold path_extname.
  by rewrite path_basename_join, (split_no_char _ _ Hdot).
Qed.

Lemma path_extname_last_dot stem ext :
  no_char "/" (stem +:+ String "." ext) = true -> no_char "." ext = true ->
  forall dir,
    path_extname (path_join dir (stem +:+ String "." ext)) =
    if String.eqb stem "" then "" else String "." ext.
Proof.
  intros Hsep Hdot dir. unfold path_extname.
  rewrite path_basename_join by done.
  rewrite split_append, (split_no_char _ _ Hdot).
  pose proof (split_not_nil "." stem) as Hnil.
  destruct (Str.split "." stem) as [ | x xs ] eqn:Hsplit; [done | ].
  rewrite <- Hsplit.
  assert (Hshape : exists y ys, Str.split "." stem ++ [ext] = y :: ys /\ ys <> []).
  { rewrite Hsplit. exists x, (xs ++ [ext]). split; [done | by destruct xs]. }
  destruct Hshape as (y & ys & Heq & Hys). rewrite Heq.
  destruct ys as [ | y' ys ]; [done | ]. rewrite <- Heq.
  by rewrite removelast_last, join_split, List.last_last.
Qed.

Lemma path_join_append dir a b : path_join dir a +:+ b = path_join dir (a +:+ b).
Proof. unfold path_join. by rewrite !append_assoc. Qed.

Lemma resolve_log_path_plain E name :
  no_char "/" name = true -> no_char "." name = true ->
  resolve_log_path E name = path_join (API_LOGS_PATH E) (name +:+ ".jsonl").
Proof.
  intros Hsep Hdot. unfold resolve_log_path, path_sep. rewrite includes_char, Hsep.
  cbn [negb]. by rewrite path_extname_none, path_join_append.
Qed.

Lemma resolve_log_path_ext E stem ext :
  no_char "/" (stem +:+ String "." ext) = true -> no_char "." ext = true ->
  resolve_log_path E (stem +:+ String "." ext) =
  if String.eqb stem ""
  then path_join (API_LOGS_PATH E) (stem +:+ String "." ext +:+ ".jsonl")
  else path_join (API_LOGS_PATH E) (stem +:+ String "." ext).
Proof.
  intros Hsep Hdot. unfold resolve_log_path, path_sep. rewrite includes_char, Hsep.
  cbn [negb]. rewrite (path_extname_last_dot stem ext) by done.
  destruct (String.eqb stem ""); [ | done ].
  cbn [Str.nonempty String.eqb negb]. by rewrite path_join_append, append_assoc.
Qed.

(** X5.  The file [viewLogFile] reads.  An argument holding a path separator
    is taken as it is, wherever it points.  Any other argument names a file
    of the logs directory: with [.jsonl] added when it has no extension (no
    dot, or a dot as first character only), and as it is when it has one.
    (The names that [path.join] resolves away, the empty one, [.] and [..],
    are left aside.) *)
Theorem resolve_log_path_cases (E : env) (name : string) :
  (Str.includes name "/" = true -> resolve_log_path E name = name) /\
  (name <> "" -> no_char "/" name = true -> no_char "." name = true ->
   resolve_log_path E name = path_join (API_LOGS_PATH E) (name +:+ ".jsonl")) /\
  (forall ext,
     name = String "." ext -> ext <> "" ->
     no_char "/" name = true -> no_char "." ext = true ->
     resolve_log_path E name = path_join (API_LOGS_PATH E) (name +:+ ".jsonl")) /\
  (forall stem ext,
     name = stem +:+ String "." ext -> stem <> "" -> name <> ".." ->
     no_char "/" name = true -> no_char "." ext = true ->
     resolve_log_path E name = path_join (API_LOGS_PATH E) name).
Proof.
  split; [apply resolve_log_path_sep | ].
  split; [intros _; apply resolve_log_path_plain | ]. split.
  - intros ext -> _ Hsep Hdot. exact (resolve_log_path_ext E "" ext Hsep Hdot).
  - intros stem ext -> Hstem _ Hsep Hdot. rewrite resolve_log_path_ext by done.
    by destruct (String.eqb_spec stem "").
Qed.

Lemma resolve_log_path_cases_witness :
  resolve_log_path Demo.E "/tmp/x" = "/tmp/x" /\
  resolve_log_path Demo.E "api-log-2025-01-05" =
    path_join Demo.logs "api-log-2025-01-05.jsonl" /\
  resolve_log_path Demo.E ".hidden" = path_join Demo.logs ".hidden.jsonl" /\
  resolve_log_path Demo.E "old.log" = path_join Demo.logs "old.log".
Proof.
  split; [ | split; [ | split ] ].
  - by apply (resolve_log_path_cases Demo.E "/tmp/x").
  - by apply (resolve_log_path_cases Demo.E "api-log-2025-01-05").
  - by apply (resolve_log_path_cases Demo.E ".hidden") with "hidden".
  - by apply (resolve_log_path_cases Demo.E "old.log") with "old" "log".
Defined.

(** * What [viewLogFile] shows *)













(** * When the formatter fails *)

(** The entries on which the formatter throws: [null], whose members cannot
    be read, and an entry that is not raw and whose request has a method
    that is truthy and not a string (it has no [toUpperCase]). *)
Definition unformattable (entry : json) : bool :=
  match entry with
  | JNull => true
  | JObj ms =>
      negb (jtruthy (props_get "raw" ms)) &&
      match props_get "request" ms with
      | Some (JObj request) =>
          match props_get "method" request with
          | Some (JStr _) => false
          | method => jtruthy method
          end
      | _ => false
      end
  | _ => false
  end.

Definition is_ok {A} (r : res A) : Prop := exists a, r = Ok a.

Lemma jmember_truthy v name : jtruthy v = true -> exists r, jmember v name = Ok r.
Proof. destruct v as [ [ | | | | | ] | ]; try done; by eexists. Qed.

Lemma jmember_entry entry name :
  entry <> JNull -> exists r, jmember (Some entry) name = Ok r.
Proof. destruct entry; try done; by eexists. Qed.

Ltac formats :=
  repeat (cbn [rbind];
    match goal with
    | |- is_ok (Ok _) => by eexists
    | H : jtruthy ?v = true |- context [jmember ?v ?name] =>
        let r := fresh "r" in
        let Hr := fresh "Hr" in
        destruct (jmember_truthy v name H) as [r Hr]; rewrite Hr; clear Hr
    | |- context [if jtruthy ?v then rbind _ _ else Ok _] => destruct (jtruthy v) eqn:?
    | |- is_ok (if jtruthy ?v then _ else _) => destruct (jtruthy v) eqn:?
    end).

(** The method shown is a string when the entry is well formed. *)
Lemma method_is_string entry raw request m :
  unformattable entry = false ->
  jmember (Some entry) "raw" = Ok raw -> jtruthy raw = false ->
  jmember (Some entry) "request" = Ok request ->
  jmember request "method" = Ok m ->
  exists method, (if jtruthy m then m else Some (JStr "UNKNOWN")) = Some (JStr method).
Proof.
  intros Hgood Hraw Hfalsy Hrq Hm.
  destruct entry as [ | | | | | ms ]; try done;
    try (injection Hrq as <-; by discriminate Hm).
  cbn in Hgood, Hraw, Hrq. injection Hraw as <-. injection Hrq as <-.
  rewrite Hfalsy in Hgood. cbn [negb andb] in Hgood.
  destruct (props_get "request" ms) as [ [ | | | | | rs ] | ]; try done;
    try (injection Hm as <-; by eexists).
  cbn in Hm. injection Hm as <-.
  destruct (props_get "method" rs) as [ [ | | | | | ] | ];
    try (cbn in Hgood |- *; first [discriminate Hgood | rewrite ?Hgood; by eexists]).
  cbn. destruct (Str.nonempty s); by eexists.
Qed.

Lemma format_ok E entry :
  unformattable entry = false -> is_ok (formatAndDisplayLogEntry E entry).
Proof.
  intros Hgood.
  assert (Hentry : entry <> JNull) by (by intros ->).
  unfold formatAndDisplayLogEntry.
  destruct (jmember_entry entry "raw" Hentry) as [raw Hraw]. rewrite Hraw.
  destruct (jmember_entry entry "timestamp" Hentry) as [ts ->].
  destruct (jmember_entry entry "service" Hentry) as [service ->].
  destruct (jmember_entry entry "request" Hentry) as [request Hrq]. rewrite Hrq.
  destruct (jmember_entry entry "response" Hentry) as [response ->].
  destruct (jmember_entry entry "responseTime" Hentry) as [responseTime ->].
  destruct (jmember_entry entry "error" Hentry) as [error ->].
  cbn [rbind]. cbv zeta.
  destruct (jtruthy raw) eqn:Htraw; [by eexists | ].
  destruct (jtruthy request) eqn:Htrequest; [ | formats ].
  destruct (jmember_truthy request "method" Htrequest) as [m Hm]. rewrite Hm.
  destruct (method_is_string entry raw request m Hgood Hraw Htraw Hrq Hm) as [method Hmethod].
  cbn [rbind].
  destruct (jmember_truthy request "url" Htrequest) as [u ->]. cbn [rbind].
  rewrite Hmethod. formats.
Qed.

Lemma format_err E entry :
  unformattable entry = true -> exists error, formatAndDisplayLogEntry E entry = Err error.
Proof.
  destruct entry as [ | | | | | ms ]; try done; [by eexists | ].
  cbn [unformattable]. intros [Hraw Hrequest]%andb_true_iff. apply negb_true_iff in Hraw.
  unfold formatAndDisplayLogEntry. cbn [jmember rbind]. rewrite Hraw. cbv zeta.
  destruct (props_get "request" ms) as [ [ | | | | | rs ] | ]; try done.
  cbn [jtruthy jmember rbind].
  destruct (props_get "method" rs) as [ [ | b | z | s | items | members ] | ];
    try done; rewrite Hrequest; cbn [rbind]; by eexists.
Qed.

Lemma show_entries_ok E entries : forall result,
  Forall (fun entry => unformattable entry = false) entries ->
  exists shown, show_entries E entries result = Ok shown.
Proof.
  induction entries as [ | entry entries IH ]; intros result Hall; [by eexists | ].
  apply Forall_cons in Hall as [Hentry Hall]. cbn [show_entries].
  destruct (format_ok E entry Hentry) as [shown ->]. cbn [rbind]. by apply IH.
Qed.

Lemma show_entries_err E entries : forall result,
  Exists (fun entry => unformattable entry = true) entries ->
  exists error, show_entries E entries result = Err error.
Proof.
  induction entries as [ | entry entries IH ]; intros result Hex; [by apply Exists_nil in Hex | ].
  cbn [show_entries]. destruct (unformattable entry) eqn:Hentry.
  - destruct (format_err E entry Hentry) as [error ->]. by eexists.
  - destruct (format_ok E entry Hentry) as [shown ->]. cbn [rbind]. apply IH.
    apply Exists_cons in Hex as [Hex | Hex]; [congruence | done].
Qed.

Lemma entries_to_show_nil numLines : entries_to_show numLines [] = [].
Proof. unfold entries_to_show. destruct (num_gt numLines 0), numLines; by rewrite ?drop_nil. Qed.

(** X8.  One entry the formatter cannot format hides the file.  The formatter
    throws on [null], and on an entry without a truthy [raw] whose
    [request.method] is truthy and not a string.  When one of the entries
    [viewLogFile] is to show is of these kinds, it shows none of them: it
    returns an error message in place of the listing. *)
Theorem unformattable_entry_hides_file (E : env) (name : string) (numLines : number)
    (w : world) (f : file) :
  props_get (resolve_log_path E name) (fs_files (w_fs w)) = Some f ->
  Exists (fun entry => unformattable entry = true)
    (entries_to_show numLines (read_entries E (f_content f))) ->
  exists error,
    viewLogFile E name numLines w =
    Ret (chalk_red E ("Error viewing log file: " +:+ error_message error)) w.
Proof.
  intros Hf Hex.
  assert (Hne : read_entries E (f_content f) <> []).
  { intros Hnil. rewrite Hnil, entries_to_show_nil in Hex. by apply Exists_nil in Hex. }
  rewrite (viewLogFile_all E name numLines w f Hf Hne). unfold display_of.
  destruct (show_entries_err E _
              (chalk_bold E ("Log File: " +:+ path_basename (resolve_log_path E name)
                             +:+ newline +:+ newline)) Hex) as [error ->].
  by exists error.
Qed.

(** A parser that also knows [null], and a log whose second line is [null] *)
Definition parse_null (s : string) : option json :=
  if String.eqb s "null" then Some JNull else Demo.parse s.

Definition E_null : env := {|
  cache_dir := cache_dir Demo.E;
  cwd := cwd Demo.E;
  toISOString := toISOString Demo.E;
  local_date := local_date Demo.E;
  uuid_of := uuid_of Demo.E;
  json_text := json_text Demo.E;
  json_of_text := parse_null;
  json_pretty := json_pretty Demo.E;
  URL_parse := URL_parse Demo.E;
  date_toLocaleString := date_toLocaleString Demo.E;
  timestamp_toLocaleString := timestamp_toLocaleString Demo.E;
  string_to_number := string_to_number Demo.E;
  kb_toFixed2 := kb_toFixed2 Demo.E;
  chalk_yellow := chalk_yellow Demo.E;
  chalk_green := chalk_green Demo.E;
  chalk_red := chalk_red Demo.E;
  chalk_blue := chalk_blue Demo.E;
  chalk_magenta := chalk_magenta Demo.E;
  chalk_white := chalk_white Demo.E;
  chalk_cyan := chalk_cyan Demo.E;
  chalk_gray := chalk_gray Demo.E;
  chalk_bold := chalk_bold Demo.E;
  chalk_bold_blue := chalk_bold_blue Demo.E
|}.

Definition null_log : file := {| f_content := "{}
null
"; f_birthtime := 5 |}.

Definition w_null : world := {|
  w_heap := [];
  w_fs := {| fs_dirs := [Demo.logs]; fs_files := [(Demo.today, null_log)];
             fs_readonly := [] |};
  w_stdout := []; w_stderr := []; w_now := 1000; w_uuids := 0
|}.

Lemma unformattable_entry_hides_file_witness :
  exists error,
    viewLogFile E_null "api-log-2025-01-05" (NInt 0) w_null =
    Ret (chalk_red E_null ("Error viewing log file: " +:+ error_message error)) w_null.
Proof.
  apply (unformattable_entry_hides_file E_null "api-log-2025-01-05" (NInt 0) w_null null_log).
  - reflexivity.
  - vm_compute. apply Exists_cons_tl, Exists_cons_hd. reflexivity.
Defined.

Example null_line_hides_file :
  viewLogFile E_null "api-log-2025-01-05" (NInt 0) w_null =
  Ret "<red>Error viewing log file: Cannot read properties of undefined or null, reading raw</red>"
    w_null.
Proof. vm_compute. reflexivity. Qed.



(** * [clear], confirmed *)

Lemma filter_ext_in {A} (P Q : A -> Prop) `{forall x, Decision (P x)} `{forall x, Decision (Q x)}
    (l : list A) :
  (forall x, x ∈ l -> P x <-> Q x) -> filter P l = filter Q l.
Proof.
  induction l as [ | x l IH ]; intros Hext; [done | ].
  rewrite !filter_cons. rewrite IH by (intros y Hy; apply Hext; by right).
  destruct (decide (P x)) as [HP | HP], (decide (Q x)) as [HQ | HQ]; try done.
  - destruct HQ. apply Hext; [left | done].
  - destruct HP. apply Hext; [left | done].
Qed.

Lemma filter_all {A} (P : A -> Prop) `{forall x, Decision (P x)} (l : list A) :
  Forall P l -> filter P l = l.
Proof.
  induction 1 as [ | x l Hx _ IH ]; [done | ]. by rewrite filter_cons_True, IH.
Qed.

Lemma keys_filter {A} (P : string -> Prop) `{forall k, Decision (P k)}
    (ps : list (string * A)) :
  (filter (fun x => P x.1) ps).*1 = filter P (ps.*1).
Proof.
  induction ps as [ | [k v] ps IH ]; [done | ].
  rewrite fmap_cons, !filter_cons. cbn [fst].
  destruct (decide (P k)); [by rewrite fmap_cons, IH | done].
Qed.

Lemma keys_filter_ne {A} p (ps : list (string * A)) :
  (filter (fun x => x.1 <> p) ps).*1 = filter (fun k => k <> p) (ps.*1).
Proof. exact (keys_filter (fun k => k <> p) ps). Qed.

(** The files left by the loop of [clearLogs] over the listing [ps] *)
Definition files_left (ps : list string) (files : list (string * file))
    : list (string * file) :=
  filter (fun x => ~ (x.1 ∈ ps /\ is_log_file (path_basename x.1) = true)) files.

Definition with_files (w : world) (files : list (string * file)) : world :=
  with_fs w {| fs_dirs := fs_dirs (w_fs w); fs_files := files;
               fs_readonly := fs_readonly (w_fs w) |}.

Lemma delete_log_files_spec dir ps : forall n w,
  dir <> "" -> NoDup ps ->
  Forall (fun p => p ∈ (fs_files (w_fs w)).*1 /\ path_dirname p = dir /\
                   (is_log_file (path_basename p) = true -> p ∉ fs_readonly (w_fs w))) ps ->
  delete_log_files dir (path_basename <$> ps) n w =
    Ret (n + length (List.filter (fun p => is_log_file (path_basename p)) ps))
        (with_files w (files_left ps (fs_files (w_fs w)))).
Proof.
  intros n w Hdir. revert n w.
  induction ps as [ | p ps IH ]; intros n w Hnd Hall.
  - cbn [fmap list_fmap delete_log_files List.filter length]. unfold ret. f_equal; [lia | ].
    unfold with_files, files_left. rewrite filter_all.
    + destruct w as [h [dirs files ro] out err now uu]. done.
    + apply Forall_forall. intros x _ [Hin _]. by apply elem_of_nil in Hin.
  - apply NoDup_cons in Hnd as [Hp Hnd]. apply Forall_cons in Hall as [(Hin & Hd & Hro) Hall].
    rewrite fmap_cons. cbn [delete_log_files List.filter].
    destruct (is_log_file (path_basename p)) eqn:Hlog.
    + assert (Hjoin : path_join dir (path_basename p) = p).
      { rewrite <- Hd. apply path_join_dirname_basename. by rewrite Hd. }
      rewrite Hjoin. unfold bind at 1, on_fs, unlinkSync, is_readonly.
      rewrite bool_decide_eq_false_2 by auto. rewrite bool_decide_eq_true_2 by done.
      set (w1 := with_fs w _).
      rewrite (IH (S n) w1 Hnd).
      * cbn [length]. f_equal; [lia | ].
        unfold with_files, w1, with_fs.
        cbn [w_fs fs_dirs fs_files fs_readonly w_heap w_stdout w_stderr w_now w_uuids].
        do 2 f_equal. unfold files_left.
        rewrite list_filter_filter. apply filter_ext_in. intros x _. split.
        -- intros [Hno Hx] [Hxin Hxlog]. apply elem_of_cons in Hxin as [Heq | Hxin]; auto.
        -- intros Hno. split.
           ++ intros [Hxin Hxlog]. apply Hno. split; [by right | done].
           ++ intros Heq. apply Hno. rewrite Heq. split; [left | done].
      * rewrite Forall_forall in Hall. apply Forall_forall. intros q Hq.
        destruct (Hall q Hq) as (Hqin & Hqd & Hqro). unfold w1, with_fs.
        cbn [w_fs fs_files fs_readonly]. split; [ | done ].
        rewrite keys_filter_ne. apply list_elem_of_filter. split; [ | done ].
        by intros ->.
    + rewrite (IH n w Hnd Hall). f_equal.
      unfold with_files, files_left. do 2 f_equal.
      apply filter_ext_in. intros x _. split.
      * intros Hno [Hxin Hxlog]. apply Hno. split; [ | done ].
        apply elem_of_cons in Hxin as [Heq | Hxin]; [congruence | done].
      * intros Hno [Hxin Hxlog]. apply Hno. split; [by right | done].
Qed.

Lemma length_log_paths dir ps :
  length (List.filter (fun p => is_log_file (path_basename p))
            (filter (fun p => path_dirname p = dir) ps)) =
  length (filter (in_logs dir) ps).
Proof.
  induction ps as [ | p ps IH ]; [done | ]. rewrite !filter_cons.
  destruct (decide (in_logs dir p)) as [[Hd Hlog] | Hno].
  - rewrite decide_True by done. cbn [List.filter]. rewrite Hlog. cbn [length]. by rewrite IH.
  - destruct (decide (path_dirname p = dir)) as [Hd | Hd]; [ | exact IH ].
    cbn [List.filter]. destruct (is_log_file (path_basename p)) eqn:Hlog; [ | exact IH ].
    by destruct Hno.
Qed.

(** The file system without the log files of [dir] *)
Definition without_logs (f : fs) (dir : string) : fs :=
  {| fs_dirs := fs_dirs f;
     fs_files := filter (fun x => ~ in_logs dir x.1) (fs_files f);
     fs_readonly := fs_readonly f |}.

(** X9.  [clear], confirmed.  When the answer is [y] or [Y], the logs
    directory is there, and none of its log files is protected, [clearLogs]
    removes exactly the files of that directory whose name ends in [.log]
    or [.jsonl], reports their number, and leaves every other file, the
    directories and the heap as they were. *)
Theorem clearLogs_removes_log_files (E : env) (answer : string) (w : world) :
  answer = "y" \/ answer = "Y" ->
  API_LOGS_PATH E ∈ fs_dirs (w_fs w) ->
  NoDup (fs_files (w_fs w)).*1 ->
  (forall p, p ∈ log_paths (w_fs w) (API_LOGS_PATH E) -> p ∉ fs_readonly (w_fs w)) ->
  clearLogs E answer w =
  Ret (chalk_green E
         ("Successfully deleted " +:+
          Str.of_Z (Z.of_nat (length (log_paths (w_fs w) (API_LOGS_PATH E)))) +:+
          " log files"))
      (with_fs (after_prompt E w) (without_logs (w_fs w) (API_LOGS_PATH E))).
Proof.
  intros Hanswer Hdir Hnd Hro.
  pose proof (API_LOGS_PATH_not_empty E) as Hne.
  unfold clearLogs. unfold bind at 1, print. fold (after_prompt E w).
  assert (String.eqb (Str.toLowerCase answer) "y" = true) as ->
    by (by destruct Hanswer as [-> | ->]).
  unfold try_catch. unfold bind at 1, on_fs at 1, readdirSync.
  cbn [w_fs after_prompt]. rewrite bool_decide_eq_true_2 by done.
  unfold bind at 1.
  rewrite (delete_log_files_spec (API_LOGS_PATH E)); [ | done | | ].
  - rewrite Nat.add_0_l, length_log_paths. unfold ret. f_equal.
    unfold with_files, without_logs, files_left, with_fs, after_prompt.
    cbn [w_fs fs_dirs fs_files fs_readonly w_heap w_stdout w_stderr w_now w_uuids].
    do 2 f_equal.
    apply filter_ext_in. intros x Hx. unfold in_logs. split.
    + intros Hno [Hd Hlog]. apply Hno. split; [ | done ].
      apply list_elem_of_filter. split; [done | ]. apply list_elem_of_fmap. by exists x.
    + intros Hno [Hin Hlog]. apply Hno. split; [ | done ].
      by apply list_elem_of_filter in Hin as [Hd _].
  - cbn [w_fs with_fs after_prompt]. by apply NoDup_filter.
  - cbn [w_fs with_fs after_prompt]. apply Forall_forall. intros p Hp.
    apply list_elem_of_filter in Hp as [Hd Hp]. split; [done | ]. split; [done | ].
    intros Hlog. apply Hro. apply list_elem_of_filter. by split.
Qed.

Lemma clearLogs_removes_log_files_witness :
  clearLogs Demo.E "Y" Demo.w =
  Ret (chalk_green Demo.E "Successfully deleted 2 log files")
      (with_fs (after_prompt Demo.E Demo.w) (without_logs Demo.disk Demo.logs)).
Proof.
  apply (clearLogs_removes_log_files Demo.E "Y" Demo.w).
  - by right.
  - vm_compute. left.
  - vm_compute. apply NoDup_ListNoDup. repeat constructor; cbn; intuition discriminate.
  - intros p Hp. vm_compute. by intros ?%elem_of_nil.
Defined.


(** * The words of the command line *)

Fixpoint spaces (k : nat) : string :=
  match k with
  | 0 => ""
  | S k => String " " (spaces k)
  end.

(** [s] begins with white space or a line terminator. *)
Definition starts_blank (s : string) : bool :=
  match s with
  | String a s1 =>
      Str.is_space a ||
      match s1 with
      | String b s2 =>
          Str.blank2 a b ||
          match s2 with
          | String c _ => Str.blank3 a b c
          | EmptyString => false
          end
      | EmptyString => false
      end
  | EmptyString => false
  end.

(** The white space of [s] is made of spaces. *)
Fixpoint spaced (s : string) : bool :=
  match s with
  | EmptyString => true
  | String c s' => (negb (starts_blank s) || Ascii.eqb c " ") && spaced s'
  end.

(** [s] holds no white space and no line terminator. *)
Fixpoint no_space (s : string) : bool :=
  match s with
  | EmptyString => true
  | String c s' => negb (starts_blank s) && no_space s'
  end.

Definition words (s : string) : list string :=
  List.filter Str.nonempty (Str.split " " s).

Lemma words_append s t : words (s +:+ String " " t) = words s ++ words t.
Proof. unfold words. by rewrite split_append, List.filter_app. Qed.

Lemma words_spaces k : words (spaces k) = [].
Proof. induction k as [ | k IH ]; [done | exact IH]. Qed.

Lemma words_spaces_l k s : words (spaces k +:+ s) = words s.
Proof. induction k as [ | k IH ]; [done | exact IH]. Qed.

Lemma words_spaces_r k s : words (s +:+ spaces k) = words s.
Proof.
  destruct k as [ | k ]; [by rewrite append_nil_r | ].
  cbn [spaces]. by rewrite words_append, words_spaces, app_nil_r.
Qed.

Lemma trimStart_not_blank s : starts_blank s = false -> Str.trimStart s = s.
Proof.
  destruct s as [ | a [ | b [ | c s3 ] ] ]; cbn [starts_blank Str.trimStart]; try done.
  - rewrite orb_false_r. by intros ->.
  - intros [-> [-> _]%orb_false_iff]%orb_false_iff. done.
  - intros [-> [-> ->]%orb_false_iff]%orb_false_iff. done.
Qed.

Lemma trimStart_space s : Str.trimStart (String " " s) = Str.trimStart s.
Proof. reflexivity. Qed.

Lemma trimEnd_cons a s :
  Str.trimEnd (String a s) =
  if String.eqb (Str.trimStart (String a s)) "" then "" else String a (Str.trimEnd s).
Proof. reflexivity. Qed.

Lemma trimStart_spaces s :
  spaced s = true -> exists k, s = spaces k +:+ Str.trimStart s /\ spaced (Str.trimStart s) = true.
Proof.
  induction s as [ | c s IH ]; [by exists 0 | ].
  intros Hs. pose proof Hs as Hs'. cbn [spaced] in Hs'.
  apply andb_true_iff in Hs' as [Hc Hrest].
  destruct (starts_blank (String c s)) eqn:Hblank.
  - cbn [negb orb] in Hc. apply Ascii.eqb_eq in Hc as ->. rewrite trimStart_space.
    destruct (IH Hrest) as (k & Heq & Hsp'). exists (S k). split; [ | done ].
    cbn [spaces]. by rewrite append_String, <- Heq.
  - exists 0. by rewrite trimStart_not_blank.
Qed.

Lemma trimEnd_spaces s :
  spaced s = true -> exists k, s = Str.trimEnd s +:+ spaces k.
Proof.
  induction s as [ | c s IH ]; [by exists 0 | ].
  intros Hs. rewrite trimEnd_cons.
  destruct (String.eqb_spec (Str.trimStart (String c s)) "") as [Hall | _].
  - destruct (trimStart_spaces _ Hs) as (k & Heq & _). rewrite Hall, append_nil_r in Heq.
    by exists k.
  - cbn [spaced] in Hs. apply andb_true_iff in Hs as [_ Hrest].
    destruct (IH Hrest) as (k & Heq). exists k. by rewrite append_String, <- Heq.
Qed.

Lemma command_words_spaced args : spaced args = true -> command_words args = words args.
Proof.
  intros Hs. unfold command_words, Str.trim. fold (words (Str.trimEnd (Str.trimStart args))).
  destruct (trimStart_spaces args Hs) as (k & Heq & Hs').
  destruct (trimEnd_spaces _ Hs') as (k' & Heq').
  rewrite Heq at 2. rewrite words_spaces_l. rewrite Heq' at 2. by rewrite words_spaces_r.
Qed.

Lemma all_chars_append p s t : all_chars p (s +:+ t) = all_chars p s && all_chars p t.
Proof.
  induction s as [ | c s IH ]; [done | ]. rewrite append_String. cbn [all_chars].
  by rewrite IH, andb_assoc.
Qed.

Lemma blank2_space a : Str.blank2 a " " = false.
Proof. unfold Str.blank2. apply andb_false_r. Qed.

Lemma blank3_space_2 a c : Str.blank3 a " " c = false.
Proof. unfold Str.blank3. cbn. by rewrite !andb_false_r. Qed.

Lemma blank3_space_3 a b : Str.blank3 a b " " = false.
Proof. unfold Str.blank3. cbn. by rewrite !andb_false_r. Qed.

(** What follows a piece does not make white space of its end, when it
    begins with a space. *)
Lemma starts_blank_before_space a x t :
  starts_blank (String a x +:+ String " " t) = starts_blank (String a x).
Proof.
  destruct x as [ | b [ | c x ] ]; rewrite !append_String.
  - change ("" +:+ String " " t) with (String " " t). cbn [starts_blank].
    rewrite blank2_space. destruct t; [done | by rewrite blank3_space_2].
  - change ("" +:+ String " " t) with (String " " t). cbn [starts_blank].
    by rewrite blank3_space_3.
  - done.
Qed.

Lemma no_space_spaced s : no_space s = true -> spaced s = true /\ no_char " " s = true.
Proof.
  induction s as [ | c s IH ]; [done | ]. cbn [no_space spaced no_char].
  intros [Hc Hs]%andb_true_iff. destruct (IH Hs) as [-> ->]. rewrite Hc. split; [done | ].
  rewrite andb_true_r. apply negb_true_iff, Ascii.eqb_neq. intros ->.
  by destruct s as [ | b [ | d s ] ].
Qed.

Lemma spaced_before_space x t :
  no_space x = true -> spaced t = true -> spaced (x +:+ String " " t) = true.
Proof.
  intros Hx Ht. induction x as [ | a x IH ].
  - change (spaced (String " " t) = true). cbn [spaced]. rewrite Ht.
    by rewrite Ascii.eqb_refl, orb_true_r.
  - cbn [no_space] in Hx. apply andb_true_iff in Hx as [Ha Hx].
    rewrite append_String. cbn [spaced]. rewrite IH by done. rewrite andb_true_r.
    rewrite <- append_String, starts_blank_before_space. by rewrite Ha.
Qed.

Lemma spaced_join xs :
  Forall (fun x => no_space x = true) xs -> spaced (Str.join " " xs) = true.
Proof.
  induction 1 as [ | x xs Hx _ IH ]; [done | ].
  destruct xs as [ | y ys ]; [by apply no_space_spaced | ].
  change (Str.join " " (x :: y :: ys)) with (x +:+ String " " (Str.join " " (y :: ys))).
  by apply spaced_before_space.
Qed.

(** X10.  The words of the command line.  The words [call] dispatches on are
    never empty and hold no space.  When the line is made of pieces without
    white space, joined by single spaces, the words are its non-empty
    pieces: runs of spaces, and spaces before the first word or after the
    last, count for nothing.  (White space is that of [trim]: the ASCII
    blanks and line ends, and the others of Unicode, such as U+00A0.) *)
Theorem command_words_pieces :
  (forall args, Forall (fun word => word <> "" /\ no_char " " word = true)
                  (command_words args)) /\
  (forall pieces,
     Forall (fun piece => no_space piece = true) pieces ->
     command_words (Str.join " " pieces) = List.filter Str.nonempty pieces).
Proof.
  split.
  - intros args. unfold command_words. apply Forall_forall. intros word Hw.
    apply list_elem_of_In, List.filter_In in Hw as [Hin Hne]. split.
    + intros ->. done.
    + pose proof (split_pieces " " (Str.trim args)) as Hall. rewrite Forall_forall in Hall.
      apply Hall. by apply list_elem_of_In.
  - intros pieces Hall. rewrite command_words_spaced by (by apply spaced_join).
    unfold words. destruct pieces as [ | x xs ]; [done | ].
    rewrite (split_join " " (x :: xs)); [done | done | ].
    apply forallb_forall. intros y Hy. rewrite Forall_forall in Hall.
    by apply no_space_spaced, Hall, list_elem_of_In.
Qed.

Lemma command_words_pieces_witness :
  command_words "  view   api-log-2025-01-05   2 " = ["view"; "api-log-2025-01-05"; "2"].
Proof.
  apply (proj2 command_words_pieces [""; ""; "view"; ""; ""; "api-log-2025-01-05"; ""; ""; "2"; ""]).
  repeat constructor.
Defined.

(** The no-break space U+00A0 (the bytes 194 and 160) and the ideographic
    space U+3000 (227, 128, 128) are white space for [trim], and are no
    separators of words. *)
Example command_words_unicode_blanks :
  let nbsp := String (Str.byte 194) (String (Str.byte 160) "") in
  let wide := String (Str.byte 227) (String (Str.byte 128) (String (Str.byte 128) "")) in
  command_words (nbsp +:+ "clear" +:+ wide) = ["clear"] /\
  command_words ("view" +:+ nbsp +:+ "file") = ["view" +:+ nbsp +:+ "file"] /\
  parseInt (nbsp +:+ "5") = NInt 5.
Proof. repeat split; vm_compute; reflexivity. Qed.

(** * The logs directory and the name of the log file *)


Lemma all_chars_impl (p q : ascii -> bool) s :
  (forall c, p c = true -> q c = true) -> all_chars p s = true -> all_chars q s = true.
Proof.
  intros Hpq. induction s as [ | c s IH ]; [done | ]. cbn [all_chars].
  intros [Hc Hs]%andb_true_iff. by rewrite (Hpq c Hc), IH.
Qed.

Lemma all_chars_no_char p c s :
  p c = false -> all_chars p s = true -> no_char c s = true.
Proof.
  intros Hc. induction s as [ | a s IH ]; [done | ]. cbn [all_chars no_char].
  intros [Ha Hs]%andb_true_iff. rewrite IH by done. rewrite andb_true_r.
  apply negb_true_iff, Ascii.eqb_neq. intros ->. congruence.
Qed.

Definition is_ascii (c : ascii) : bool := nat_of_ascii c <? 128.









(** ** The date in the name of the log file *)

Definition is_date_char (c : ascii) : bool := is_digit c || Ascii.eqb c "-".

Lemma string_of_uint_digits d : all_chars is_digit (NilEmpty.string_of_uint d) = true.
Proof. induction d; cbn [NilEmpty.string_of_uint all_chars]; by rewrite ?IHd. Qed.

Lemma of_Z_chars z : all_chars is_date_char (Str.of_Z z) = true.
Proof.
  assert (Hu : forall d, all_chars is_date_char (NilZero.string_of_uint d) = true).
  { intros d. apply (all_chars_impl is_digit).
    - intros c Hc. unfold is_date_char. by rewrite Hc.
    - destruct d; try apply string_of_uint_digits. done. }
  unfold Str.of_Z. destruct (Z.to_int z); cbn [NilZero.string_of_int]; [apply Hu | ].
  cbn [all_chars]. by rewrite Hu.
Qed.

Lemma concat_zeros k :
  String.concat "" (replicate (S k) "0") = String "0" (String.concat "" (replicate k "0")).
Proof. by destruct k. Qed.

Lemma padStart0_chars n s :
  all_chars is_date_char s = true -> all_chars is_date_char (Str.padStart0 n s) = true.
Proof.
  intros Hs. unfold Str.padStart0. rewrite all_chars_append, Hs, andb_true_r.
  induction (n - String.length s) as [ | k IH ]; [done | ].
  rewrite concat_zeros. cbn [all_chars]. by rewrite IH.
Qed.

(** The date [getCurrentDate] makes of the clock *)
Definition current_date (E : env) (now : Z) : string :=
  let '(year, month, day) := local_date E now in
  Str.of_Z year +:+ "-" +:+ Str.padStart0 2 (Str.of_Z (month + 1)) +:+ "-" +:+
  Str.padStart0 2 (Str.of_Z day).

Lemma getCurrentDate_eq E w : getCurrentDate E w = Ret (current_date E (w_now w)) w.
Proof.
  unfold getCurrentDate, current_date, bind, Date_now.
  by destruct (local_date E (w_now w)) as [[year month] day].
Qed.

Lemma current_date_chars E now : all_chars is_date_char (current_date E now) = true.
Proof.
  unfold current_date. destruct (local_date E now) as [[year month] day].
  rewrite !all_chars_append, of_Z_chars, !padStart0_chars by apply of_Z_chars. done.
Qed.

Lemma forall_range (P : Z -> bool) (lo : Z) (n : nat) :
  forallb (fun k => P (lo + Z.of_nat k)%Z) (seq 0 n) = true ->
  forall z, (lo <= z < lo + Z.of_nat n)%Z -> P z = true.
Proof.
  intros Hall z Hz. rewrite forallb_forall in Hall.
  replace z with (lo + Z.of_nat (Z.to_nat (z - lo)))%Z by lia.
  apply Hall. apply in_seq. lia.
Qed.

Definition number_eqb (a : number) (z : Z) : bool :=
  match a with NInt x => (x =? z)%Z | NaN => false end.

Lemma number_eqb_eq a z : number_eqb a z = true -> a = NInt z.
Proof. destruct a as [ x | ]; [ | done ]. cbn. by intros ->%Z.eqb_eq. Qed.

(** A field of the date: [width] digits that read back as [z] *)
Definition field_ok (width : nat) (text : string) (z : Z) : bool :=
  (String.length text =? width) && all_chars is_digit text && number_eqb (parseInt text) z.

Lemma year_field y :
  (1000 <= y <= 9999)%Z -> field_ok 4 (Str.of_Z y) y = true.
Proof.
  intros Hy. apply (forall_range (fun y => field_ok 4 (Str.of_Z y) y) 1000 (Z.to_nat 9000)); [ | lia ].
  vm_compute. reflexivity.
Qed.

Lemma two_digit_field z :
  (0 <= z <= 99)%Z -> field_ok 2 (Str.padStart0 2 (Str.of_Z z)) z = true.
Proof.
  intros Hz.
  apply (forall_range (fun z => field_ok 2 (Str.padStart0 2 (Str.of_Z z)) z) 0 100); [ | lia ].
  vm_compute. reflexivity.
Qed.

Lemma length_4 s : String.length s = 4 -> exists a b c d, s = String a (String b (String c (String d ""))).
Proof. destruct s as [ | a [ | b [ | c [ | d [ | ] ] ] ] ]; try done. by eexists _, _, _, _. Qed.

Lemma length_2 s : String.length s = 2 -> exists a b, s = String a (String b "").
Proof. destruct s as [ | a [ | b [ | ] ] ]; try done. by eexists _, _. Qed.

(** X12.  The date of the log file.  For a clock whose local date is the day
    [day] of the month numbered [month] from 0, in a year of four digits,
    [getCurrentDate] returns ten characters [YYYY-MM-DD]: four digits that
    read as the year, two that read as the month counted from 1 and two
    that read as the day (a month or a day below 10 begins therefore with a
    zero), with a dash after the year and after the month; it leaves the
    world as it is. *)
Theorem getCurrentDate_format (E : env) (w : world) (year month day : Z) :
  local_date E (w_now w) = (year, month, day) ->
  (1000 <= year <= 9999)%Z -> (0 <= month <= 11)%Z -> (1 <= day <= 31)%Z ->
  exists date,
    getCurrentDate E w = Ret date w /\
    String.length date = 10 /\
    get 4 date = Some "-"%char /\ get 7 date = Some "-"%char /\
    all_chars is_digit (substring 0 4 date) = true /\
    all_chars is_digit (substring 5 2 date) = true /\
    all_chars is_digit (substring 8 2 date) = true /\
    parseInt (substring 0 4 date) = NInt year /\
    parseInt (substring 5 2 date) = NInt (month + 1) /\
    parseInt (substring 8 2 date) = NInt day.
Proof.
  intros Hdate Hyear Hmonth Hday. exists (current_date E (w_now w)).
  split; [apply getCurrentDate_eq | ]. unfold current_date. rewrite Hdate.
  pose proof (year_field year Hyear) as [[Hly Hdy]%andb_true_iff Hy]%andb_true_iff.
  pose proof (two_digit_field (month + 1) ltac:(lia))
    as [[Hlm Hdm]%andb_true_iff Hm]%andb_true_iff.
  pose proof (two_digit_field day ltac:(lia)) as [[Hld Hdd]%andb_true_iff Hd]%andb_true_iff.
  apply Nat.eqb_eq in Hly, Hlm, Hld. apply number_eqb_eq in Hy, Hm, Hd.
  destruct (length_4 _ Hly) as (y1 & y2 & y3 & y4 & Hys).
  destruct (length_2 _ Hlm) as (m1 & m2 & Hms).
  destruct (length_2 _ Hld) as (d1 & d2 & Hds).
  rewrite Hys, Hms, Hds in *.
  split; [done | ]. split; [done | ]. split; [done | ].
  split; [exact Hdy | ]. split; [exact Hdm | ]. split; [exact Hdd | ].
  split; [exact Hy | ]. split; [exact Hm | exact Hd].
Qed.

Lemma getCurrentDate_format_witness :
  exists date,
    getCurrentDate Demo.E Demo.w = Ret date Demo.w /\
    String.length date = 10 /\
    get 4 date = Some "-"%char /\ get 7 date = Some "-"%char /\
    all_chars is_digit (substring 0 4 date) = true /\
    all_chars is_digit (substring 5 2 date) = true /\
    all_chars is_digit (substring 8 2 date) = true /\
    parseInt (substring 0 4 date) = NInt 2025 /\
    parseInt (substring 5 2 date) = NInt (0 + 1) /\
    parseInt (substring 8 2 date) = NInt 5.
Proof.
  apply (getCurrentDate_format Demo.E Demo.w 2025 0 5); [reflexivity | lia | lia | lia].
Defined.

Example getCurrentDate_example : getCurrentDate Demo.E Demo.w = Ret "2025-01-05" Demo.w.
Proof. reflexivity. Qed.

(** ** The name of the log file, for its readers *)

Lemma substring_append_r a b :
  substring (String.length a) (String.length b) (a +:+ b) = b.
Proof.
  induction a as [ | c a IH ]; [ | exact IH ].
  cbn [String.length]. change ("" +:+ b) with b.
  induction b as [ | c b IHb ]; [done | ]. cbn. by rewrite IHb.
Qed.

Lemma endsWith_append a b : Str.endsWith (a +:+ b) b = true.
Proof.
  unfold Str.endsWith. rewrite length_append.
  replace (String.length a + String.length b - String.length b) with (String.length a) by lia.
  rewrite substring_append_r, String.eqb_refl, andb_true_r. apply Nat.leb_le. lia.
Qed.

Lemma replace_unfold s pattern by_ :
  Str.replace s pattern by_ =
  if String.prefix pattern s
  then by_ +:+ substring (String.length pattern) (String.length s - String.length pattern) s
  else match s with
       | EmptyString => EmptyString
       | String c s' => String c (Str.replace s' pattern by_)
       end.
Proof. by destruct s. Qed.

Lemma replace_prefix p s by_ : Str.replace (p +:+ s) p by_ = by_ +:+ s.
Proof.
  assert (Hcut : substring (String.length p) (String.length (p +:+ s) - String.length p)
                   (p +:+ s) = s).
  { rewrite length_append.
    replace (String.length p + String.length s - String.length p) with (String.length s) by lia.
    apply substring_append_r. }
  by rewrite replace_unfold, prefix_append, Hcut.
Qed.

Lemma replace_suffix s c x by_ :
  no_char c s = true -> Str.replace (s +:+ String c x) (String c x) by_ = s +:+ by_.
Proof.
  induction s as [ | a s IH ].
  - intros _. change ("" +:+ String c x) with (String c x). change ("" +:+ by_) with by_.
    rewrite <- (append_nil_r (String c x)) at 1. by rewrite replace_prefix, append_nil_r.
  - cbn [no_char]. intros [Ha Hs]%andb_true_iff. apply negb_true_iff in Ha.
    rewrite !append_String, replace_unfold. cbn [String.prefix].
    destruct (ascii_dec c a) as [-> | _]; [by rewrite Ascii.eqb_refl in Ha | ].
    by rewrite IH.
Qed.

(** The name of today's log file *)
Definition log_file_name (date : string) : string := "api-log-" +:+ date +:+ ".jsonl".

Lemma getApiLogFilePath_name E w :
  sat (getApiLogFilePath E w)
    (fun p _ => p = path_join (API_LOGS_PATH E) (log_file_name (current_date E (w_now w))))
    (fun _ _ => True).
Proof.
  unfold getApiLogFilePath. apply sat_bind.
  eapply sat_mono; [apply ensureApiLogsDirectoryExists_spec | | done]. cbn beta.
  intros _ w' [_ _ _ Hnow _ _ _]. unfold bind. rewrite getCurrentDate_eq, Hnow. done.
Qed.

Lemma log_file_name_no_sep E now : no_char "/" (log_file_name (current_date E now)) = true.
Proof.
  set (q := fun c => is_date_char c || is_alpha c || Ascii.eqb c ".").
  apply (all_chars_no_char q); [done | ].
  unfold log_file_name. rewrite !all_chars_append.
  rewrite (all_chars_impl is_date_char q (current_date E now)); [done | | ].
  - intros c Hc. unfold q. by rewrite Hc.
  - apply current_date_chars.
Qed.

(** X13.  The writer names its file as the readers expect.  The path
    [getApiLogFilePath] returns is the file [api-log-<date>.jsonl] of the
    logs directory.  [listLogFiles], [tailLogs] and [clearLogs] take that
    name for a log file, and [getApiLogs] for an API log, of which it reads
    the date back; and [viewLogFile] resolves the name, with or without
    its extension, to that path. *)
Theorem log_file_name_recognised (E : env) (w w' : world) (logPath : string) :
  getApiLogFilePath E w = Ret logPath w' ->
  exists date,
    logPath = path_join (API_LOGS_PATH E) (log_file_name date) /\
    path_dirname logPath = API_LOGS_PATH E /\
    path_basename logPath = log_file_name date /\
    is_log_file (log_file_name date) = true /\
    is_api_log (log_file_name date) = true /\
    date_of (log_file_name date) = date /\
    resolve_log_path E (log_file_name date) = logPath /\
    resolve_log_path E ("api-log-" +:+ date) = logPath.
Proof.
  intros Hrun. pose proof (getApiLogFilePath_name E w) as Hname.
  rewrite Hrun in Hname. cbn [sat] in Hname. subst logPath.
  set (date := current_date E (w_now w)). exists date.
  pose proof (log_file_name_no_sep E (w_now w)) as Hsep. fold date in Hsep.
  pose proof (current_date_chars E (w_now w)) as Hchars. fold date in Hchars.
  assert (Hdot : no_char "." date = true) by (by eapply all_chars_no_char; [ | exact Hchars ]).
  assert (Hnosep : no_char "/" date = true) by (by eapply all_chars_no_char; [ | exact Hchars ]).
  assert (Hname : log_file_name date = ("api-log-" +:+ date) +:+ String "." "jsonl").
  { unfold log_file_name. by rewrite append_assoc. }
  split; [done | ]. split; [by apply path_dirname_join | ].
  split; [by apply path_basename_join | ].
  split; [ | split; [ | split; [ | split ] ] ].
  - unfold is_log_file. rewrite Hname, (endsWith_append _ ".jsonl"). apply orb_true_r.
  - unfold is_api_log. rewrite Hname at 2. rewrite (endsWith_append _ ".jsonl"), andb_true_r.
    apply (prefix_append "api-log-").
  - unfold date_of, log_file_name. rewrite (replace_prefix "api-log-").
    change ("" +:+ date +:+ ".jsonl") with (date +:+ String "." "jsonl").
    rewrite replace_suffix by done. apply append_nil_r.
  - rewrite Hname, resolve_log_path_ext by (done || by rewrite <- Hname). done.
  - rewrite resolve_log_path_plain; [by rewrite append_assoc | | ].
    + change (no_char "/" (String "a" (String "p" (String "i" (String "-" (String "l"
               (String "o" (String "g" (String "-" date)))))))) = true).
      cbn [no_char]. exact Hnosep.
    + change (no_char "." (String "a" (String "p" (String "i" (String "-" (String "l"
               (String "o" (String "g" (String "-" date)))))))) = true).
      cbn [no_char]. exact Hdot.
Qed.

Lemma log_file_name_recognised_witness :
  exists date,
    Demo.today = path_join Demo.logs (log_file_name date) /\
    path_dirname Demo.today = Demo.logs /\
    path_basename Demo.today = log_file_name date /\
    is_log_file (log_file_name date) = true /\
    is_api_log (log_file_name date) = true /\
    date_of (log_file_name date) = date /\
    resolve_log_path Demo.E (log_file_name date) = Demo.today /\
    resolve_log_path Demo.E ("api-log-" +:+ date) = Demo.today.
Proof.
  apply (log_file_name_recognised Demo.E Demo.w Demo.w Demo.today). reflexivity.
Defined.


(** * Making the logs directory *)

(** The file system with the directory [dir] added *)
Definition with_dir (f : fs) (dir : string) : fs :=
  {| fs_dirs := fs_dirs f ++ [dir]; fs_files := fs_files f; fs_readonly := fs_readonly f |}.

Lemma ensureApiLogsDirectoryExists_cases E w :
  ensureApiLogsDirectoryExists E w =
  if existsSync (w_fs w) (API_LOGS_PATH E) then Ret tt w
  else if is_readonly (w_fs w) (API_LOGS_PATH E)
       then Throw (fs_error "EACCES" (API_LOGS_PATH E)) w
       else Ret tt (with_fs w (with_dir (w_fs w) (API_LOGS_PATH E))).
Proof.
  unfold ensureApiLogsDirectoryExists, bind, on_fs, get_state. rewrite with_fs_same.
  destruct (existsSync (w_fs w) (API_LOGS_PATH E)) eqn:Hex; cbn [negb]; [done | ].
  unfold mkdirSync. destruct (is_readonly (w_fs w) (API_LOGS_PATH E)).
  - by rewrite with_fs_same.
  - rewrite bool_decide_eq_false_2; [done | ].
    intros Hin. unfold existsSync in Hex. by rewrite bool_decide_eq_true_2 in Hex.
Qed.

Lemma existsSync_with_dir f dir : existsSync (with_dir f dir) dir = true.
Proof.
  unfold existsSync, with_dir. cbn. rewrite bool_decide_eq_true_2; [done | ].
  apply elem_of_app. right. left.
Qed.

Lemma getApiLogFilePath_cases E w :
  getApiLogFilePath E w =
  match ensureApiLogsDirectoryExists E w with
  | Ret _ w1 =>
      Ret (path_join (API_LOGS_PATH E) (log_file_name (current_date E (w_now w1)))) w1
  | Throw e w1 => Throw e w1
  | OutOfFuel => OutOfFuel
  end.
Proof.
  unfold getApiLogFilePath, bind.
  destruct (ensureApiLogsDirectoryExists E w); try done. by rewrite getCurrentDate_eq.
Qed.

(** X14.  [enableApiLogging] makes the logs directory when it is not there,
    and prints the path of today's log file; it creates no file.  It does
    not catch the failure to make the directory: the error goes to its
    caller, nothing having been printed. *)
Theorem enableApiLogging_makes_directory (E : env) (w : world) :
  if negb (existsSync (w_fs w) (API_LOGS_PATH E)) && is_readonly (w_fs w) (API_LOGS_PATH E)
  then exists error, enableApiLogging E w = Throw error w
  else exists w',
         enableApiLogging E w = Ret tt w' /\
         existsSync (w_fs w') (API_LOGS_PATH E) = true /\
         w_stdout w' =
           w_stdout w ++
           ["API logging enabled. Logs will be written to: " +:+
            path_join (API_LOGS_PATH E) (log_file_name (current_date E (w_now w)))] /\
         fs_files (w_fs w') = fs_files (w_fs w) /\
         (fs_dirs (w_fs w') = fs_dirs (w_fs w) \/
          fs_dirs (w_fs w') = fs_dirs (w_fs w) ++ [API_LOGS_PATH E]) /\
         w_heap w' = w_heap w /\ w_stderr w' = w_stderr w.
Proof.
  unfold enableApiLogging, bind. rewrite getApiLogFilePath_cases.
  rewrite ensureApiLogsDirectoryExists_cases.
  destruct (existsSync (w_fs w) (API_LOGS_PATH E)) eqn:Hex; cbn [negb andb].
  - unfold print. rewrite ensureApiLogsDirectoryExists_cases. cbn [w_fs]. rewrite Hex.
    eexists. split; [reflexivity | ]. cbn. auto 10.
  - destruct (is_readonly (w_fs w) (API_LOGS_PATH E)) eqn:Hro; [by eexists | ].
    unfold print. rewrite ensureApiLogsDirectoryExists_cases. cbn [w_fs with_fs].
    rewrite existsSync_with_dir.
    eexists. split; [reflexivity | ]. cbn [w_fs w_stdout w_heap w_stderr w_now with_fs].
    rewrite existsSync_with_dir. cbn. auto 10.
Qed.

(** * [getApiLogs] *)

Lemma insert_sorted_perm {A} (cmp : A -> A -> Z) x l : insert_sorted cmp x l ≡ₚ x :: l.
Proof.
  induction l as [ | y l IH ]; [done | ]. simpl.
  destruct (_ <=? _)%Z; [done | ]. rewrite IH. apply perm_swap.
Qed.

Lemma sort_with_perm {A} (cmp : A -> A -> Z) l : sort_with cmp l ≡ₚ l.
Proof.
  induction l as [ | x l IH ]; [done | ]. cbn [sort_with foldr].
  fold (sort_with cmp l). by rewrite insert_sorted_perm, IH.
Qed.

(** The files of [dir] that [getApiLogs] is after *)
Definition is_api_log_in (dir p : string) : Prop :=
  path_dirname p = dir /\ is_api_log (path_basename p) = true.

#[local] Instance is_api_log_in_dec dir p : Decision (is_api_log_in dir p).
Proof. unfold is_api_log_in. apply _. Defined.

Definition api_log_paths (f : fs) (dir : string) : list string :=
  filter (is_api_log_in dir) (fs_files f).*1.

Lemma filter_api_logs dir ps :
  List.filter is_api_log (path_basename <$> filter (fun p => path_dirname p = dir) ps) =
  path_basename <$> filter (is_api_log_in dir) ps.
Proof.
  induction ps as [ | p ps IH ]; [done | ].
  rewrite !filter_cons.
  destruct (decide (is_api_log_in dir p)) as [[Hd Hlog] | Hno].
  - rewrite decide_True by done. rewrite !fmap_cons. cbn [List.filter].
    by rewrite Hlog, IH.
  - destruct (decide (path_dirname p = dir)) as [Hd | Hd]; [ | exact IH ].
    rewrite fmap_cons. cbn [List.filter].
    destruct (is_api_log (path_basename p)) eqn:Hlog; [ | exact IH ].
    by destruct Hno.
Qed.

Lemma join_basenames dir ps :
  dir <> "" -> Forall (fun p => path_dirname p = dir) ps ->
  path_join dir <$> (path_basename <$> ps) = ps.
Proof.
  intros Hdir. induction 1 as [ | p ps Hp _ IH ]; [done | ].
  rewrite !fmap_cons, IH. f_equal. rewrite <- Hp. apply path_join_dirname_basename.
  by rewrite Hp.
Qed.

Lemma getApiLogs_listing E cmp w :
  API_LOGS_PATH E ∈ fs_dirs (w_fs w) ->
  exists paths,
    paths ≡ₚ api_log_paths (w_fs w) (API_LOGS_PATH E) /\
    bind (on_fs (readdirSync (API_LOGS_PATH E)))
      (fun files =>
         ret (path_join (API_LOGS_PATH E) <$>
              sort_with (by_date cmp) (List.filter is_api_log files))) w =
    Ret paths w.
Proof.
  intros Hdir. unfold bind, on_fs, readdirSync. rewrite bool_decide_eq_true_2 by done.
  rewrite with_fs_same. eexists. split; [ | reflexivity ].
  rewrite sort_with_perm, filter_api_logs, join_basenames; [done | | ].
  - apply API_LOGS_PATH_not_empty.
  - apply Forall_forall. intros p Hp. by apply list_elem_of_filter in Hp as [[Hd _] _].
Qed.

(** X15.  [getApiLogs] never raises and changes no file.  When the logs
    directory is there, or is not and can be made, it makes it if need be
    and returns the paths of the files [api-log-*.jsonl] of that directory,
    reporting nothing.  Otherwise (the directory cannot be made, or its path
    is that of a file) it reports the error with [console.error] and returns
    the empty list, the file system being as it was. *)
Theorem getApiLogs_returns (E : env) (localeCompare : string -> string -> Z) (w : world) :
  if bool_decide (API_LOGS_PATH E ∈ fs_dirs (w_fs w)) ||
     negb (existsSync (w_fs w) (API_LOGS_PATH E)) &&
     negb (is_readonly (w_fs w) (API_LOGS_PATH E))
  then
    exists paths w',
      getApiLogs E localeCompare w = Ret paths w' /\
      paths ≡ₚ api_log_paths (w_fs w) (API_LOGS_PATH E) /\
      API_LOGS_PATH E ∈ fs_dirs (w_fs w') /\
      (fs_dirs (w_fs w') = fs_dirs (w_fs w) \/
       fs_dirs (w_fs w') = fs_dirs (w_fs w) ++ [API_LOGS_PATH E]) /\
      fs_files (w_fs w') = fs_files (w_fs w) /\
      w_heap w' = w_heap w /\ w_stdout w' = w_stdout w /\ w_stderr w' = w_stderr w
  else
    exists error w',
      getApiLogs E localeCompare w = Ret [] w' /\
      w_stderr w' = w_stderr w ++ [("Error getting API logs:", error)] /\
      w_fs w' = w_fs w /\ w_heap w' = w_heap w /\ w_stdout w' = w_stdout w.
Proof.
  assert (Hrun : getApiLogs E localeCompare w =
    match
      match ensureApiLogsDirectoryExists E w with
      | Ret _ w1 =>
          bind (on_fs (readdirSync (API_LOGS_PATH E)))
            (fun files =>
               ret (path_join (API_LOGS_PATH E) <$>
                    sort_with (by_date localeCompare)
                      (List.filter is_api_log files))) w1
      | Throw e w1 => Throw e w1
      | OutOfFuel => OutOfFuel
      end
    with
    | Ret a w1 => Ret a w1
    | Throw e w1 =>
        bind (console_error "Error getting API logs:" e) (fun _ => ret []) w1
    | OutOfFuel => OutOfFuel
    end) by reflexivity.
  rewrite Hrun, ensureApiLogsDirectoryExists_cases. clear Hrun.
  destruct (decide (API_LOGS_PATH E ∈ fs_dirs (w_fs w))) as [Hdir | Hdir].
  - rewrite bool_decide_eq_true_2 by done. cbn [orb].
    assert (Hex : existsSync (w_fs w) (API_LOGS_PATH E) = true).
    { unfold existsSync. by rewrite bool_decide_eq_true_2. }
    rewrite Hex.
    destruct (getApiLogs_listing E localeCompare w Hdir) as (paths & Hperm & ->).
    exists paths, w. auto 10.
  - rewrite bool_decide_eq_false_2 by done. cbn [orb].
    destruct (existsSync (w_fs w) (API_LOGS_PATH E)) eqn:Hex; cbn [negb andb].
    + unfold bind at 1, on_fs, readdirSync. rewrite bool_decide_eq_false_2 by done.
      rewrite with_fs_same. unfold bind, console_error, ret.
      eexists _, _. split; [reflexivity | ]. cbn. auto.
    + destruct (is_readonly (w_fs w) (API_LOGS_PATH E)); cbn [negb].
      * unfold bind, console_error, ret.
        eexists _, _. split; [reflexivity | ]. cbn. auto.
      * set (w1 := with_fs w _).
        assert (Hdir1 : API_LOGS_PATH E ∈ fs_dirs (w_fs w1)).
        { unfold w1. cbn. apply elem_of_app. right. left. }
        destruct (getApiLogs_listing E localeCompare w1 Hdir1) as (paths & Hperm & ->).
        exists paths, w1. split; [done | ]. cbn. auto 10.
Qed.

Example getApiLogs_example :
  getApiLogs Demo.E (fun a b => if String.ltb a b then (-1)%Z else 1%Z) Demo.w =
  Ret [Demo.today] Demo.w.
Proof. vm_compute. reflexivity. Qed.


(** * Sanitising twice *)

Lemma redact_idempotent j : redact (redact j) = redact j.
Proof.
  induction j as [ | b | z | s | js IH | ms IH ] using json_ind'; try done.
  - cbn [redact]. f_equal.
    induction IH as [ | j js Hj _ IHjs ]; [done | ]. cbn [map]. by rewrite Hj, IHjs.
  - cbn [redact]. f_equal.
    induction IH as [ | [k j] ms Hj _ IHms ]; [done | ]. cbn [map fst snd].
    rewrite IHms. f_equal. f_equal. cbn in Hj. by case_bool_decide.
Qed.

(** X16.  Sanitising is idempotent.  When the input serialises to a document,
    the value [sanitizeData] returns is itself accepted by [sanitizeData],
    and sanitising it again gives a value with the same serialisation: the
    marker is not redacted into something else, and nothing more is
    removed. *)
Theorem sanitizeData_idempotent (h : heap) (data : value) (t : json) :
  JSON_stringify h data = Ok (Some t) ->
  exists v h' v' h'',
    sanitizeData data h = Ret v h' /\
    sanitizeData v h' = Ret v' h'' /\
    JSON_stringify h' v = Ok (Some (redact t)) /\
    JSON_stringify h'' v' = Ok (Some (redact t)).
Proof.
  intros Hser.
  destruct (sanitizeData_success h data t Hser) as (v & h' & Hrun & Hback & _ & _).
  destruct (sanitizeData_success h' v (redact t) Hback) as (v' & h'' & Hrun' & Hback' & _ & _).
  exists v, h', v', h''. by rewrite redact_idempotent in Hback'.
Qed.

Lemma sanitizeData_idempotent_witness :
  exists v h' v' h'',
    sanitizeData (VRef 2) demo_heap = Ret v h' /\
    sanitizeData v h' = Ret v' h'' /\
    JSON_stringify h' v = Ok (Some (redact demo_document)) /\
    JSON_stringify h'' v' = Ok (Some (redact demo_document)).
Proof.
  apply (sanitizeData_idempotent demo_heap (VRef 2) demo_document). vm_compute. reflexivity.
Defined.

(** * One call, one line, one entry *)

Lemma nonempty_true s : s <> "" -> Str.nonempty s = true.
Proof. intros Hs. unfold Str.nonempty. by destruct (String.eqb_spec s ""). Qed.

Lemma read_entries_append_line E content line :
  no_char Str.nl line = true -> line <> "" ->
  read_entries E ((content +:+ newline) +:+ line +:+ newline) =
  read_entries E (content +:+ newline) ++ [parse_line E line].
Proof.
  intros Hnl Hne. unfold read_entries, newline.
  rewrite append_assoc.
  change (String Str.nl "" +:+ line +:+ String Str.nl "")
    with (String Str.nl (line +:+ String Str.nl "")).
  rewrite !split_append, (split_no_char _ _ Hnl). cbn [Str.split].
  rewrite !List.filter_app, !map_app. cbn [List.filter]. rewrite nonempty_true by done.
  cbn. by rewrite app_nil_r.
Qed.

Lemma read_entries_first_line E line :
  no_char Str.nl line = true -> line <> "" ->
  read_entries E (line +:+ newline) = [parse_line E line].
Proof.
  intros Hnl Hne. unfold read_entries, newline.
  rewrite split_append, (split_no_char _ _ Hnl). cbn [Str.split app List.filter].
  by rewrite nonempty_true.
Qed.

(** X17.  One call, one line, one entry.  A line [logApiCall] appends is the
    text of a JSON document followed by a line end.  When that text holds
    no line end and is read back as the document by [JSON.parse], appending
    it to a log that is empty or ends with a line end adds exactly one entry
    to what [viewLogFile] reads, after the entries already there. *)
Theorem appended_line_is_one_entry (E : env) (content : string) (entry : json) :
  json_of_text E (json_text E entry) = Some entry ->
  no_char Str.nl (json_text E entry) = true ->
  json_text E entry <> "" ->
  read_entries E ("" +:+ json_text E entry +:+ newline) = [entry] /\
  read_entries E ((content +:+ newline) +:+ json_text E entry +:+ newline) =
    read_entries E (content +:+ newline) ++ [entry].
Proof.
  intros Hparse Hnl Hne.
  assert (Hline : parse_line E (json_text E entry) = entry).
  { unfold parse_line. by rewrite Hparse. }
  split.
  - change ("" +:+ json_text E entry +:+ newline) with (json_text E entry +:+ newline).
    by rewrite read_entries_first_line, Hline.
  - by rewrite read_entries_append_line, Hline.
Qed.

Lemma appended_line_is_one_entry_witness :
  read_entries Demo.E "[]
" = [JArr []] /\
  read_entries Demo.E "{}
oops
[]
" = [JObj []; JObj [("raw", JStr "oops")]; JArr []].
Proof.
  apply (appended_line_is_one_entry Demo.E "{}
oops" (JArr [])); [reflexivity | reflexivity | discriminate].
Defined.


(** * The wrappers, when the call succeeds *)

(** From [w1], the world the underlying call left, [logApiCall] ran once: it
    appended one entry, without an [error] member, or it reported that it
    could not. *)
Definition success_logged (E : env) (w1 w' : world) : Prop :=
  (exists p ms,
     content_of (w_fs w') p = content_of (w_fs w1) p +:+ json_text E (JObj ms) +:+ newline /\
     (forall q, q <> p ->
        props_get q (fs_files (w_fs w')) = props_get q (fs_files (w_fs w1))) /\
     w_stderr w' = w_stderr w1 /\
     props_get "error" ms = None) \/
  reported w1 w'.

Lemma success_logged_intro E c w1 w2 w' :
  quiet w1 w2 -> c_error c = VUndefined ->
  written E c w2 w' \/ reported w2 w' ->
  success_logged E w1 w'.
Proof.
  intros [Hfs _ Herr _ _] He [(p & ms & Hc & Ho & Hs & Hm) | [Hf [x Hx]]].
  - left. exists p, ms. rewrite <- Hfs, <- Herr. repeat split; try done.
    apply Hm. by rewrite He.
  - right. unfold reported. rewrite <- Hfs, <- Herr. split; [done | by exists x].
Qed.

Lemma returns_get_state : returns (get_state (S := list obj)).
Proof. intros h. exists h, h. split; [done | apply heap_ext_refl]. Qed.

Lemma returns_extractResponseDetails result : returns (extractResponseDetails result).
Proof.
  unfold extractResponseDetails.
  destruct (truthy result) eqn:Htruthy; cbn [negb]; [ | apply returns_ret ].
  apply returns_bind; [apply returns_get_state | intros h].
  destruct (is_Response h result).
  { apply returns_bind; [by apply returns_member | intros status]. apply returns_ret. }
  apply returns_bind; [by apply returns_member | intros response].
  destruct (truthy response) eqn:Hresponse; cbn [andb].
  - destruct (is_Response h response).
    + apply returns_bind; [by apply returns_member | intros status].
      apply returns_bind; [by apply returns_member | intros body]. apply returns_ret.
    + apply returns_bind; [by apply returns_member | intros status].
      destruct (negb _); [ | apply returns_ret ].
      apply returns_bind; [by apply returns_member | intros data].
      apply returns_bind; [ | intros body; apply returns_ret ].
      destruct (truthy data); [apply returns_ret | by apply returns_member].
  - apply returns_bind; [by apply returns_member | intros status].
    destruct (negb _); [ | apply returns_ret ].
    apply returns_bind; [by apply returns_member | intros data].
    apply returns_bind; [ | intros body; apply returns_ret ].
    destruct (truthy data); [apply returns_ret | by apply returns_member].
Qed.

Lemma withApiLogging_returns E (fn : list value -> M world value) serviceName args w result w1 :
  fn args w = Ret result w1 ->
  exists w',
    withApiLogging E fn serviceName args w = Ret result w' /\
    success_logged E w1 w'.
Proof.
  intros Hfn. unfold withApiLogging. rewrite bind_Date_now.
  unfold try_finally_vars. rewrite Hfn. unfold try_finally. cbn [ret].
  rewrite bind_Date_now. unfold bind at 1, on_heap at 1.
  destruct (returns_extractRequestDetails args (w_heap w1)) as (rd & h2 & -> & Hext).
  unfold bind at 1.
  assert (Hrd : exists responseDetails w3,
            (if truthy result then on_heap (extractResponseDetails result) else ret None)
              (with_heap w1 h2) = Ret responseDetails w3 /\ quiet w1 w3).
  { destruct (truthy result).
    - unfold on_heap. cbn [w_heap with_heap].
      destruct (returns_extractResponseDetails result h2) as (rs & h3 & -> & Hext3).
      eexists _, _. split; [reflexivity | ].
      apply (quiet_trans _ (with_heap w1 h2)); apply quiet_with_heap; done.
    - eexists _, _. split; [reflexivity | ]. by apply quiet_with_heap. }
  destruct Hrd as (responseDetails & w3 & -> & Hq3).
  match goal with |- context [logApiCall E ?c w3] =>
    destruct (logApiCall_spec E c w3) as (w' & -> & Hframe & Hlog);
    exists w'; split; [reflexivity | ];
    by apply (success_logged_intro E c w1 w3 w')
  end.
Qed.

Lemma is_Response_response_of h v :
  is_Response h v = true -> exists r, response_of v h = Ret r h.
Proof.
  unfold is_Response, response_of. destruct v as [ | | | | | | | | l ]; try done.
  destruct (h !! l) as [ [ | | | | r ] | ]; try done. by eexists.
Qed.

(** [loggedFetch] after a successful [fetch], up to the call of
    [logApiCall] *)
Lemma loggedFetch_success_run E (rq : request) (w w0 w1 w2 : world)
    (originalFetch : request -> M world value) (body response responseBody : value) r :
  (forall (B : Type) (k : value -> value -> M world B),
     bind (on_heap (headers_object (rq_headers rq)))
       (fun headers =>
          bind (match rq_body rq with
                | NoBody => ret VUndefined
                | b => try_catch (read_body E b)
                         (fun _ => ret (VStr "[Could not read request body]"))
                end) (fun body => k headers body)) w =
     k (VRef (length (w_heap w))) body w0) ->
  originalFetch rq w0 = Ret response w1 ->
  response_of response (w_heap w1) = Ret r (w_heap w1) ->
  try_catch (read_body E (rs_body r))
    (fun _ => ret (VStr "[Could not read response body]")) w1 = Ret responseBody w2 ->
  loggedFetch E originalFetch rq w =
  match URL_parse E (rq_url rq) with
  | Some u =>
      bind (logApiCall E
              {| c_url := VStr (rq_url rq); c_method := VStr (rq_method rq);
                 c_headers := VRef (length (w_heap w)); c_body := body;
                 c_response := response; c_responseBody := responseBody;
                 c_statusCode := VUndefined; c_error := VUndefined;
                 c_durationMs := VNum (NInt (w_now w1 - w_now w0));
                 c_service := VStr (service_of_hostname (u_hostname u)) |})
        (fun _ => ret response) w2
  | None => Throw (TypeError "Invalid URL") w2
  end.
Proof.
  intros Hpre Hfetch Hr Hread. unfold loggedFetch. rewrite Hpre. rewrite bind_Date_now.
  unfold bind at 1, try_catch at 1, bind at 1. rewrite Hfetch. cbn [ret].
  unfold try_catch at 1. rewrite bind_Date_now.
  unfold bind at 1, on_heap at 1. rewrite Hr, with_heap_same.
  unfold bind at 1. rewrite Hread.
  unfold bind at 1, getServiceFromUrl.
  destruct (URL_parse E (rq_url rq)) as [ u | ]; cbn [ret throw].
  - match goal with |- _ = bind (logApiCall E ?c) _ w2 =>
      destruct (logApiCall_spec E c w2) as (w' & Hrun & _)
    end.
    unfold bind. by rewrite Hrun.
  - rewrite bind_Date_now. by unfold bind.
Qed.

Lemma loggedFetch_returns E (rq : request) (w : world) :
  exists w0,
    quiet w w0 /\
    forall (originalFetch : request -> M world value) response w1,
      originalFetch rq w0 = Ret response w1 ->
      is_Response (w_heap w1) response = true ->
      exists w',
        match URL_parse E (rq_url rq) with
        | Some _ =>
            loggedFetch E originalFetch rq w = Ret response w' /\
            success_logged E w1 w'
        | None =>
            loggedFetch E originalFetch rq w = Throw (TypeError "Invalid URL") w' /\
            quiet w1 w'
        end.
Proof.
  destruct (loggedFetch_prologue E rq w) as (body & w0 & Hq0 & _ & Hpre).
  exists w0. split; [exact Hq0 | ].
  intros originalFetch response w1 Hfetch Hresponse.
  destruct (is_Response_response_of _ _ Hresponse) as [r Hr].
  assert (Hread : exists responseBody w2,
            quiet w1 w2 /\
            try_catch (read_body E (rs_body r))
              (fun _ => ret (VStr "[Could not read response body]")) w1 =
            Ret responseBody w2).
  { unfold try_catch. pose proof (read_body_spec E (rs_body r) w1) as Hb.
    destruct (read_body E (rs_body r) w1); cbn [sat] in Hb; [ | | done ];
      eexists _, _; (split; [ | reflexivity ]); exact Hb. }
  destruct Hread as (responseBody & w2 & Hq2 & Hread).
  rewrite (loggedFetch_success_run E rq w w0 w1 w2 originalFetch body response
             responseBody r Hpre Hfetch Hr Hread).
  destruct (URL_parse E (rq_url rq)) as [ u | ]; [ | by exists w2 ].
  match goal with |- context [bind (logApiCall E ?c) _ w2] =>
    destruct (logApiCall_spec E c w2) as (w' & Hrun & Hframe & Hlog);
    exists w'; unfold bind; rewrite Hrun; split; [reflexivity | ];
    by apply (success_logged_intro E c w1 w2 w')
  end.
Qed.

(** X18.  The wrappers are transparent when the call succeeds.  [loggedFetch]
    returns the response of the underlying [fetch], and the function made by
    [withApiLogging] the result of the wrapped function, the very value,
    whatever the state of the file system: [logApiCall] ran once after the
    call, and either appended one entry without an [error] member or
    reported that it could not.  The URL of a request is one that [new URL]
    parses; were it not, [getServiceFromUrl] would raise its [TypeError]
    before [logApiCall] is called, and [loggedFetch] would raise it, having
    logged nothing. *)
Theorem wrapped_call_returns (E : env) :
  (forall (request : request) (w : world),
     exists w0,
       quiet w w0 /\
       forall (originalFetch : JS.request -> M world value) response w1,
         originalFetch request w0 = Ret response w1 ->
         is_Response (w_heap w1) response = true ->
         exists w',
           match URL_parse E (rq_url request) with
           | Some _ =>
               loggedFetch E originalFetch request w = Ret response w' /\
               success_logged E w1 w'
           | None =>
               loggedFetch E originalFetch request w =
                 Throw (TypeError "Invalid URL") w' /\
               quiet w1 w'
           end) /\
  (forall (fn : list value -> M world value) serviceName args w result w1,
     fn args w = Ret result w1 ->
     exists w',
       withApiLogging E fn serviceName args w = Ret result w' /\
       success_logged E w1 w').
Proof.
  split.
  - apply loggedFetch_returns.
  - apply withApiLogging_returns.
Qed.

(** An underlying [fetch] that answers 200 with a JSON body *)
Definition answering_fetch : JS.request -> M world value :=
  fun _ => on_heap (alloc (OResponse {| rs_status := 200;
                                        rs_headers := [("content-type", "application/json")];
                                        rs_body := Readable "{}" |})).

Lemma wrapped_call_returns_witness :
  (exists response w1 w',
     loggedFetch Demo.E answering_fetch Demo.request Demo.locked = Ret response w' /\
     success_logged Demo.E w1 w') /\
  (exists w',
     withApiLogging Demo.E (fun _ => ret (VNum (NInt 7))) "openai" [] Demo.w =
       Ret (VNum (NInt 7)) w' /\
     success_logged Demo.E Demo.w w').
Proof.
  destruct (wrapped_call_returns Demo.E) as [Hfetch Hfn]. split.
  - destruct (Hfetch Demo.request Demo.locked) as (w0 & _ & Hrun).
    destruct (Hrun answering_fetch (VRef (length (w_heap w0)))
                (with_heap w0 (w_heap w0 ++
                   [OResponse {| rs_status := 200;
                                 rs_headers := [("content-type", "application/json")];
                                 rs_body := Readable "{}" |}])))
      as (w' & Hlog).
    + reflexivity.
    + unfold is_Response. cbn [w_heap with_heap]. by rewrite list_lookup_middle.
    + destruct (URL_parse Demo.E (rq_url Demo.request)) eqn:Hurl;
        [ | vm_compute in Hurl; discriminate Hurl ].
      destruct Hlog as [Hret Hlog]. by eexists _, _, w'.
  - apply (Hfn (fun _ => ret (VNum (NInt 7))) "openai" [] Demo.w (VNum (NInt 7)) Demo.w).
    reflexivity.
Defined.

Example loggedFetch_returns_example :
  exists w',
    loggedFetch Demo.E answering_fetch Demo.request Demo.w = Ret (VRef 2) w' /\
    content_of (w_fs w') Demo.today =
      content_of (w_fs Demo.w) Demo.today +:+
      "{'timestamp':'T1000','id':'uuid-0','service':'openai','url':'https://api.openai.com/v1/chat','method':'POST','headers':{'authorization':'***REDACTED***'},'body':{},'responseHeaders':{'content-type':'application/json'},'responseBody':{},'statusCode':200,'durationMs':0}
".
Proof. eexists. split; vm_compute; reflexivity. Qed.


(** * What [logApiCall] writes *)

(** ** Serialisation in a larger heap *)

Lemma ser_elems_ext (f f' : value -> res (option json)) vs js :
  (forall v r, f v = Ok r -> f' v = Ok r) ->
  ser_elems f vs = Ok js -> ser_elems f' vs = Ok js.
Proof.
  intros Hf. revert js. induction vs as [ | v vs IH ]; intros js; [done | ]. simpl.
  destruct (f v) as [ j | | ] eqn:Hv; simpl; try done. rewrite (Hf v j Hv). simpl.
  destruct (ser_elems f vs) as [ js' | | ]; simpl; try done. by rewrite (IH js' eq_refl).
Qed.

Lemma ser_members_ext (f f' : value -> res (option json)) get ks ms :
  (forall v r, f v = Ok r -> f' v = Ok r) ->
  ser_members f get ks = Ok ms -> ser_members f' get ks = Ok ms.
Proof.
  intros Hf. revert ms. induction ks as [ | k ks IH ]; intros ms; [done | ]. simpl.
  destruct (f (get k)) as [ j | | ] eqn:Hv; simpl; try done. rewrite (Hf _ j Hv). simpl.
  destruct (ser_members f get ks) as [ ms' | | ]; simpl; try done. by rewrite (IH ms' eq_refl).
Qed.

(** A serialisation that succeeds is the same with more fuel, in a heap that
    holds the same objects and more. *)
Lemma serialize_ext n : forall h stack v r,
  serialize n h stack v = Ok r ->
  forall n' h', n <= n' -> heap_ext h h' -> serialize n' h' stack v = Ok r.
Proof.
  induction n as [ | n IH ]; intros h stack v r Hser n' h' Hn Hext.
  - destruct v as [ | | | [ | ] | | | | | l ]; try done; by destruct n'.
  - destruct n' as [ | n' ]; [lia | ].
    destruct v as [ | | | [ | ] | | | | | l ]; try done.
    cbn [serialize] in *. case_bool_decide; [done | ].
    destruct (h !! l) as [ o | ] eqn:Hl; [ | done ]. rewrite (Hext l o Hl).
    assert (Hrec : forall v r, serialize n h (l :: stack) v = Ok r ->
                               serialize n' h' (l :: stack) v = Ok r).
    { intros v r' Hv. eapply IH; [exact Hv | lia | done]. }
    destruct o as [ ps | vs | | | ]; try done.
    + apply rbind_Ok in Hser as (ms & Hms & [= <-]).
      by rewrite (ser_members_ext _ _ _ _ _ Hrec Hms).
    + apply rbind_Ok in Hser as (js & Hjs & [= <-]).
      by rewrite (ser_elems_ext _ _ _ _ Hrec Hjs).
Qed.

Lemma JSON_stringify_ext h h' v r :
  JSON_stringify h v = Ok r -> heap_ext h h' -> length h <= length h' ->
  JSON_stringify h' v = Ok r.
Proof.
  intros Hser Hext Hlen. unfold JSON_stringify in *.
  eapply serialize_ext; [exact Hser | lia | done].
Qed.

Lemma heap_ext_length h h' : heap_ext h h' -> length h <= length h'.
Proof.
  intros Hext. destruct h as [ | o h ] using rev_ind; [simpl; lia | ].
  clear IHh. rewrite length_app. simpl.
  assert (Hl : (h ++ [o]) !! length h = Some o) by (by apply list_lookup_middle).
  apply Hext, lookup_lt_Some in Hl. lia.
Qed.

(** ** Values with a known document

    [v] is written as [d] as a member of an object allocated later. *)
Definition serialises (h : heap) (v : value) (d : option json) : Prop :=
  forall h' n stack,
    heap_ext h h' -> length h < n -> (forall s, s ∈ stack -> length h <= s) ->
    serialize n h' stack v = Ok d.

Lemma serialises_ext h h' v d : serialises h v d -> heap_ext h h' -> serialises h' v d.
Proof.
  intros Hv Hext h'' n stack Hext' Hn Hstack.
  pose proof (heap_ext_length h h' Hext).
  apply Hv; [by eapply heap_ext_trans | lia | ].
  intros s Hs. apply Hstack in Hs. lia.
Qed.

Definition scalar (v : value) : bool :=
  match v with
  | VRef _ | VBigInt _ => false
  | _ => true
  end.

(** The document of a value that is no object of the heap *)
Definition scalar_doc (v : value) : option json :=
  match serialize 0 [] [] v with
  | Ok d => d
  | _ => None
  end.

Lemma scalar_serialises h v : scalar v = true -> serialises h v (scalar_doc v).
Proof.
  intros Hv h' n stack _ _ _.
  destruct v as [ | | | [ | ] | | | | | l ]; try done; by destruct n.
Qed.

Lemma tree_serialises h t lo hi v :
  tree_at h t lo hi v -> hi <= length h -> serialises h v (Some t).
Proof.
  intros Ht Hhi h' n stack Hext Hn Hstack.
  apply (serialize_tree n t lo hi v h' stack).
  - eapply tree_at_frame; [exact Ht | ]. intros l Hl.
    destruct (lookup_lt_is_Some_2 h l) as [o Ho]; [lia | ]. by rewrite Ho, (Hext l o Ho).
  - pose proof (tree_at_le _ _ _ _ _ Ht). lia.
  - intros s Hs. apply Hstack in Hs. lia.
Qed.

Lemma redact_scalar_doc v t : scalar_doc v = Some t -> scalar v = true -> redact t = t.
Proof.
  destruct v as [ | | | [ | ] | | | | | l ]; try done; cbn; by intros [= <-].
Qed.

Lemma JSON_stringify_scalar h v : scalar v = true -> JSON_stringify h v = Ok (scalar_doc v).
Proof. by destruct v as [ | | | [ | ] | | | | | l ]. Qed.

Lemma JSON_stringify_undefined h v :
  JSON_stringify h v = Ok None -> v = VUndefined \/ exists id, v = VFunction id.
Proof.
  intros Hser. destruct v as [ | | | | | | id | | l ]; try done; eauto.
  - by destruct n.
  - by apply (serialize_written _ _ _ (VRef l)) in Hser.
Qed.

(** [sanitizeData] on an input that serialises: the result is written as the
    redacted document. *)
Lemma sanitizeData_serialises h data d :
  JSON_stringify h data = Ok d ->
  exists v h',
    sanitizeData data h = Ret v h' /\ heap_ext h h' /\ serialises h' v (redact <$> d).
Proof.
  intros Hser. destruct d as [ t | ].
  - destruct (truthy data) eqn:Htruthy.
    + destruct (sanitizeData_copy h data t Htruthy Hser) as (v & h' & Hrun & Htree & Hold).
      exists v, h'. split; [done | ]. split.
      * intros l o Hl. rewrite Hold; [done | by eapply lookup_lt_Some].
      * by eapply tree_serialises.
    + exists data, h. rewrite sanitizeData_falsy by done.
      split; [done | ]. split; [apply heap_ext_refl | ].
      assert (Hscalar : scalar data = true).
      { destruct data as [ | | | | | z | | | ]; try done. }
      rewrite JSON_stringify_scalar in Hser by done. injection Hser as Hdoc.
      cbn [fmap option_fmap option_map]. rewrite (redact_scalar_doc data t) by done.
      rewrite <- Hdoc. by apply scalar_serialises.
  - exists data, h.
    assert (Hscalar : scalar data = true).
    { destruct (JSON_stringify_undefined h data Hser) as [-> | [id ->]]; done. }
    split; [ | split; [apply heap_ext_refl | ] ].
    + destruct (JSON_stringify_undefined h data Hser) as [-> | [id ->]]; [done | ].
      by rewrite sanitizeData_failed by auto.
    + rewrite JSON_stringify_scalar in Hser by done. injection Hser as Hdoc.
      cbn [fmap option_fmap option_map]. rewrite <- Hdoc. by apply scalar_serialises.
Qed.

(** ** Objects of strings *)

Definition headers_doc (hs : list (string * string)) : json :=
  JObj (map (fun kv => (kv.1, JStr kv.2)) hs).

Lemma obj_of_headers_NoDup hs :
  NoDup (hs.*1) -> obj_of_headers hs = map (fun kv => (kv.1, VStr kv.2)) hs.
Proof.
  intros Hnd.
  assert (Hfold : forall acc,
            foldl (fun ps kv => props_set kv.1 (VStr kv.2) ps) acc hs =
            foldl (fun ps (kv : string * value) => props_set kv.1 kv.2 ps) acc
              (map (fun kv => (kv.1, VStr kv.2)) hs)).
  { clear. induction hs as [ | kv hs IH ]; intros acc; [done | ]. cbn. apply IH. }
  unfold obj_of_headers. rewrite Hfold. apply obj_of_members_NoDup.
  rewrite <- list_fmap_compose. exact Hnd.
Qed.

Lemma strings_tree h l hs :
  h !! l = Some (OObj (map (fun kv => (kv.1, VStr kv.2)) hs)) -> NoDup (hs.*1) ->
  tree_at h (headers_doc hs) l (S l) (VRef l).
Proof.
  intros Hl Hnd. cbn [headers_doc tree_at]. eexists l, _.
  split; [done | ]. split; [done | ]. split; [done | ]. split; [exact Hl | ]. split.
  - by rewrite <- list_fmap_compose.
  - clear. induction hs as [ | kv hs IH ]; [simpl; lia | ]. cbn. split; [done | ].
    exists l. split; [split; [done | lia] | exact IH].
Qed.



(** ** The members of the entry *)

(** The response passed to [logApiCall], when there is one *)
Definition response_at (h : heap) (v : value) : option response :=
  match v with
  | VRef l => match h !! l with Some (OResponse r) => Some r | _ => None end
  | _ => None
  end.

Definition error_doc (e : value) : option json :=
  if truthy e then
    match e with
    | VError message stack => Some (JObj [("message", JStr message); ("stack", JStr stack)])
    | _ => scalar_doc e
    end
  else None.

(** The members that have a document, in order: a member whose value is
    [undefined] is left out. *)
Definition members (docs : list (string * option json)) : list (string * json) :=
  omap (fun kd => (fun d => (kd.1, d)) <$> kd.2) docs.

(** The members of the entry of the call [c], made at the time [now] with
    the [n]-th identifier; [th], [tb] and [trb] are the documents of the
    headers, the body and the response body of the call, and [resp] its
    response. *)
Definition entry_docs (E : env) (now : Z) (n : nat) (c : api_call)
    (th tb trb : option json) (resp : option response) : list (string * option json) :=
  [ ("timestamp", Some (JStr (toISOString E now)));
    ("id", Some (JStr (uuid_of E n)));
    ("service", scalar_doc (match c_service c with VUndefined => VStr "unknown" | v => v end));
    ("url", scalar_doc (c_url c));
    ("method", scalar_doc (c_method c));
    ("headers", redact <$> th);
    ("body", redact <$> tb);
    ("responseHeaders", (fun r => headers_doc (rs_headers r)) <$> resp);
    ("responseBody", if truthy (c_responseBody c) then redact <$> trb else None);
    ("statusCode",
       if truthy (c_statusCode c) then scalar_doc (c_statusCode c)
       else (fun r => JNum (rs_status r)) <$> resp);
    ("error", error_doc (c_error c));
    ("durationMs", scalar_doc (c_durationMs c)) ].

Definition entry_doc (E : env) (now : Z) (n : nat) (c : api_call)
    (th tb trb : option json) (resp : option response) : json :=
  JObj (members (entry_docs E now n c th tb trb resp)).

(** A step of [make_logEntry]: it returns in a larger heap, with a value of
    known document. *)
Definition makes {A} (m : M world A) (w : world) (P : A -> heap -> Prop) : Prop :=
  exists a h', m w = Ret a (with_heap w h') /\ heap_ext (w_heap w) h' /\ P a h'.

Lemma makes_sanitizeData data d w :
  JSON_stringify (w_heap w) data = Ok d ->
  makes (on_heap (sanitizeData data)) w (fun v h' => serialises h' v (redact <$> d)).
Proof.
  intros Hser. destruct (sanitizeData_serialises _ _ _ Hser) as (v & h' & Hrun & Hext & Hv).
  exists v, h'. unfold on_heap. by rewrite Hrun.
Qed.

Lemma makes_ret {A} (a : A) w (P : A -> heap -> Prop) : P a (w_heap w) -> makes (ret a) w P.
Proof.
  intros Ha. exists a, (w_heap w). rewrite with_heap_same.
  split; [done | ]. split; [apply heap_ext_refl | done].
Qed.

Lemma response_at_truthy h v r : response_at h v = Some r -> truthy v = true.
Proof. by destruct v. Qed.

Lemma response_at_ext h h' v r :
  response_at h v = Some r -> heap_ext h h' -> response_at h' v = Some r.
Proof.
  unfold response_at. destruct v as [ | | | | | | | | l ]; try done.
  destruct (h !! l) as [ [ | | | | r' ] | ] eqn:Hl; try done.
  intros [= ->] Hext. by rewrite (Hext l _ Hl).
Qed.

Lemma makes_responseHeaders c w resp :
  (truthy (c_response c) = true -> is_Some (response_at (w_heap w) (c_response c))) ->
  response_at (w_heap w) (c_response c) = resp ->
  (forall r, resp = Some r -> NoDup (rs_headers r).*1) ->
  makes (if truthy (c_response c)
         then on_heap (bind (response_of (c_response c))
                         (fun r => headers_object (rs_headers r)))
         else ret VUndefined) w
    (fun v h' => serialises h' v ((fun r => headers_doc (rs_headers r)) <$> resp)).
Proof.
  intros Hresponse Hresp Hnd. destruct (truthy (c_response c)) eqn:Htruthy.
  - destruct (Hresponse eq_refl) as [r Hr]. rewrite Hr in Hresp. subst resp.
    specialize (Hnd r eq_refl).
    eexists (VRef (length (w_heap w))), (w_heap w ++ [OObj (obj_of_headers (rs_headers r))]).
    split; [ | split; [apply heap_ext_app | ] ].
    + unfold on_heap, bind, response_of. unfold response_at in Hr.
      destruct (c_response c) as [ | | | | | | | | l ]; try done.
      destruct (w_heap w !! l) as [ [ | | | | r' ] | ]; try done. by injection Hr as ->.
    + cbn [fmap option_fmap option_map].
      apply (tree_serialises _ _ (length (w_heap w)) (S (length (w_heap w)))).
      * apply strings_tree; [ | done ].
        by rewrite list_lookup_middle, obj_of_headers_NoDup.
      * rewrite length_app. simpl. lia.
  - apply makes_ret.
    destruct resp as [ r | ]; [ | by apply (scalar_serialises _ VUndefined) ].
    apply response_at_truthy in Hresp. congruence.
Qed.

Lemma makes_responseBody c w trb :
  JSON_stringify (w_heap w) (c_responseBody c) = Ok trb ->
  makes (if truthy (c_responseBody c)
         then on_heap (sanitizeData (c_responseBody c))
         else ret VUndefined) w
    (fun v h' => serialises h' v (if truthy (c_responseBody c) then redact <$> trb else None)).
Proof.
  intros Hser. destruct (truthy (c_responseBody c)).
  - by apply makes_sanitizeData.
  - apply makes_ret. by apply (scalar_serialises _ VUndefined).
Qed.

Lemma makes_statusCode c w resp :
  scalar (c_statusCode c) = true ->
  response_at (w_heap w) (c_response c) = resp ->
  (truthy (c_response c) = true -> is_Some resp) ->
  makes (if truthy (c_statusCode c) then ret (c_statusCode c)
         else if truthy (c_response c)
              then on_heap (member (c_response c) "status")
              else ret VUndefined) w
    (fun v h' =>
       serialises h' v (if truthy (c_statusCode c) then scalar_doc (c_statusCode c)
                        else (fun r => JNum (rs_status r)) <$> resp)).
Proof.
  intros Hscalar Hresp Hresponse. destruct (truthy (c_statusCode c)).
  - apply makes_ret. by apply scalar_serialises.
  - destruct (truthy (c_response c)) eqn:Htruthy.
    + destruct (Hresponse eq_refl) as [r ->].
      exists (VNum (NInt (rs_status r))), (w_heap w). rewrite with_heap_same.
      split; [ | split; [apply heap_ext_refl | ] ].
      * unfold on_heap, member. unfold response_at in Hresp.
        destruct (c_response c) as [ | | | | | | | | l ]; try done.
        destruct (w_heap w !! l) as [ [ | | | | r' ] | ]; try done.
        injection Hresp as ->. cbn. by rewrite with_heap_same.
      * by apply (scalar_serialises _ (VNum (NInt (rs_status r)))).
    + apply makes_ret.
      destruct resp as [ r | ]; [ | by apply (scalar_serialises _ VUndefined) ].
      apply response_at_truthy in Hresp. congruence.
Qed.

Lemma makes_error c w :
  scalar (c_error c) = true ->
  makes (if truthy (c_error c) then
           match c_error c with
           | VError message stack =>
               on_heap (alloc (OObj [("message", VStr message); ("stack", VStr stack)]))
           | e => ret e
           end
         else ret VUndefined) w
    (fun v h' => serialises h' v (error_doc (c_error c))).
Proof.
  intros Hscalar. unfold error_doc. destruct (truthy (c_error c)) eqn:Htruthy.
  - destruct (c_error c) as [ | | | | | | | message stack | ] eqn:He;
      try (apply makes_ret; by apply scalar_serialises).
    eexists (VRef (length (w_heap w))), _. split; [reflexivity | ].
    split; [apply heap_ext_app | ].
    apply (tree_serialises _ _ (length (w_heap w)) (S (length (w_heap w)))).
    + apply (strings_tree _ _ [("message", message); ("stack", stack)]).
      * by rewrite list_lookup_middle.
      * apply NoDup_ListNoDup. repeat constructor; cbn; intuition discriminate.
    + rewrite length_app. simpl. lia.
  - apply makes_ret. by apply (scalar_serialises _ VUndefined).
Qed.

Lemma response_at_stable h h' v :
  (truthy v = true -> is_Some (response_at h v)) -> heap_ext h h' ->
  response_at h' v = response_at h v.
Proof.
  intros Hv Hext. destruct (response_at h v) as [ r | ] eqn:Hr.
  - by eapply response_at_ext.
  - destruct v as [ | | | | | | | | l ]; try done. by destruct (Hv eq_refl).
Qed.

(** The arguments [logApiCall] can write *)
Record writable (h : heap) (c : api_call) (th tb trb : option json)
    (resp : option response) : Prop := {
  wr_url : scalar (c_url c) = true;
  wr_method : scalar (c_method c) = true;
  wr_service : scalar (c_service c) = true;
  wr_durationMs : scalar (c_durationMs c) = true;
  wr_statusCode : scalar (c_statusCode c) = true;
  wr_error : scalar (c_error c) = true;
  wr_headers : JSON_stringify h (c_headers c) = Ok th;
  wr_body : JSON_stringify h (c_body c) = Ok tb;
  wr_responseBody : JSON_stringify h (c_responseBody c) = Ok trb;
  wr_response : response_at h (c_response c) = resp;
  wr_is_response : truthy (c_response c) = true -> is_Some resp;
  wr_response_headers : forall r, resp = Some r -> NoDup (rs_headers r).*1
}.

(** The members of the entry, [dh] and [db] being the documents of the
    sanitised headers and body *)
Definition entry_docs_of (E : env) (now : Z) (n : nat) (c : api_call)
    (dh db trb : option json) (resp : option response) : list (string * option json) :=
  [ ("timestamp", Some (JStr (toISOString E now)));
    ("id", Some (JStr (uuid_of E n)));
    ("service", scalar_doc (match c_service c with VUndefined => VStr "unknown" | v => v end));
    ("url", scalar_doc (c_url c));
    ("method", scalar_doc (c_method c));
    ("headers", dh);
    ("body", db);
    ("responseHeaders", (fun r => headers_doc (rs_headers r)) <$> resp);
    ("responseBody", if truthy (c_responseBody c) then redact <$> trb else None);
    ("statusCode",
       if truthy (c_statusCode c) then scalar_doc (c_statusCode c)
       else (fun r => JNum (rs_status r)) <$> resp);
    ("error", error_doc (c_error c));
    ("durationMs", scalar_doc (c_durationMs c)) ].

Lemma make_logEntry_members E c w (Ph Pb : option json -> Prop) trb resp :
  scalar (c_url c) = true -> scalar (c_method c) = true -> scalar (c_service c) = true ->
  scalar (c_durationMs c) = true -> scalar (c_statusCode c) = true ->
  scalar (c_error c) = true ->
  (forall h, heap_ext (w_heap w) h ->
     exists v h' d,
       sanitizeData (c_headers c) h = Ret v h' /\ heap_ext h h' /\
       serialises h' v d /\ Ph d) ->
  (forall h, heap_ext (w_heap w) h ->
     exists v h' d,
       sanitizeData (c_body c) h = Ret v h' /\ heap_ext h h' /\
       serialises h' v d /\ Pb d) ->
  JSON_stringify (w_heap w) (c_responseBody c) = Ok trb ->
  response_at (w_heap w) (c_response c) = resp ->
  (truthy (c_response c) = true -> is_Some resp) ->
  (forall r, resp = Some r -> NoDup (rs_headers r).*1) ->
  exists dh db hb fields,
    Ph dh /\ Pb db /\
    make_logEntry E c w =
      Ret (VRef (length hb)) (with_heap (after_uuid w) (hb ++ [OObj fields])) /\
    heap_ext (w_heap w) hb /\
    Forall2 (fun kv kd => kv.1 = kd.1 /\ serialises hb kv.2 kd.2) fields
      (entry_docs_of E (w_now w) (w_uuids w) c dh db trb resp).
Proof.
  intros Hurl Hmethod Hservice Hduration Hstatus Herror Hheaders Hbody Htrb Hresp Hisresp Hnd.
  unfold make_logEntry. rewrite bind_Date_now, bind_randomUUID.
  set (w0 := after_uuid w).
  (* headers *)
  destruct (Hheaders (w_heap w)) as (vh & h1 & dh & Hs1 & Hext1 & Hvh & Hdh);
    [apply heap_ext_refl | ].
  assert (Hrun1 : on_heap (sanitizeData (c_headers c)) w0 = Ret vh (with_heap w0 h1)).
  { unfold on_heap. cbn [w_heap w0 after_uuid]. by rewrite Hs1. }
  unfold bind at 1. rewrite Hrun1.
  (* body *)
  destruct (Hbody h1 Hext1) as (vb & h2 & db & Hs2 & Hext2 & Hvb & Hdb).
  assert (Hrun2 : on_heap (sanitizeData (c_body c)) (with_heap w0 h1) =
                  Ret vb (with_heap (with_heap w0 h1) h2)).
  { unfold on_heap. cbn [w_heap with_heap]. by rewrite Hs2. }
  unfold bind at 1. rewrite Hrun2.
  assert (Hext02 : heap_ext (w_heap w) h2) by (by eapply heap_ext_trans).
  (* responseHeaders *)
  destruct (makes_responseHeaders c (with_heap (with_heap w0 h1) h2) resp)
    as (vrh & h3 & Hrun3 & Hext3 & Hvrh).
  { cbn [w_heap with_heap].
    rewrite (response_at_stable (w_heap w)); [by rewrite Hresp | by rewrite Hresp | done]. }
  { cbn [w_heap with_heap].
    rewrite (response_at_stable (w_heap w)); [done | by rewrite Hresp | done]. }
  { done. }
  unfold bind at 1. rewrite Hrun3. cbn [w_heap with_heap] in Hext3.
  assert (Hext03 : heap_ext (w_heap w) h3) by (by eapply heap_ext_trans).
  (* responseBody *)
  destruct (makes_responseBody c (with_heap (with_heap (with_heap w0 h1) h2) h3) trb)
    as (vrb & h4 & Hrun4 & Hext4 & Hvrb).
  { cbn [w_heap with_heap]. eapply JSON_stringify_ext; [exact Htrb | done | ].
    by apply heap_ext_length. }
  unfold bind at 1. rewrite Hrun4. cbn [w_heap with_heap] in Hext4.
  assert (Hext04 : heap_ext (w_heap w) h4) by (by eapply heap_ext_trans).
  (* statusCode *)
  destruct (makes_statusCode c
              (with_heap (with_heap (with_heap (with_heap w0 h1) h2) h3) h4) resp)
    as (vsc & h5 & Hrun5 & Hext5 & Hvsc).
  { done. }
  { cbn [w_heap with_heap].
    rewrite (response_at_stable (w_heap w)); [done | by rewrite Hresp | done]. }
  { done. }
  unfold bind at 1. rewrite Hrun5. cbn [w_heap with_heap] in Hext5.
  (* error *)
  destruct (makes_error c
              (with_heap (with_heap (with_heap (with_heap (with_heap w0 h1) h2) h3) h4) h5))
    as (ve & h6 & Hrun6 & Hext6 & Hve); [done | ].
  unfold bind at 1. rewrite Hrun6. cbn [w_heap with_heap] in Hext6.
  (* the object *)
  exists dh, db, h6. eexists. split; [done | ]. split; [done | ].
  split; [reflexivity | ]. split.
  { eapply heap_ext_trans; [exact Hext04 | ]. by eapply heap_ext_trans. }
  assert (Hext56 : heap_ext h5 h6) by done.
  assert (Hext46 : heap_ext h4 h6) by (by eapply heap_ext_trans).
  assert (Hext36 : heap_ext h3 h6) by (by eapply heap_ext_trans).
  assert (Hext26 : heap_ext h2 h6) by (by eapply heap_ext_trans).
  assert (Hext16 : heap_ext h1 h6) by (by eapply heap_ext_trans).
  unfold entry_docs_of.
  repeat match goal with
         | |- Forall2 _ (_ :: _) (_ :: _) => constructor; [split; [reflexivity | cbn [snd]] | ]
         end; [ .. | constructor ].
  - exact (scalar_serialises h6 (VStr _) eq_refl).
  - exact (scalar_serialises h6 (VStr _) eq_refl).
  - apply scalar_serialises. by destruct (c_service c).
  - by apply scalar_serialises.
  - by apply scalar_serialises.
  - by eapply serialises_ext.
  - by eapply serialises_ext.
  - by eapply serialises_ext.
  - by eapply serialises_ext.
  - by eapply serialises_ext.
  - done.
  - by apply scalar_serialises.
Qed.

Lemma make_logEntry_docs E c w th tb trb resp :
  writable (w_heap w) c th tb trb resp ->
  exists hb fields,
    make_logEntry E c w =
      Ret (VRef (length hb)) (with_heap (after_uuid w) (hb ++ [OObj fields])) /\
    heap_ext (w_heap w) hb /\
    Forall2 (fun kv kd => kv.1 = kd.1 /\ serialises hb kv.2 kd.2) fields
      (entry_docs E (w_now w) (w_uuids w) c th tb trb resp).
Proof.
  intros [Hurl Hmethod Hservice Hduration Hstatus Herror Hth Htb Htrb Hresp Hisresp Hnd].
  destruct (make_logEntry_members E c w (eq (redact <$> th)) (eq (redact <$> tb)) trb resp)
    as (dh & db & hb & fields & <- & <- & Hrun & Hext & Hall); try done.
  - intros h Hext.
    destruct (sanitizeData_serialises h (c_headers c) th) as (v & h' & Hrun & Hext' & Hv).
    { eapply JSON_stringify_ext; [exact Hth | done | by apply heap_ext_length]. }
    by exists v, h', (redact <$> th).
  - intros h Hext.
    destruct (sanitizeData_serialises h (c_body c) tb) as (v & h' & Hrun & Hext' & Hv).
    { eapply JSON_stringify_ext; [exact Htb | done | by apply heap_ext_length]. }
    by exists v, h', (redact <$> tb).
  - by exists hb, fields.
Qed.

(** ** The line *)

Lemma ser_members_docs (f : value -> res (option json)) rest : forall pre docs,
  NoDup ((pre ++ rest).*1) ->
  Forall2 (fun (kv : string * value) (kd : string * option json) =>
             kv.1 = kd.1 /\ f kv.2 = Ok kd.2) rest docs ->
  ser_members f (fun k => default VUndefined (props_get k (pre ++ rest))) (rest.*1) =
  Ok (members docs).
Proof.
  induction rest as [ | [k v] rest IH ]; intros pre docs Hnd Hall.
  - by inversion Hall.
  - inversion Hall as [ | ? [k' d] ? docs' [Hk Hv] Hrest ]; subst. cbn in Hk, Hv. subst k'.
    assert (Hkpre : k ∉ pre.*1).
    { rewrite fmap_app in Hnd. apply NoDup_app in Hnd as (_ & Hd & _).
      intros Hin. apply (Hd _ Hin). simpl. left. }
    rewrite fmap_cons. cbn [ser_members fst]. rewrite props_get_app by done.
    cbn [default from_option id]. rewrite Hv. cbn [rbind].
    specialize (IH (pre ++ [(k, v)]) docs').
    rewrite <- app_assoc in IH. cbn [app] in IH. rewrite IH by done.
    cbn [rbind]. by destruct d.
Qed.

Lemma stringify_entry hb fields docs :
  NoDup (fields.*1) ->
  Forall2 (fun kv kd => kv.1 = kd.1 /\ serialises hb kv.2 kd.2) fields docs ->
  JSON_stringify (hb ++ [OObj fields]) (VRef (length hb)) = Ok (Some (JObj (members docs))).
Proof.
  intros Hnd Hall. unfold JSON_stringify. cbn [serialize].
  rewrite bool_decide_eq_false_2 by (by intros ?%elem_of_nil).
  rewrite list_lookup_middle by done. rewrite remove_dups_NoDup by done.
  rewrite (ser_members_docs _ fields [] docs); [done | done | ].
  eapply Forall2_impl; [exact Hall | ]. cbn beta. intros kv kd [Hk Hv]. split; [done | ].
  apply Hv.
  - apply heap_ext_app.
  - rewrite length_app. simpl. lia.
  - intros s Hs. apply list_elem_of_singleton in Hs as ->. done.
Qed.

Lemma entry_docs_keys E now n c th tb trb resp :
  (entry_docs E now n c th tb trb resp).*1 = log_fields.
Proof. reflexivity. Qed.

Lemma Forall2_keys (fields : list (string * value)) (docs : list (string * option json))
    (R : value -> option json -> Prop) :
  Forall2 (fun kv kd => kv.1 = kd.1 /\ R kv.2 kd.2) fields docs -> fields.*1 = docs.*1.
Proof. induction 1 as [ | kv kd ? ? [Hk _] _ IH ]; [done | ]. cbn. by rewrite Hk, IH. Qed.

(** Today's log file *)
Definition log_path (E : env) (w : world) : string :=
  path_join (API_LOGS_PATH E) (log_file_name (current_date E (w_now w))).

Lemma logApiCall_appends_docs E c w hb fields docs :
  make_logEntry E c w =
    Ret (VRef (length hb)) (with_heap (after_uuid w) (hb ++ [OObj fields])) ->
  Forall2 (fun kv kd => kv.1 = kd.1 /\ serialises hb kv.2 kd.2) fields docs ->
  docs.*1 = log_fields ->
  API_LOGS_PATH E ∈ fs_dirs (w_fs w) \/
    (existsSync (w_fs w) (API_LOGS_PATH E) = false /\
     is_readonly (w_fs w) (API_LOGS_PATH E) = false) ->
  is_readonly (w_fs w) (log_path E w) = false ->
  exists w',
    logApiCall E c w = Ret tt w' /\
    content_of (w_fs w') (log_path E w) =
      content_of (w_fs w) (log_path E w) +:+ json_text E (JObj (members docs)) +:+ newline /\
    (forall q, q <> log_path E w ->
       props_get q (fs_files (w_fs w')) = props_get q (fs_files (w_fs w))) /\
    w_stderr w' = w_stderr w /\ w_stdout w' = w_stdout w.
Proof.
  intros Hmake Hdocs Hkeys Hdir Hfile.
  assert (Hnd : NoDup (fields.*1)).
  { rewrite (Forall2_keys _ _ _ Hdocs), Hkeys. apply log_fields_NoDup. }
  unfold logApiCall, try_catch. unfold bind at 1. rewrite Hmake.
  unfold bind at 1. rewrite getApiLogFilePath_cases, ensureApiLogsDirectoryExists_cases.
  cbn [w_fs w_now with_heap after_uuid].
  set (w1 := with_heap (after_uuid w) (hb ++ [OObj fields])).
  assert (Hstep : forall w2 : world,
            w_heap w2 = hb ++ [OObj fields] -> w_now w2 = w_now w ->
            fs_files (w_fs w2) = fs_files (w_fs w) ->
            fs_readonly (w_fs w2) = fs_readonly (w_fs w) ->
            API_LOGS_PATH E ∈ fs_dirs (w_fs w2) ->
            w_stderr w2 = w_stderr w -> w_stdout w2 = w_stdout w ->
            exists w',
              bind (on_heap (stringify_text E (VRef (length hb))))
                (fun line =>
                   bind Date_now (fun now =>
                   on_fs (appendFileSync now (log_path E w) (line +:+ String Str.nl "")))) w2
              = Ret tt w' /\
              content_of (w_fs w') (log_path E w) =
                content_of (w_fs w) (log_path E w) +:+
                json_text E (JObj (members docs)) +:+ newline /\
              (forall q, q <> log_path E w ->
                 props_get q (fs_files (w_fs w')) = props_get q (fs_files (w_fs w))) /\
              w_stderr w' = w_stderr w /\ w_stdout w' = w_stdout w).
  { intros w2 Hheap Hnow Hfiles Hro Hlogs Herr Hout.
    unfold bind at 1, on_heap, stringify_text. unfold bind at 1, lift_res.
    rewrite Hheap, (stringify_entry hb fields _ Hnd Hdocs). cbn [ret].
    rewrite bind_Date_now. unfold on_fs, appendFileSync. cbn [w_fs with_heap].
    assert (is_readonly (w_fs w2) (log_path E w) = false) as ->.
    { unfold is_readonly in *. by rewrite Hro. }
    assert (path_dirname (log_path E w) = API_LOGS_PATH E) as ->
      by apply path_dirname_join, log_file_name_no_sep.
    rewrite bool_decide_eq_true_2 by done. cbn [negb].
    eexists. split; [reflexivity | ].
    cbn [w_fs with_fs w_stderr w_stdout with_heap fs_files].
    split; [ | split; [ | done ] ].
    - unfold content_of. cbn [fs_files]. rewrite props_get_set_eq, Hfiles.
      cbn [from_option f_content]. unfold newline.
      by destruct (props_get (log_path E w) (fs_files (w_fs w))).
    - intros q Hq. rewrite props_get_set_ne by done. by rewrite Hfiles. }
  assert (Hfinish : forall w2 : world,
            w_heap w2 = hb ++ [OObj fields] -> w_now w2 = w_now w ->
            fs_files (w_fs w2) = fs_files (w_fs w) ->
            fs_readonly (w_fs w2) = fs_readonly (w_fs w) ->
            API_LOGS_PATH E ∈ fs_dirs (w_fs w2) ->
            w_stderr w2 = w_stderr w -> w_stdout w2 = w_stdout w ->
            exists w',
              match
                bind (on_heap (stringify_text E (VRef (length hb))))
                  (fun line =>
                     bind Date_now (fun now =>
                     on_fs (appendFileSync now
                              (path_join (API_LOGS_PATH E)
                                 (log_file_name (current_date E (w_now w2))))
                              (line +:+ String Str.nl "")))) w2
              with
              | Throw e s' => console_error "Error writing API log:" e s'
              | r => r
              end = Ret tt w' /\
              content_of (w_fs w') (log_path E w) =
                content_of (w_fs w) (log_path E w) +:+
                json_text E (JObj (members docs)) +:+ newline /\
              (forall q, q <> log_path E w ->
                 props_get q (fs_files (w_fs w')) = props_get q (fs_files (w_fs w))) /\
              w_stderr w' = w_stderr w /\ w_stdout w' = w_stdout w).
  { intros w2 Hheap Hnow Hfiles Hro Hlogs Herr Hout.
    destruct (Hstep w2) as (w' & Hrun & Hrest); try done.
    exists w'. split; [ | exact Hrest ]. rewrite Hnow. fold (log_path E w). by rewrite Hrun. }
  destruct Hdir as [Hdir | [Hex Hro]].
  - assert (Hex : existsSync (w_fs w) (API_LOGS_PATH E) = true).
    { unfold existsSync. by rewrite bool_decide_eq_true_2. }
    rewrite Hex. by apply Hfinish.
  - rewrite Hex, Hro. apply Hfinish; try done.
    cbn. apply elem_of_app. right. left.
Qed.

(** X19.  What [logApiCall] writes.  When the members of the call can be
    written (its headers and bodies serialise, its other members are no
    objects, its response is a response), the logs directory is there or
    can be made, and today's log file is not protected, [logApiCall]
    appends one line to today's log file: the text of the entry, a line
    end.  The entry holds the time, a new identifier, the service, the URL,
    the method, the sanitised headers and body, the headers of the
    response, its sanitised body when truthy, the status, the message and
    stack of the error, and the duration, in this order, a member whose
    value is [undefined] being left out.  No other file is touched and
    nothing is reported. *)
Theorem logApiCall_appends_entry (E : env) (c : api_call) (w : world)
    (th tb trb : option json) (resp : option response) :
  writable (w_heap w) c th tb trb resp ->
  API_LOGS_PATH E ∈ fs_dirs (w_fs w) \/
    (existsSync (w_fs w) (API_LOGS_PATH E) = false /\
     is_readonly (w_fs w) (API_LOGS_PATH E) = false) ->
  is_readonly (w_fs w) (log_path E w) = false ->
  exists w',
    logApiCall E c w = Ret tt w' /\
    content_of (w_fs w') (log_path E w) =
      content_of (w_fs w) (log_path E w) +:+
      json_text E (entry_doc E (w_now w) (w_uuids w) c th tb trb resp) +:+ newline /\
    (forall q, q <> log_path E w ->
       props_get q (fs_files (w_fs w')) = props_get q (fs_files (w_fs w))) /\
    w_stderr w' = w_stderr w /\ w_stdout w' = w_stdout w.
Proof.
  intros Hwritable Hdir Hfile.
  destruct (make_logEntry_docs E c w th tb trb resp Hwritable)
    as (hb & fields & Hmake & Hext & Hdocs).
  exact (logApiCall_appends_docs E c w hb fields _ Hmake Hdocs
           (entry_docs_keys E _ _ c th tb trb resp) Hdir Hfile).
Qed.

(** A call with a secret in its headers and an error, in a world whose heap
    holds the headers *)
Definition secret_call : api_call := {|
  c_url := VStr "https://api.openai.com/v1/chat"; c_method := VStr "POST";
  c_headers := VRef 0; c_body := VStr "hi"; c_response := VUndefined;
  c_responseBody := VUndefined; c_statusCode := VUndefined;
  c_error := Demo.network_error;
  c_durationMs := VNum (NInt 12); c_service := VUndefined
|}.

Definition secret_world : world := {|
  w_heap := [OObj [("authorization", VStr "Bearer k"); ("accept", VStr "json")]];
  w_fs := Demo.disk; w_stdout := []; w_stderr := []; w_now := 1000; w_uuids := 0
|}.

Lemma logApiCall_appends_entry_witness :
  exists w',
    logApiCall Demo.E secret_call secret_world = Ret tt w' /\
    content_of (w_fs w') Demo.today =
      content_of Demo.disk Demo.today +:+
      "{'timestamp':'T1000','id':'uuid-0','service':'unknown','url':'https://api.openai.com/v1/chat','method':'POST','headers':{'authorization':'***REDACTED***','accept':'json'},'body':'hi','error':{'message':'fetch failed','stack':'at fetch'},'durationMs':12}" +:+ newline /\
    (forall q, q <> Demo.today ->
       props_get q (fs_files (w_fs w')) = props_get q (fs_files Demo.disk)) /\
    w_stderr w' = [] /\ w_stdout w' = [].
Proof.
  apply (logApiCall_appends_entry Demo.E secret_call secret_world
           (Some (JObj [("authorization", JStr "Bearer k"); ("accept", JStr "json")]))
           (Some (JStr "hi")) None None).
  - split; try reflexivity.
    + intros H. discriminate H.
    + intros r H. discriminate H.
  - left. vm_compute. left.
  - reflexivity.
Defined.


(** * The wrappers, when the call throws *)



(** The entry of a call that threw [e], made at the time [now] with the
    [n]-th identifier: no [responseHeaders], no [responseBody] and no
    [statusCode]; [dh] and [db] are the documents of the sanitised headers
    and body.  A member without a document is left out. *)
Definition thrown_entry (E : env) (now : Z) (n : nat) (service : string)
    (url method : value) (dh db : option json) (e : value) (durationMs : Z) : json :=
  JObj (members
    [ ("timestamp", Some (JStr (toISOString E now)));
      ("id", Some (JStr (uuid_of E n)));
      ("service", Some (JStr service));
      ("url", scalar_doc url);
      ("method", scalar_doc method);
      ("headers", dh);
      ("body", db);
      ("error", error_doc e);
      ("durationMs", Some (JNum durationMs)) ]).

(** Its [error] member is the document of the error, and it has none of the
    members of a response. *)
Lemma thrown_entry_members E now n service url method dh db e durationMs :
  exists ms,
    thrown_entry E now n service url method dh db e durationMs = JObj ms /\
    props_get "error" ms = error_doc e /\
    props_get "statusCode" ms = None /\
    props_get "responseBody" ms = None /\
    props_get "responseHeaders" ms = None.
Proof.
  eexists. split; [reflexivity | ]. unfold members.
  destruct (scalar_doc url), (scalar_doc method), dh, db, (error_doc e); by cbn.
Qed.













(** * The colour of the method *)

Lemma upper_upper c : Str.upper (Str.upper c) = Str.upper c.
Proof. destruct c as [[] [] [] [] [] [] [] []]; reflexivity. Qed.

Lemma upper_lower c : Str.upper (Str.lower c) = Str.upper c.
Proof. destruct c as [[] [] [] [] [] [] [] []]; reflexivity. Qed.

Lemma upper_ascii c : is_ascii c = true -> is_ascii (Str.upper c) = true.
Proof. destruct c as [[] [] [] [] [] [] [] []]; try done. Qed.

Lemma lower_ascii c : is_ascii c = true -> is_ascii (Str.lower c) = true.
Proof. destruct c as [[] [] [] [] [] [] [] []]; try done. Qed.

Lemma upper_not_ascii c : is_ascii c = false -> Str.upper c = c.
Proof. destruct c as [[] [] [] [] [] [] [] []]; try done. Qed.

Lemma lower_not_ascii c : is_ascii c = false -> Str.lower c = c.
Proof. destruct c as [[] [] [] [] [] [] [] []]; try done. Qed.

(** A byte of the ASCII range is none of the bytes of the characters that
    [toUpperCase] reads. *)
Lemma is_byte_ascii n c :
  128 <= n < 256 -> is_ascii c = true -> Str.is_byte n c = false.
Proof.
  intros Hn Hc. unfold Str.is_byte, Str.byte. apply Ascii.eqb_neq. intros ->.
  unfold is_ascii in Hc. rewrite nat_ascii_embedding in Hc by lia.
  apply Nat.ltb_lt in Hc. lia.
Qed.

Lemma upper2_ascii_l a b : is_ascii a = true -> Str.upper2 a b = None.
Proof. intros Ha. unfold Str.upper2. by rewrite !(is_byte_ascii _ a) by (done || lia). Qed.

Lemma upper2_ascii_r a b : is_ascii b = true -> Str.upper2 a b = None.
Proof.
  intros Hb. unfold Str.upper2.
  by rewrite !(is_byte_ascii _ b), !andb_false_r by (done || lia).
Qed.

Lemma upper3_ascii_1 a b c : is_ascii a = true -> Str.upper3 a b c = None.
Proof. intros Ha. unfold Str.upper3. by rewrite !(is_byte_ascii _ a) by (done || lia). Qed.

Lemma upper3_ascii_2 a b c : is_ascii b = true -> Str.upper3 a b c = None.
Proof.
  intros Hb. unfold Str.upper3.
  by rewrite !(is_byte_ascii _ b), !andb_false_r by (done || lia).
Qed.

Lemma upper3_ascii_3 a b c : is_ascii c = true -> Str.upper3 a b c = None.
Proof.
  intros Hc. unfold Str.upper3. rewrite !(is_byte_ascii _ c) by (done || lia).
  by destruct (_ && _).
Qed.

(** The upper-case forms that [toUpperCase] writes for them *)
Definition upper_form (u : string) : Prop :=
  u ∈ ["SS"; "I"; "S"; "FF"; "FI"; "FL"; "FFI"; "FFL"; "ST"].

Lemma upper2_form a b u : Str.upper2 a b = Some u -> upper_form u.
Proof.
  unfold Str.upper2, upper_form. repeat (destruct (_ && _)); intros [= <-]; repeat constructor.
Qed.

Lemma upper3_form a b c u : Str.upper3 a b c = Some u -> upper_form u.
Proof.
  unfold Str.upper3, upper_form. destruct (_ && _); [ | done ].
  repeat (destruct (Str.is_byte _ c)); intros [= <-]; repeat constructor.
Qed.

Lemma upper_form_head u :
  upper_form u -> exists x u', u = String x u' /\ is_ascii x = true.
Proof.
  unfold upper_form. intros Hu.
  repeat (apply elem_of_cons in Hu as [-> | Hu]; [by eexists _, _ | ]).
  by apply elem_of_nil in Hu.
Qed.

(** [a], followed by [t], is read by [toUpperCase] on its own. *)
Definition plain_at (a : ascii) (t : string) : Prop :=
  match t with
  | EmptyString => True
  | String b s2 =>
      Str.upper2 a b = None /\
      match s2 with
      | EmptyString => True
      | String c _ => Str.upper3 a b c = None
      end
  end.

Lemma toUpperCase_plain a t :
  plain_at a t -> Str.toUpperCase (String a t) = String (Str.upper a) (Str.toUpperCase t).
Proof.
  destruct t as [ | b [ | c s3 ] ]; [done | | ].
  - intros [H2 _]. cbn [Str.toUpperCase]. by rewrite H2.
  - intros [H2 H3]. cbn [Str.toUpperCase]. rewrite H2, H3. done.
Qed.

Lemma toUpperCase_2 a b s2 u :
  Str.upper2 a b = Some u ->
  Str.toUpperCase (String a (String b s2)) = u +:+ Str.toUpperCase s2.
Proof. intros H. cbn [Str.toUpperCase]. by rewrite H. Qed.

Lemma toUpperCase_3 a b c s3 u :
  Str.upper2 a b = None -> Str.upper3 a b c = Some u ->
  Str.toUpperCase (String a (String b (String c s3))) = u +:+ Str.toUpperCase s3.
Proof. intros H2 H3. cbn [Str.toUpperCase]. by rewrite H2, H3. Qed.

(** How [toUpperCase] reads the beginning of a string *)
Lemma toUpperCase_cases a t :
  (exists b s2 u, t = String b s2 /\ Str.upper2 a b = Some u) \/
  (exists b c s3 u, t = String b (String c s3) /\ Str.upper2 a b = None /\
                    Str.upper3 a b c = Some u) \/
  plain_at a t.
Proof.
  destruct t as [ | b s2 ]; [by right; right | ].
  destruct (Str.upper2 a b) as [ u | ] eqn:H2; [left; by eexists _, _, _ | ].
  destruct s2 as [ | c s3 ]; [right; right; by split | ].
  destruct (Str.upper3 a b c) as [ u | ] eqn:H3.
  - right; left. by eexists _, _, _, _.
  - right; right. by split.
Qed.

Lemma plain_at_ascii a t : is_ascii a = true -> plain_at a t.
Proof.
  intros Ha. destruct t as [ | b [ | c s3 ] ]; [done | | ]; split;
    auto using upper2_ascii_l, upper3_ascii_1.
Qed.

Lemma plain_at_ascii_head a x r : is_ascii x = true -> plain_at a (String x r).
Proof.
  intros Hx. split; [by apply upper2_ascii_r | ]. destruct r; [done | ].
  by apply upper3_ascii_2.
Qed.

Lemma toUpperCase_ascii x t :
  is_ascii x = true ->
  Str.toUpperCase (String x t) = String (Str.upper x) (Str.toUpperCase t).
Proof. intros Hx. by apply toUpperCase_plain, plain_at_ascii. Qed.

Lemma toUpperCase_form u t :
  upper_form u -> Str.toUpperCase (u +:+ t) = u +:+ Str.toUpperCase t.
Proof.
  unfold upper_form. intros Hu.
  repeat (apply elem_of_cons in Hu as [-> | Hu];
          [rewrite !append_String;
           change ("" +:+ t) with t; change ("" +:+ Str.toUpperCase t) with (Str.toUpperCase t);
           by rewrite !toUpperCase_ascii by done | ]).
  by apply elem_of_nil in Hu.
Qed.

Lemma toUpperCase_head c t :
  exists y r, Str.toUpperCase (String c t) = String y r /\ (is_ascii y = true \/ y = c).
Proof.
  destruct (toUpperCase_cases c t)
    as [(b & s2 & u & -> & H2) | [(b & d & s3 & u & -> & H2 & H3) | Hplain]].
  - rewrite (toUpperCase_2 _ _ _ u) by done.
    destruct (upper_form_head u (upper2_form _ _ _ H2)) as (x & u' & -> & Hx).
    rewrite append_String. eexists _, _. split; [done | by left].
  - rewrite (toUpperCase_3 _ _ _ _ u) by done.
    destruct (upper_form_head u (upper3_form _ _ _ _ H3)) as (x & u' & -> & Hx).
    rewrite append_String. eexists _, _. split; [done | by left].
  - rewrite toUpperCase_plain by done. eexists _, _. split; [done | ].
    destruct (is_ascii c) eqn:Hc; [left; by apply upper_ascii | right; by apply upper_not_ascii].
Qed.

(** The characters [toUpperCase] leaves as they are make no new one with
    what it writes after them. *)
Lemma plain_at_toUpperCase a t :
  plain_at a t -> plain_at a (Str.toUpperCase t).
Proof.
  destruct t as [ | b s2 ]; [done | ]. intros [H2 H3].
  destruct (toUpperCase_cases b s2)
    as [(c & s3 & u & -> & Hb2) | [(c & d & s4 & u & -> & Hb2 & Hb3) | Hplain]].
  - rewrite (toUpperCase_2 _ _ _ u) by done.
    destruct (upper_form_head u (upper2_form _ _ _ Hb2)) as (x & u' & -> & Hx).
    rewrite append_String. by apply plain_at_ascii_head.
  - rewrite (toUpperCase_3 _ _ _ _ u) by done.
    destruct (upper_form_head u (upper3_form _ _ _ _ Hb3)) as (x & u' & -> & Hx).
    rewrite append_String. by apply plain_at_ascii_head.
  - rewrite toUpperCase_plain by done.
    destruct (is_ascii b) eqn:Hb; [by apply plain_at_ascii_head, upper_ascii | ].
    rewrite upper_not_ascii by done. split; [done | ].
    destruct s2 as [ | c s3 ]; [done | ].
    destruct (toUpperCase_head c s3) as (y & r & -> & [Hy | ->]); [ | done ].
    by apply upper3_ascii_3.
Qed.

Lemma toUpperCase_toUpperCase s :
  Str.toUpperCase (Str.toUpperCase s) = Str.toUpperCase s.
Proof.
  assert (Hall : forall n s, String.length s <= n ->
            Str.toUpperCase (Str.toUpperCase s) = Str.toUpperCase s); [ | by eapply Hall ].
  clear s. induction n as [ | n IH ]; intros s Hn.
  { destruct s; [done | simpl in Hn; lia]. }
  destruct s as [ | a t ]; [done | ]. cbn [String.length] in Hn.
  destruct (toUpperCase_cases a t)
    as [(b & s2 & u & -> & H2) | [(b & c & s3 & u & -> & H2 & H3) | Hplain]].
  - rewrite (toUpperCase_2 _ _ _ u) by done.
    rewrite toUpperCase_form by (by eapply upper2_form).
    rewrite IH; [done | ]. cbn [String.length] in Hn. lia.
  - rewrite (toUpperCase_3 _ _ _ _ u) by done.
    rewrite toUpperCase_form by (by eapply upper3_form).
    rewrite IH; [done | ]. cbn [String.length] in Hn. lia.
  - rewrite toUpperCase_plain by done.
    destruct (is_ascii a) eqn:Ha.
    + rewrite toUpperCase_ascii by (by apply upper_ascii).
      rewrite upper_upper, IH; [done | lia].
    + rewrite upper_not_ascii by done.
      rewrite toUpperCase_plain by (by apply plain_at_toUpperCase).
      rewrite upper_not_ascii by done. rewrite IH; [done | lia].
Qed.

Lemma upper2_not_ascii a b u :
  Str.upper2 a b = Some u -> is_ascii a = false /\ is_ascii b = false.
Proof.
  intros H. split.
  - destruct (is_ascii a) eqn:Ha; [ | done ]. by rewrite upper2_ascii_l in H.
  - destruct (is_ascii b) eqn:Hb; [ | done ]. by rewrite upper2_ascii_r in H.
Qed.

Lemma upper3_not_ascii a b c u :
  Str.upper3 a b c = Some u -> is_ascii a = false /\ is_ascii b = false /\ is_ascii c = false.
Proof.
  intros H. split; [ | split ].
  - destruct (is_ascii a) eqn:Ha; [ | done ]. by rewrite upper3_ascii_1 in H.
  - destruct (is_ascii b) eqn:Hb; [ | done ]. by rewrite upper3_ascii_2 in H.
  - destruct (is_ascii c) eqn:Hc; [ | done ]. by rewrite upper3_ascii_3 in H.
Qed.

Lemma upper2_lower a b : Str.upper2 (Str.lower a) (Str.lower b) = Str.upper2 a b.
Proof.
  destruct (is_ascii a) eqn:Ha.
  { rewrite !upper2_ascii_l; auto using lower_ascii. }
  destruct (is_ascii b) eqn:Hb.
  { rewrite !upper2_ascii_r; auto using lower_ascii. }
  by rewrite !lower_not_ascii.
Qed.

Lemma upper3_lower a b c :
  Str.upper3 (Str.lower a) (Str.lower b) (Str.lower c) = Str.upper3 a b c.
Proof.
  destruct (is_ascii a) eqn:Ha.
  { rewrite !upper3_ascii_1; auto using lower_ascii. }
  destruct (is_ascii b) eqn:Hb.
  { rewrite !upper3_ascii_2; auto using lower_ascii. }
  destruct (is_ascii c) eqn:Hc.
  { rewrite !upper3_ascii_3; auto using lower_ascii. }
  by rewrite !lower_not_ascii.
Qed.

Lemma toUpperCase_toLowerCase s :
  Str.toUpperCase (Str.toLowerCase s) = Str.toUpperCase s.
Proof.
  unfold Str.toLowerCase.
  assert (Hall : forall n s, String.length s <= n ->
            Str.toUpperCase (Str.map Str.lower s) = Str.toUpperCase s);
    [ | by eapply Hall ].
  clear s. induction n as [ | n IH ]; intros s Hn.
  { destruct s; [done | simpl in Hn; lia]. }
  destruct s as [ | a t ]; [done | ]. cbn [String.length] in Hn.
  destruct (toUpperCase_cases a t)
    as [(b & s2 & u & -> & H2) | [(b & c & s3 & u & -> & H2 & H3) | Hplain]].
  - cbn [Str.map]. rewrite !(toUpperCase_2 _ _ _ u) by (done || by rewrite upper2_lower).
    rewrite IH; [done | ]. cbn [String.length] in Hn. lia.
  - cbn [Str.map].
    rewrite !(toUpperCase_3 _ _ _ _ u)
      by (done || by rewrite upper2_lower || by rewrite upper3_lower).
    rewrite IH; [done | ]. cbn [String.length] in Hn. lia.
  - cbn [Str.map]. rewrite (toUpperCase_plain a t) by done.
    rewrite toUpperCase_plain.
    + rewrite upper_lower, IH; [done | lia].
    + destruct t as [ | b [ | c s3 ] ]; [done | | ]; cbn [Str.map plain_at] in *.
      * by rewrite upper2_lower.
      * by rewrite upper2_lower, upper3_lower.
Qed.

(** X20.  The colour of a method does not depend on the case of its letters,
    and a method other than GET, POST, PUT, DELETE and PATCH, in any case,
    is shown in white.  (A method is also one of them when its upper-case
    form is: the long s, U+017F, counts for an S.) *)
Theorem getMethodColor_case (E : env) (method : string) :
  getMethodColor E (Str.toUpperCase method) = getMethodColor E method /\
  getMethodColor E (Str.toLowerCase method) = getMethodColor E method /\
  (Str.toUpperCase method ∉ ["GET"; "POST"; "PUT"; "DELETE"; "PATCH"] ->
   getMethodColor E method = chalk_white E).
Proof.
  unfold getMethodColor. rewrite toUpperCase_toUpperCase, toUpperCase_toLowerCase.
  split; [done | ]. split; [done | ]. intros Hother.
  repeat match goal with
         | |- context [String.eqb ?a ?b] =>
             destruct (String.eqb_spec a b) as [Heq | _];
             [ destruct Hother; rewrite Heq; repeat constructor | ]
         end.
  done.
Qed.

Lemma getMethodColor_case_witness :
  getMethodColor Demo.E "Options" = chalk_white Demo.E.
Proof.
  apply (proj2 (proj2 (getMethodColor_case Demo.E "Options"))).
  vm_compute. intros H. repeat (apply elem_of_cons in H as [H | H]; [discriminate H | ]).
  by apply elem_of_nil in H.
Defined.

(** [post] written with the long s, or with the ligature of the long s and
    t, U+FB05, is POST. *)
Example getMethodColor_long_s :
  getMethodColor Demo.E ("po" +:+ String (Str.byte 197) (String (Str.byte 191) "t")) =
    chalk_blue Demo.E /\
  getMethodColor Demo.E
    ("po" +:+ String (Str.byte 239) (String (Str.byte 172) (String (Str.byte 133) ""))) =
    chalk_blue Demo.E.
Proof. split; vm_compute; reflexivity. Qed.

(** * The request details of a wrapped call *)

(** An argument in which [extractRequestDetails] finds nothing: it is not a
    truthy object, or it is no request and lacks a truthy [url] or
    [method]. *)
Definition no_details (h : heap) (arg : value) : bool :=
  negb (truthy arg && is_object arg) ||
  match arg with
  | VRef l =>
      match h !! l with
      | Some (ORequest _) => false
      | Some o => negb (truthy (obj_member o "url") && truthy (obj_member o "method"))
      | None => true
      end
  | _ => true
  end.

Lemma extractRequestDetails_skip (h : heap) (skipped rest : list value) :
  Forall (fun arg => no_details h arg = true) skipped ->
  extractRequestDetails (skipped ++ rest) h = extractRequestDetails rest h.
Proof.
  induction 1 as [ | arg skipped Harg _ IH ]; [done | ].
  cbn [app extractRequestDetails]. unfold no_details in Harg.
  destruct (truthy arg && is_object arg) eqn:Hobj; [ | exact IH ].
  cbn [negb orb] in Harg. unfold bind at 1, get_state.
  destruct arg as [ | | b | n | s | z | id | message stack | l ];
    try (cbn in Hobj; rewrite ?andb_false_r in Hobj; discriminate Hobj).
  - unfold bind at 1, member at 1. unfold bind at 1, member at 1. exact IH.
  - destruct (h !! l) as [ o | ] eqn:Hl.
    + destruct o; try discriminate Harg;
        unfold bind at 1, member at 1; rewrite Hl; cbn [String.eqb Ascii.eqb Bool.eqb];
        unfold bind at 1, member at 1; rewrite Hl; cbn [String.eqb Ascii.eqb Bool.eqb];
        apply negb_true_iff in Harg; rewrite Harg; exact IH.
    + unfold bind at 1, member at 1. rewrite Hl.
      unfold bind at 1, member at 1. rewrite Hl. exact IH.
Qed.

(** X21.  [extractRequestDetails] takes the details of the first argument that
    has some: arguments that are no objects (a URL given as a string, a
    number), [null], and objects without a truthy [url] or [method] are
    passed over.  An object with both gives its [url], [method], [headers]
    and [body]; when no argument has details the result is [undefined].
    The heap is left as it was. *)
Theorem extractRequestDetails_first (h : heap) (skipped rest : list value) :
  Forall (fun arg => no_details h arg = true) skipped ->
  extractRequestDetails skipped h = Ret None h /\
  (forall l ps,
     h !! l = Some (OObj ps) ->
     truthy (obj_member (OObj ps) "url") = true ->
     truthy (obj_member (OObj ps) "method") = true ->
     extractRequestDetails (skipped ++ VRef l :: rest) h =
     Ret (Some {| d_url := obj_member (OObj ps) "url";
                  d_method := obj_member (OObj ps) "method";
                  d_headers := obj_member (OObj ps) "headers";
                  d_body := obj_member (OObj ps) "body" |}) h).
Proof.
  intros Hskipped. split.
  - rewrite <- (app_nil_r skipped) at 1. by rewrite extractRequestDetails_skip.
  - intros l ps Hl Hurl Hmethod. rewrite extractRequestDetails_skip by done.
    cbn [extractRequestDetails truthy is_object typeof andb].
    unfold bind at 1, get_state. rewrite Hl.
    unfold bind at 1, member at 1. rewrite Hl.
    unfold bind at 1, member at 1. rewrite Hl.
    rewrite Hurl, Hmethod. cbn [andb].
    unfold bind at 1, member at 1. rewrite Hl.
    unfold bind at 1, member at 1. by rewrite Hl.
Qed.

Lemma extractRequestDetails_first_witness :
  extractRequestDetails [VStr "https://api.openai.com/v1/chat"; VNull] [] = Ret None [].
Proof.
  apply (extractRequestDetails_first [] [VStr "https://api.openai.com/v1/chat"; VNull] []).
  repeat constructor.
Defined.
